(** * Topic mapping and canonical clustering: a shallow embedding

    This development models the scoring-and-clustering core of the
    question-paper analytics (analytics/topic_mapper.py,
    analytics/canonical_engine.py, analytics/module_filter.py and the
    helpers of analytics/text_utils.py they call) and proves properties
    of the selection, fallback, mark-splitting and medoid code.

    Conventions of the model:
    - Python and NumPy floats are exact rationals ([Q]); rounding error,
      NaN and infinities are outside the model.  [round(x, 4)] is
      half-even rounding of the exact value to a multiple of 1/10000.
    - Text is ASCII: the character classes of [str.split], [str.strip],
      [\w] and [\s] are the ASCII ones.
    - The sentence-embedding model, rapidfuzz's [token_set_ratio] and
      scikit-learn's clustering and cosine distance are external; they are
      Section variables.  [encode] on a batch is the per-text model mapped
      over the batch, whatever its length.
    - Calls of [EmbeddingEngine.encode] are logged in the state of a small
      state-and-exception monad, so that statements can speak about what
      happened before an exception. *)

From Stdlib Require Import List String Ascii Bool Arith ZArith QArith Qround.
From Stdlib Require Import Lia Permutation Sorted.
Import ListNotations.

Set Implicit Arguments.

(** ** Python string methods on ASCII text *)

Module Text.

Local Open Scope string_scope.
Local Open Scope nat_scope.

Definition code (c : ascii) : nat := nat_of_ascii c.

(** [str.isspace] restricted to ASCII: TAB, LF, VT, FF, CR, FS, GS, RS, US
    and the space. *)
Definition is_space (c : ascii) : bool :=
  let n := code c in
  ((9 <=? n) && (n <=? 13)) || ((28 <=? n) && (n <=? 32)).

Definition is_digit (c : ascii) : bool :=
  let n := code c in (48 <=? n) && (n <=? 57).

Definition is_upper (c : ascii) : bool :=
  let n := code c in (65 <=? n) && (n <=? 90).

Definition is_lower (c : ascii) : bool :=
  let n := code c in (97 <=? n) && (n <=? 122).

Definition is_alpha (c : ascii) : bool := is_upper c || is_lower c.

(** The class [\w]: letters, digits and the underscore. *)
Definition is_word (c : ascii) : bool :=
  is_alpha c || is_digit c || (code c =? 95).

Definition to_lower (c : ascii) : ascii :=
  if is_upper c then ascii_of_nat (code c + 32) else c.

Definition to_upper (c : ascii) : ascii :=
  if is_lower c then ascii_of_nat (code c - 32) else c.

Fixpoint smap (f : ascii -> ascii) (s : string) : string :=
  match s with
  | EmptyString => EmptyString
  | String c s' => String (f c) (smap f s')
  end.

Fixpoint sfilter (p : ascii -> bool) (s : string) : string :=
  match s with
  | EmptyString => EmptyString
  | String c s' => if p c then String c (sfilter p s') else sfilter p s'
  end.

Fixpoint sall (p : ascii -> bool) (s : string) : bool :=
  match s with
  | EmptyString => true
  | String c s' => p c && sall p s'
  end.

Definition is_empty (s : string) : bool :=
  match s with EmptyString => true | _ => false end.

Definition lower (s : string) : string := smap to_lower s.
Definition upper (s : string) : string := smap to_upper s.

Definition snoc (s : string) (c : ascii) : string := s ++ String c "".

Definition sreverse (s : string) : string :=
  string_of_list_ascii (rev (list_ascii_of_string s)).

Fixpoint lstrip (s : string) : string :=
  match s with
  | EmptyString => EmptyString
  | String c s' => if is_space c then lstrip s' else s
  end.

(** [str.strip()] *)
Definition strip (s : string) : string :=
  sreverse (lstrip (sreverse (lstrip s))).

Fixpoint split_aux (cur : string) (s : string) : list string :=
  match s with
  | EmptyString => if is_empty cur then [] else [cur]
  | String c s' =>
      if is_space c
      then (if is_empty cur then split_aux "" s' else cur :: split_aux "" s')
      else split_aux (snoc cur c) s'
  end.

(** [str.split()] with no argument: the maximal runs of non-blank
    characters. *)
Definition split (s : string) : list string := split_aux "" s.

(** [sep.join(parts)] *)
Definition join (sep : string) (parts : list string) : string :=
  String.concat sep parts.

(** Line boundaries of [str.splitlines] in ASCII: LF, CR, CR LF, VT, FF,
    FS, GS and RS. *)
Definition is_linebreak (c : ascii) : bool :=
  let n := code c in
  ((10 <=? n) && (n <=? 13)) || ((28 <=? n) && (n <=? 30)).

Fixpoint splitlines_aux (cur : string) (s : string) : list string :=
  match s with
  | EmptyString => if is_empty cur then [] else [cur]
  | String c s' =>
      if code c =? 13 then
        match s' with
        | String d s'' =>
            if code d =? 10 then cur :: splitlines_aux "" s''
            else cur :: splitlines_aux "" s'
        | EmptyString => [cur]
        end
      else if is_linebreak c then cur :: splitlines_aux "" s'
      else splitlines_aux (snoc cur c) s'
  end.

Definition splitlines (s : string) : list string := splitlines_aux "" s.

(** [re.sub(r"\s+", " ", s)] *)
Fixpoint collapse_ws (in_run : bool) (s : string) : string :=
  match s with
  | EmptyString => EmptyString
  | String c s' =>
      if is_space c
      then (if in_run then collapse_ws true s'
            else String " " (collapse_ws true s'))
      else String c (collapse_ws false s')
  end.

(** [re.fullmatch(r"[0-9\s\.\-]+", s)] *)
Definition numeric_row (s : string) : bool :=
  negb (is_empty s) &&
  sall (fun c => is_digit c || is_space c || (code c =? 46) || (code c =? 45)) s.

(** text_utils.normalize_text *)
Definition normalize_text (text : string) : string :=
  if is_empty text then ""
  else
    let cleaned_lines :=
      flat_map
        (fun line =>
           let stripped := strip line in
           if numeric_row stripped && (4 <=? List.length (split stripped))
           then []
           else [stripped])
        (splitlines text) in
    let cleaned_text := collapse_ws false (join " " cleaned_lines) in
    strip (lower cleaned_text).

Definition mem (x : string) (l : list string) : bool :=
  existsb (String.eqb x) l.

(** A Python [set] of strings, kept as a duplicate-free list. *)
Fixpoint dedup (l : list string) : list string :=
  match l with
  | [] => []
  | x :: l' => if mem x l' then dedup l' else x :: dedup l'
  end.

Definition last_char (s : string) : option ascii :=
  match sreverse s with
  | String c _ => Some c
  | EmptyString => None
  end.

(** [t[:-1]] *)
Definition drop_last (s : string) : string :=
  match sreverse s with
  | String _ r => sreverse r
  | EmptyString => EmptyString
  end.

Definition ends_with_s (s : string) : bool :=
  match last_char s with
  | Some c => code c =? 115
  | None => false
  end.

End Text.

(** ** Numbers: floats as rationals *)

Module Num.

Local Open Scope Q_scope.

(** Inner product of two vectors. *)
Definition dot (a b : list Q) : Q :=
  fold_right Qplus 0 (map (fun p => fst p * snd p) (combine a b)).

(** [np.dot(matrix, vector)]: one inner product per row. *)
Definition mat_vec (m : list (list Q)) (v : list Q) : list Q :=
  map (fun row => dot row v) m.

Definition qmax (x y : Q) : Q := if Qle_bool x y then y else x.

(** [np.max] of a one-dimensional array; [None] stands for the
    [ValueError] NumPy raises on an empty array. *)
Definition np_max (l : list Q) : option Q :=
  match l with
  | [] => None
  | x :: l' => Some (fold_left qmax l' x)
  end.

Definition qsum (l : list Q) : Q := fold_right Qplus 0 l.

(** Nearest integer, ties to the even one. *)
Definition round_half_even (x : Q) : Z :=
  let n := Qfloor x in
  match Qcompare (x - inject_Z n) (1 # 2) with
  | Lt => n
  | Gt => (n + 1)%Z
  | Eq => if Z.even n then n else (n + 1)%Z
  end.

(** [round(x, 4)] *)
Definition round4 (x : Q) : Q := round_half_even (x * 10000) # 10000.

Definition of_nat (n : nat) : Q := inject_Z (Z.of_nat n).

End Num.

(** ** Data model *)

Record MainTopic := {
  main_topic : string;
  sub_topics : list string   (* [main.get("sub_topics", [])] *)
}.

Record SyllabusModule := {
  module_id : Z;
  module_name : string;
  main_topics : list MainTopic
}.

Record Question := {
  paper_name : string;
  question_number : string;
  text : string;
  marks : Q
}.

(** One entry of [mapped_topics].  The key [allocated_marks] is absent
    until the mark allocation adds it. *)
Record ScoredTopic := {
  st_module_id : Z;
  st_topic : string;
  confidence : Q;
  allocated_marks : option Q
}.

Record MappedQuestion := {
  mq_paper_name : string;
  mq_question_number : string;
  mq_text : string;
  mq_marks : Q;
  mapped_topics : list ScoredTopic
}.

(** ** Exceptions and the log of oracle calls *)

Inductive exn : Type :=
| ValueError (msg : string)
| IndexError (msg : string).

(** Every call of [EmbeddingEngine.encode] appends its batch of texts. *)
Definition oracle_log := list (list string).

Definition M (A : Type) : Type := oracle_log -> oracle_log * (exn + A).

Definition ret {A} (a : A) : M A := fun log => (log, inr a).

Definition raise {A} (e : exn) : M A := fun log => (log, inl e).

Definition bind {A B} (m : M A) (k : A -> M B) : M B :=
  fun log =>
    match m log with
    | (log', inr a) => k a log'
    | (log', inl e) => (log', inl e)
    end.

Definition lift {A} (r : exn + A) : M A := fun log => (log, r).

Notation "x <- m ;; k" := (bind m (fun x => k))
  (at level 61, m at next level, right associativity).

(** A [for] loop that builds a list, stopping at the first exception. *)
Fixpoint for_each {A B} (f : A -> M B) (l : list A) : M (list B) :=
  match l with
  | [] => ret []
  | a :: l' =>
      b <- f a ;;
      bs <- for_each f l' ;;
      ret (b :: bs)
  end.

(** ** Stable sorting, as Python's [sorted] and [list.sort] *)

Section StableSort.

Variable A : Type.

(** [better y x]: [y] comes strictly before [x] in the wanted order. *)
Variable better : A -> A -> bool.

(** [x] stood in front of every element of [l] in the input, so it only
    moves behind elements that are strictly better. *)
Fixpoint insert_stable (x : A) (l : list A) : list A :=
  match l with
  | [] => [x]
  | y :: l' => if better y x then y :: insert_stable x l' else x :: l
  end.

Fixpoint sort_stable (l : list A) : list A :=
  match l with
  | [] => []
  | x :: l' => insert_stable x (sort_stable l')
  end.

End StableSort.

(** ** analytics/topic_mapper.py *)

Module TopicMapper.

Import Text.
Local Open Scope string_scope.
Local Open Scope Q_scope.

Definition SEMANTIC_WEIGHT : Q := 5 # 10.
Definition CONCEPT_WEIGHT : Q := 4 # 10.
Definition FUZZY_WEIGHT : Q := 1 # 10.

Definition MODULE_MARGIN : Q := 5 # 100.
Definition TOPIC_MARGIN : Q := 3 # 100.

Definition MIN_SEMANTIC_FLOOR : Q := 20 # 100.

(** analytics/config.py *)
Definition MAX_TOPICS_PER_QUESTION : nat := 4.

Definition FALLBACK_TOPIC : string := "Module-Level Fallback".
Definition FALLBACK_CONFIDENCE : Q := 30 # 100.

Definition STOPWORDS : list string :=
  [ "the"; "is"; "and"; "of"; "in"; "to"; "a"; "for";
    "with"; "on"; "that"; "as"; "an"; "are"; "by";
    "be"; "this"; "using"; "such"; "how"; "what";
    "which"; "explain"; "design"; "discuss";
    "analyze"; "compare"; "describe" ].

Definition tokenize (text : string) : list string :=
  let text := lower text in
  let text := sfilter (fun c => is_word c || is_space c) text in
  let tokens := split text in
  map (fun t => if ends_with_s t then drop_last t else t)
      (filter (fun t => negb (mem t STOPWORDS) && (2 <? String.length t)%nat)
              tokens).

(** *** Acronyms (text_utils.py) *)

(** A [dict] from acronym to topic phrase, in insertion order. *)
Definition acronym_map := list (string * string).

Fixpoint dict_set (k v : string) (d : acronym_map) : acronym_map :=
  match d with
  | [] => [(k, v)]
  | (k', v') :: d' =>
      if String.eqb k k' then (k, v) :: d' else (k', v') :: dict_set k v d'
  end.

Fixpoint dict_get (k : string) (d : acronym_map) : option string :=
  match d with
  | [] => None
  | (k', v') :: d' => if String.eqb k k' then Some v' else dict_get k d'
  end.

Definition is_char (n : nat) (c : ascii) : bool := (code c =? n)%nat.

Fixpoint until_close (s : string) : option string :=
  match s with
  | EmptyString => None
  | String c s' =>
      if is_char 41 c then Some EmptyString
      else option_map (String c) (until_close s')
  end.

(** [re.search(r"\(([^)]+)\)", topic)], group 1 of the leftmost match. *)
Fixpoint paren_group (s : string) : option string :=
  match s with
  | EmptyString => None
  | String c s' =>
      if is_char 40 c then
        match until_close s' with
        | Some g => if is_empty g then paren_group s' else Some g
        | None => paren_group s'
        end
      else paren_group s'
  end.

Definition acronym_length_ok (s : string) : bool :=
  ((2 <=? String.length s) && (String.length s <=? 6))%nat.

Definition first_is_upper (w : string) : bool :=
  match w with
  | String c _ => is_upper c
  | EmptyString => false
  end.

Definition first_char (w : string) : string :=
  match w with
  | String c _ => String c EmptyString
  | EmptyString => EmptyString
  end.

(** The body of the loop over the topics of [extract_acronyms_from_topics]. *)
Definition add_topic_acronyms (acronym_dict : acronym_map) (topic : string)
  : acronym_map :=
  let acronym_dict :=
    match paren_group topic with
    | Some g =>
        let acronym := upper (strip g) in
        if acronym_length_ok acronym then dict_set acronym topic acronym_dict
        else acronym_dict
    | None => acronym_dict
    end in
  let words := split topic in
  let capital_words :=
    filter (fun w => first_is_upper w && negb (is_empty w) && sall is_alpha w)
           words in
  if (2 <=? List.length capital_words)%nat then
    let generated := upper (join "" (map first_char capital_words)) in
    if acronym_length_ok generated then dict_set generated topic acronym_dict
    else acronym_dict
  else acronym_dict.

(** text_utils.extract_acronyms_from_topics; a module is given by its list
    of topic phrases. *)
Definition extract_acronyms_from_topics (selected_modules : list (list string))
  : acronym_map :=
  fold_left (fun d topics => fold_left add_topic_acronyms topics d)
            selected_modules [].

(** text_utils.expand_acronyms *)
Definition expand_acronyms (text : string) (acronym_dict : acronym_map)
  : string :=
  let words := split text in
  join " "
    (map (fun word =>
            let clean_word := upper (sfilter is_word word) in
            match dict_get clean_word acronym_dict with
            | Some full_form => word ++ " (" ++ full_form ++ ")"
            | None => word
            end)
         words).

(** The names of a module: each main topic followed by its sub-topics. *)
Definition topic_words (m : SyllabusModule) : list string :=
  flat_map (fun main => main_topic main :: sub_topics main) (main_topics m).

Definition extract_acronyms_from_enriched
  (selected_modules : list SyllabusModule) : acronym_map :=
  extract_acronyms_from_topics (map topic_words selected_modules).

(** *** Vocabulary of the statements *)

(** [m] is the greatest element of [l]. *)
Definition is_top_score (m : Q) (l : list Q) : Prop :=
  In m l /\ forall x, In x l -> x <= m.


(** The identity of a mapped topic. *)
Definition topic_key (t : ScoredTopic) : Z * string :=
  (st_module_id t, st_topic t).

(** Two lists with the same elements. *)
Definition same_set {A} (l l' : list A) : Prop :=
  forall x, In x l <-> In x l'.



(** *** The selectors and the pipeline, over an embedding oracle *)

Section Pipeline.

(** The sentence-embedding model on one text (unit-normalised vectors of
    a fixed length in the real model). *)
Variable model_encode : string -> list Q.

(** rapidfuzz's [fuzz.token_set_ratio], a number between 0 and 100. *)
Variable token_set_ratio : string -> string -> Q.

(** EmbeddingEngine.encode: a single string is a batch of one. *)
Definition encode (texts : list string) : M (list (list Q)) :=
  fun log => ((log ++ [texts])%list, inr (map model_encode texts)).

(** **** ModuleSelector *)

Record ModuleSelector := {
  module_ids : list Z;
  module_embeddings : list (list Q)
}.

Definition module_text (course_title : string) (m : SyllabusModule)
  : string :=
  let structured :=
    course_title ++ " " ++ module_name m ++ " " ++ join " " (topic_words m) in
  normalize_text structured.

(** ModuleSelector.__init__ *)
Definition ModuleSelector_init (selected_modules : list SyllabusModule)
  (course_title : string) : M ModuleSelector :=
  let module_texts := map (module_text course_title) selected_modules in
  let ids := map module_id selected_modules in
  embeddings <- encode module_texts ;;
  ret {| module_ids := ids; module_embeddings := embeddings |}.

Definition within_module_margin (top_score score : Q) : bool :=
  Qle_bool (top_score - MODULE_MARGIN) score.

(** The loop [for idx, score in enumerate(similarities)], from position
    [idx] on. *)
Fixpoint select_modules_loop (ids : list Z) (top_score : Q) (idx : nat)
  (similarities : list Q) : exn + list (Z * Q) :=
  match similarities with
  | [] => inr []
  | score :: rest =>
      if within_module_margin top_score score then
        match nth_error ids idx with
        | None => inl (IndexError "list index out of range")
        | Some id =>
            match select_modules_loop ids top_score (S idx) rest with
            | inr selected => inr ((id, score) :: selected)
            | inl e => inl e
            end
        end
      else select_modules_loop ids top_score (S idx) rest
  end.

Definition select_modules (self : ModuleSelector)
  (question_embedding : list Q) : exn + list (Z * Q) :=
  let similarities :=
    Num.mat_vec (module_embeddings self) question_embedding in
  match Num.np_max similarities with
  | None =>
      inl (ValueError "zero-size array to reduction operation maximum")
  | Some top_score =>
      select_modules_loop (module_ids self) top_score 0 similarities
  end.

(** **** TopicSelector *)

Record TopicMeta := {
  tm_module_id : Z;
  tm_topic : string;
  tm_sub_topics : list string
}.

Record TopicSelector := {
  topic_embeddings : list (list Q);
  topic_metadata : list TopicMeta;
  topic_token_sets : list (list string)
}.

Definition topic_text (main : MainTopic) : string :=
  main_topic main ++ " " ++ join " " (sub_topics main).

(** The (module, main topic) pairs in the order of the two nested loops
    of the constructor. *)
Definition topic_rows (selected_modules : list SyllabusModule)
  : list (Z * MainTopic) :=
  flat_map (fun m => map (fun main => (module_id m, main)) (main_topics m))
           selected_modules.

Definition meta_of_row (r : Z * MainTopic) : TopicMeta :=
  {| tm_module_id := fst r;
     tm_topic := main_topic (snd r);
     tm_sub_topics := sub_topics (snd r) |}.

(** TopicSelector.__init__ *)
Definition TopicSelector_init (selected_modules : list SyllabusModule)
  : M TopicSelector :=
  let rows := topic_rows selected_modules in
  let topic_texts := map (fun r => normalize_text (topic_text (snd r))) rows in
  let metadata := map meta_of_row rows in
  let token_sets := map (fun r => dedup (tokenize (topic_text (snd r)))) rows in
  embeddings <- encode topic_texts ;;
  ret {| topic_embeddings := embeddings;
         topic_metadata := metadata;
         topic_token_sets := token_sets |}.

Definition concept_score (topic_tokens question_tokens : list string) : Q :=
  match topic_tokens with
  | [] => 0
  | _ =>
      let overlap := filter (fun t => mem t question_tokens) topic_tokens in
      Num.of_nat (List.length overlap) / Num.of_nat (List.length topic_tokens)
  end.

Definition fuzzy_score (topic_tokens : list string) (question_text : string)
  : Q :=
  token_set_ratio (join " " topic_tokens) question_text / 100.

Definition final_score (semantic_score : Q) (topic_tokens : list string)
  (question_tokens : list string) (question_text : string) : Q :=
  SEMANTIC_WEIGHT * semantic_score
  + CONCEPT_WEIGHT * concept_score topic_tokens question_tokens
  + FUZZY_WEIGHT * fuzzy_score topic_tokens question_text.

Definition in_modules (id : Z) (allowed_modules : list Z) : bool :=
  existsb (Z.eqb id) allowed_modules.

Definition below_floor (semantic_score : Q) : bool :=
  negb (Qle_bool MIN_SEMANTIC_FLOOR semantic_score).

(** The scoring loop of [select_topics], from position [idx] on: the
    list [scored_topics] it appends to. *)
Fixpoint score_topics_loop (self : TopicSelector)
  (question_tokens : list string) (question_text : string)
  (allowed_modules : list Z) (idx : nat) (similarities : list Q)
  : exn + list ScoredTopic :=
  match similarities with
  | [] => inr []
  | semantic_score :: rest =>
      let continue :=
        score_topics_loop self question_tokens question_text
                          allowed_modules (S idx) rest in
      match nth_error (topic_metadata self) idx with
      | None => inl (IndexError "list index out of range")
      | Some meta =>
          if negb (in_modules (tm_module_id meta) allowed_modules)
          then continue
          else if below_floor semantic_score then continue
          else
            match nth_error (topic_token_sets self) idx with
            | None => inl (IndexError "list index out of range")
            | Some topic_tokens =>
                let final :=
                  final_score semantic_score topic_tokens
                              question_tokens question_text in
                match continue with
                | inr scored =>
                    inr ({| st_module_id := tm_module_id meta;
                            st_topic := tm_topic meta;
                            confidence := Num.round4 final;
                            allocated_marks := None |} :: scored)
                | inl e => inl e
                end
            end
      end
  end.

Definition score_topics (self : TopicSelector) (question_text : string)
  (question_embedding : list Q) (allowed_modules : list Z)
  : exn + list ScoredTopic :=
  let question_tokens := dedup (tokenize question_text) in
  let similarities :=
    Num.mat_vec (topic_embeddings self) question_embedding in
  score_topics_loop self question_tokens question_text allowed_modules
                    0 similarities.

(** [x] sorts strictly before [y] under [key=confidence, reverse=True]. *)
Definition higher_confidence (x y : ScoredTopic) : bool :=
  negb (Qle_bool (confidence x) (confidence y)).

Definition within_topic_margin (top_score : Q) (t : ScoredTopic) : bool :=
  Qle_bool (top_score - TOPIC_MARGIN) (confidence t).

(** What [select_topics] does with a non-empty [scored_topics]: sort,
    keep the margin band of the first entry, cut to the maximum. *)
Definition rank_topics (scored_topics : list ScoredTopic)
  : list ScoredTopic :=
  match sort_stable higher_confidence scored_topics with
  | [] => []
  | (top :: _) as sorted =>
      let top_score := confidence top in
      let selected := filter (within_topic_margin top_score) sorted in
      firstn MAX_TOPICS_PER_QUESTION selected
  end.

Definition select_topics (self : TopicSelector) (question_text : string)
  (question_embedding : list Q) (allowed_modules : list Z)
  : exn + list ScoredTopic :=
  match score_topics self question_text question_embedding
                     allowed_modules with
  | inl e => inl e
  | inr [] => inr []
  | inr scored_topics => inr (rank_topics scored_topics)
  end.

(** **** What the selectors compute, per module and per topic

    The similarity of every module to the question, in syllabus order:
    the entries of [np.dot(self.module_embeddings, question_embedding)]
    next to [self.module_ids]. *)
Definition module_scores (course_title : string)
  (question_embedding : list Q) (selected_modules : list SyllabusModule)
  : list (Z * Q) :=
  map (fun m =>
         (module_id m,
          Num.dot (model_encode (module_text course_title m))
                  question_embedding))
      selected_modules.

(** The semantic similarity, the token set and the blended score of one
    (module, main topic) row of the topic selector. *)
Definition row_semantic (question_embedding : list Q) (r : Z * MainTopic)
  : Q :=
  Num.dot (model_encode (normalize_text (topic_text (snd r))))
          question_embedding.

Definition row_tokens (r : Z * MainTopic) : list string :=
  dedup (tokenize (topic_text (snd r))).

Definition row_final (question_text : string) (question_embedding : list Q)
  (r : Z * MainTopic) : Q :=
  final_score (row_semantic question_embedding r) (row_tokens r)
              (dedup (tokenize question_text)) question_text.

(** The rows the scoring loop does not skip. *)
Definition row_survives (allowed_modules : list Z)
  (question_embedding : list Q) (r : Z * MainTopic) : bool :=
  in_modules (fst r) allowed_modules
  && negb (below_floor (row_semantic question_embedding r)).

Definition scored_row (question_text : string) (question_embedding : list Q)
  (r : Z * MainTopic) : ScoredTopic :=
  {| st_module_id := fst r;
     st_topic := main_topic (snd r);
     confidence := Num.round4 (row_final question_text question_embedding r);
     allocated_marks := None |}.

Definition surviving_rows (allowed_modules : list Z)
  (question_embedding : list Q) (selected_modules : list SyllabusModule)
  : list (Z * MainTopic) :=
  filter (row_survives allowed_modules question_embedding)
         (topic_rows selected_modules).

Definition candidates (question_text : string) (question_embedding : list Q)
  (allowed_modules : list Z) (selected_modules : list SyllabusModule)
  : list ScoredTopic :=
  map (scored_row question_text question_embedding)
      (surviving_rows allowed_modules question_embedding selected_modules).

(** The selector [ModuleSelector.__init__] returns for a module list. *)
Definition built_module_selector (selected_modules : list SyllabusModule)
  (course_title : string) : ModuleSelector :=
  {| module_ids := map module_id selected_modules;
     module_embeddings :=
       map model_encode (map (module_text course_title) selected_modules) |}.

(** The selector [TopicSelector.__init__] returns for a module list. *)
Definition built_topic_selector (selected_modules : list SyllabusModule)
  : TopicSelector :=
  let rows := topic_rows selected_modules in
  {| topic_embeddings :=
       map model_encode
           (map (fun r => normalize_text (topic_text (snd r))) rows);
     topic_metadata := map meta_of_row rows;
     topic_token_sets :=
       map (fun r => dedup (tokenize (topic_text (snd r)))) rows |}.

(** The scored topics within the topic margin of a top confidence [T]. *)
Definition topic_band (T : Q) (scored_topics : list ScoredTopic)
  : list ScoredTopic :=
  filter (within_topic_margin T) scored_topics.

(** [a] may stand before [b] in a list sorted by descending confidence. *)
Definition confidence_descends (a b : ScoredTopic) : Prop :=
  confidence b <= confidence a.

(** **** map_questions_to_topics *)

(** [encode(expanded_text)[0]] *)
Definition first_row (embeddings : list (list Q)) : exn + list Q :=
  match embeddings with
  | e :: _ => inr e
  | [] => inl (IndexError "index 0 is out of bounds")
  end.

Definition fallback_topic (top_module : Z) : ScoredTopic :=
  {| st_module_id := top_module;
     st_topic := FALLBACK_TOPIC;
     confidence := FALLBACK_CONFIDENCE;
     allocated_marks := None |}.

(** [if not selected_topics and selected_modules_scored: ...] *)
Definition with_fallback (selected_topics : list ScoredTopic)
  (selected_modules_scored : list (Z * Q)) : list ScoredTopic :=
  match selected_topics, selected_modules_scored with
  | [], m :: _ =>
      let top_module := fst m in
      [fallback_topic top_module]
  | _, _ => selected_topics
  end.

(** [t["allocated_marks"] = split_marks].  The dictionaries of
    [selected_topics] were created for this question alone, so updating
    them in place is the same as rebuilding them. *)
Definition set_allocated_marks (split_marks : Q) (t : ScoredTopic)
  : ScoredTopic :=
  {| st_module_id := st_module_id t;
     st_topic := st_topic t;
     confidence := confidence t;
     allocated_marks := Some split_marks |}.

Definition allocate_marks (q_marks : Q) (selected_topics : list ScoredTopic)
  : list ScoredTopic :=
  match selected_topics with
  | [] => selected_topics
  | _ =>
      let split_marks := q_marks / Num.of_nat (List.length selected_topics) in
      map (set_allocated_marks split_marks) selected_topics
  end.

(** The body of the loop over the questions. *)
Definition map_question (acronym_dict : acronym_map)
  (module_selector : ModuleSelector) (topic_selector : TopicSelector)
  (q : Question) : M MappedQuestion :=
  let original_text := text q in
  let cleaned_text := normalize_text original_text in
  let expanded_text := expand_acronyms cleaned_text acronym_dict in
  embeddings <- encode [expanded_text] ;;
  question_embedding <- lift (first_row embeddings) ;;
  selected_modules_scored <-
    lift (select_modules module_selector question_embedding) ;;
  let allowed_module_ids := map fst selected_modules_scored in
  selected_topics <-
    lift (select_topics topic_selector expanded_text question_embedding
                        allowed_module_ids) ;;
  let selected_topics := with_fallback selected_topics selected_modules_scored in
  let selected_topics := allocate_marks (marks q) selected_topics in
  ret {| mq_paper_name := paper_name q;
         mq_question_number := question_number q;
         mq_text := original_text;
         mq_marks := marks q;
         mapped_topics := selected_topics |}.

Definition map_questions_to_topics (questions : list Question)
  (selected_modules : list SyllabusModule) (course_title : string)
  : M (list MappedQuestion) :=
  let acronym_dict := extract_acronyms_from_enriched selected_modules in
  module_selector <- ModuleSelector_init selected_modules course_title ;;
  topic_selector <- TopicSelector_init selected_modules ;;
  for_each (map_question acronym_dict module_selector topic_selector)
           questions.

(** The text [map_questions_to_topics] embeds for a question, and its
    embedding. *)
Definition expanded_text (selected_modules : list SyllabusModule)
  (q : Question) : string :=
  expand_acronyms (normalize_text (text q))
                  (extract_acronyms_from_enriched selected_modules).

Definition question_vector (selected_modules : list SyllabusModule)
  (q : Question) : list Q :=
  model_encode (expanded_text selected_modules q).


(** **** The two callers that choose the module range *)

Definition in_range (start_module end_module : Z) (m : SyllabusModule)
  : bool :=
  (start_module <=? module_id m)%Z && (module_id m <=? end_module)%Z.

(** module_filter.filter_modules *)
Definition filter_modules (modules : list SyllabusModule)
  (start_module end_module : Z) : exn + list SyllabusModule :=
  let selected_modules := filter (in_range start_module end_module) modules in
  match selected_modules with
  | [] => inl (ValueError "No modules found in selected range.")
  | _ => inr selected_modules
  end.

(** backend/main.py, [run_analysis]: the selection of the modules and the
    mapping stage that follows it. *)
Definition run_analysis_mapping (enriched_modules : list SyllabusModule)
  (start_module end_module : Z) (questions : list Question)
  (course_code : string) : M (list MappedQuestion) :=
  let selected_modules :=
    filter (in_range start_module end_module) enriched_modules in
  map_questions_to_topics questions selected_modules course_code.

End Pipeline.

End TopicMapper.

(** ** analytics/canonical_engine.py *)

Module CanonicalEngine.

Local Open Scope string_scope.
Local Open Scope Q_scope.

Definition SIMILARITY_THRESHOLD : Q := 45 # 100.
Definition DISTANCE_THRESHOLD : Q := 1 - SIMILARITY_THRESHOLD.

(** An entry of [topic_questions[topic]]. *)
Record TopicQuestion := {
  tq_paper_name : string;
  tq_question_number : string;
  tq_text : string
}.

Record CanonicalGroup := {
  canonical_question : string;
  occurrences : nat;
  references : list string
}.

(** Sequencing for computations that may raise but call no oracle. *)
Definition and_then {A B} (r : exn + A) (k : A -> exn + B) : exn + B :=
  match r with
  | inr a => k a
  | inl e => inl e
  end.

Notation "x <-? r ;; k" := (and_then r (fun x => k))
  (at level 61, r at next level, right associativity).

(** [l[i]] for a non-negative index. *)
Definition item {A} (l : list A) (i : nat) : exn + A :=
  match nth_error l i with
  | Some a => inr a
  | None => inl (IndexError "list index out of range")
  end.

(** A list comprehension whose element expression may raise. *)
Fixpoint collect {A B} (f : A -> exn + B) (l : list A) : exn + list B :=
  match l with
  | [] => inr []
  | a :: l' =>
      b <-? f a ;;
      bs <-? collect f l' ;;
      inr (b :: bs)
  end.

Definition enumerate {A} (l : list A) : list (nat * A) :=
  combine (seq 0 (List.length l)) l.

(** [np.argmin]: the first position of the minimum, scanning from
    position [i] with the best value so far at [best_i]. *)
Fixpoint argmin_from (best_i : nat) (best : Q) (i : nat) (l : list Q) : nat :=
  match l with
  | [] => best_i
  | x :: l' =>
      if negb (Qle_bool best x)
      then argmin_from i x (S i) l'
      else argmin_from best_i best (S i) l'
  end.

Definition argmin (l : list Q) : exn + nat :=
  match l with
  | [] => inl (ValueError "attempt to get argmin of an empty sequence")
  | x :: l' => inr (argmin_from 0 x 1 l')
  end.

(** [v], at position [k], is the least value of [l] and its first
    occurrence. *)
Definition first_minimum (l : list Q) (k : nat) (v : Q) : Prop :=
  nth_error l k = Some v /\
  (forall j x, nth_error l j = Some x -> v <= x) /\
  (forall j x, (j < k)%nat -> nth_error l j = Some x -> v < x).

(** [defaultdict(list)] keyed by cluster label, in insertion order. *)
Fixpoint add_to_group (label idx : nat) (groups : list (nat * list nat))
  : list (nat * list nat) :=
  match groups with
  | [] => [(label, [idx])]
  | (l, members) :: groups' =>
      if (l =? label)%nat then (l, (members ++ [idx])%list) :: groups'
      else (l, members) :: add_to_group label idx groups'
  end.

Definition group_by_label (labels : list nat) : list (list nat) :=
  map snd
      (fold_left (fun groups p => add_to_group (snd p) (fst p) groups)
                 (enumerate labels) []).

(** [defaultdict(list)] keyed by topic name, in insertion order. *)
Fixpoint add_to_topic (topic : string) (e : TopicQuestion)
  (d : list (string * list TopicQuestion)) : list (string * list TopicQuestion) :=
  match d with
  | [] => [(topic, [e])]
  | (k, es) :: d' =>
      if String.eqb k topic then (k, (es ++ [e])%list) :: d'
      else (k, es) :: add_to_topic topic e d'
  end.

Definition topic_entry (q : MappedQuestion) : TopicQuestion :=
  {| tq_paper_name := mq_paper_name q;
     tq_question_number := mq_question_number q;
     tq_text := mq_text q |}.

(** Step 1 of [compute_canonical_questions]. *)
Definition organize_by_topic (mapped_results : list MappedQuestion)
  : list (string * list TopicQuestion) :=
  fold_left
    (fun d q =>
       fold_left
         (fun d t =>
            let topic := st_topic t in
            if String.eqb topic TopicMapper.FALLBACK_TOPIC then d
            else add_to_topic topic (topic_entry q) d)
         (mapped_topics q) d)
    mapped_results [].

Definition reference_of (q : TopicQuestion) : string :=
  tq_paper_name q ++ " - " ++ tq_question_number q.

(** [sorted(references)] *)
Definition sorted_strings (l : list string) : list string :=
  sort_stable String.ltb l.

(** [canonical_groups.sort(key=lambda x: x["occurrences"], reverse=True)] *)
Definition more_occurrences (x y : CanonicalGroup) : bool :=
  (occurrences y <? occurrences x)%nat.

Section Engine.

Variable model_encode : string -> list Q.

(** scikit-learn's cosine distance between two rows. *)
Variable cosine_distance : list Q -> list Q -> Q.

(** [AgglomerativeClustering(n_clusters=None, metric="precomputed",
    linkage="average", distance_threshold=d).fit_predict(dist_matrix)]:
    one label per row. *)
Variable fit_predict : Q -> list (list Q) -> list nat.

(** [pairwise_distances(X, metric="cosine")]; scikit-learn sets the
    diagonal to zero. *)
Definition pairwise_distances (X : list (list Q)) : list (list Q) :=
  map (fun ix =>
         map (fun jy =>
                if (fst ix =? fst jy)%nat then 0
                else cosine_distance (snd ix) (snd jy))
             (enumerate X))
      (enumerate X).

(** The sum of the cosine distances from member [i] of [X] to every
    other member of [X]. *)
Definition distance_to_others (X : list (list Q)) (i : nat) : Q :=
  match nth_error X i with
  | Some x =>
      Num.qsum
        (map (fun jy => cosine_distance x (snd jy))
             (filter (fun jy => negb (i =? fst jy)%nat) (enumerate X)))
  | None => 0
  end.

Definition find_medoid (cluster_indices : list nat)
  (embeddings : list (list Q)) : exn + nat :=
  cluster_embeddings <-? collect (item embeddings) cluster_indices ;;
  let dist_matrix := pairwise_distances cluster_embeddings in
  let sum_distances := map Num.qsum dist_matrix in
  medoid_idx_relative <-? argmin sum_distances ;;
  item cluster_indices medoid_idx_relative.

Definition cluster_questions_within_topic
  (question_entries : list TopicQuestion)
  : M (list (list nat) * list (list Q)) :=
  let texts := map tq_text question_entries in
  embeddings <- TopicMapper.encode model_encode texts ;;
  if (List.length question_entries <? 2)%nat then ret ([[0%nat]], embeddings)
  else
    let dist_matrix := pairwise_distances embeddings in
    let labels := fit_predict DISTANCE_THRESHOLD dist_matrix in
    ret (group_by_label labels, embeddings).

(** One iteration of the loop over the clusters, for a cluster that is
    kept. *)
Definition canonical_group (questions : list TopicQuestion)
  (embeddings : list (list Q)) (cluster_indices : list nat)
  : exn + CanonicalGroup :=
  medoid_idx <-? find_medoid cluster_indices embeddings ;;
  medoid <-? item questions medoid_idx ;;
  let representative := tq_text medoid in
  refs <-? collect (fun i => q <-? item questions i ;; inr (reference_of q))
                   cluster_indices ;;
  inr {| canonical_question := representative;
         occurrences := List.length cluster_indices;
         references := sorted_strings refs |}.

(** The loop over the clusters of one topic. *)
Fixpoint canonical_groups (questions : list TopicQuestion)
  (embeddings : list (list Q)) (clusters : list (list nat))
  : exn + list CanonicalGroup :=
  match clusters with
  | [] => inr []
  | cluster_indices :: rest =>
      if (List.length cluster_indices <? 2)%nat
      then canonical_groups questions embeddings rest
      else
        g <-? canonical_group questions embeddings cluster_indices ;;
        gs <-? canonical_groups questions embeddings rest ;;
        inr (g :: gs)
  end.

(** One iteration of the loop over the topics: the entry added to
    [canonical_output], if any. *)
Definition canonical_for_topic (entry : string * list TopicQuestion)
  : M (option (string * list CanonicalGroup)) :=
  let topic := fst entry in
  let questions := snd entry in
  if (List.length questions <? 2)%nat then ret None
  else
    r <- cluster_questions_within_topic questions ;;
    groups <- lift (canonical_groups questions (snd r) (fst r)) ;;
    match groups with
    | [] => ret None
    | _ => ret (Some (topic, sort_stable more_occurrences groups))
    end.

Definition present {A} (o : option A) : list A :=
  match o with
  | Some a => [a]
  | None => []
  end.

(** The returned [canonical_output]; the JSON file written on the way is
    not modelled. *)
Definition compute_canonical_questions (mapped_results : list MappedQuestion)
  : M (list (string * list CanonicalGroup)) :=
  let topic_questions := organize_by_topic mapped_results in
  added <- for_each canonical_for_topic topic_questions ;;
  ret (flat_map present added).

End Engine.

End CanonicalEngine.

(** ** Stub oracles and small syllabi used in the examples *)

Module Fixtures.

Import TopicMapper.
Local Open Scope string_scope.
Local Open Scope Q_scope.

(** A fixed-output oracle: every text has the same one-dimensional unit
    vector. *)
Definition constant_oracle (_ : string) : list Q := [1].

(** An oracle given by a finite table of texts. *)
Definition table_oracle (table : list (string * list Q)) (default : list Q)
  (s : string) : list Q :=
  match find (fun p => String.eqb (fst p) s) table with
  | Some p => snd p
  | None => default
  end.

(** A stand-in for rapidfuzz's [token_set_ratio]; like the library it
    answers 0 when one of the strings is empty. *)
Definition ratio_stub (a b : string) : Q :=
  if Text.is_empty a || Text.is_empty b then 0 else 100.

Definition topic (name : string) : MainTopic :=
  {| main_topic := name; sub_topics := [] |}.

(** Two modules whose only topics have no scoring tokens. *)
Definition hardware : SyllabusModule :=
  {| module_id := 1; module_name := "Hardware"; main_topics := [topic "IO"] |}.

Definition software : SyllabusModule :=
  {| module_id := 2; module_name := "Software"; main_topics := [topic "OS"] |}.

Definition pipelining : Question :=
  {| paper_name := "2023.json"; question_number := "1";
     text := "Explain pipelining."; marks := 10 |}.

(** Unit vectors in dimension 4: the question is the first axis, so the
    similarity of a text is the first coordinate of its vector: 0.50 for
    the hardware module, 0.54 for the software module and 0.10 for both
    topics. *)
Definition fallback_oracle : string -> list Q :=
  table_oracle
    [ ("cs101 hardware io", [1 # 2; 1 # 2; 1 # 2; 1 # 2]);
      ("cs101 software os", [27 # 50; 41 # 50; 9 # 50; 3 # 50]);
      ("io", [1 # 10; 9 # 10; 3 # 10; 3 # 10]);
      ("os", [1 # 10; 9 # 10; 3 # 10; 3 # 10]);
      ("explain pipelining.", [1; 0; 0; 0]) ]
    [0; 0; 0; 1].

(** One module with two topics; unit vectors in dimension 3 with
    similarities 0.8 and 165/223 (about 0.73991) to the question. *)
Definition systems : SyllabusModule :=
  {| module_id := 1; module_name := "Systems";
     main_topics := [topic "IO"; topic "OS"] |}.

Definition rounding_oracle : string -> list Q :=
  table_oracle
    [ ("io", [4 # 5; 0; 3 # 5]);
      ("os", [165 # 223; 2 # 223; 150 # 223]);
      ("explain pipelining.", [1; 0; 0]) ]
    [0; 1; 0].



(** The selectors a run builds, read off the result of the constructors. *)
Definition built {A} (m : M A) : option A :=
  match snd (m []) with
  | inr a => Some a
  | inl _ => None
  end.


Definition label (p : list Q) : Z :=
  match p with
  | x :: _ => Qnum x
  | [] => 0%Z
  end.


(** Two mapped questions on the same topic, and a distance stub that
    puts any two rows 0.1 apart. *)
Definition adder_topic : ScoredTopic :=
  {| st_module_id := 1; st_topic := "Adders"; confidence := 50 # 100;
     allocated_marks := Some 10 |}.

Definition adder_questions : list MappedQuestion :=
  [ {| mq_paper_name := "2022.json"; mq_question_number := "3";
       mq_text := "Explain the working of a half adder circuit";
       mq_marks := 10; mapped_topics := [adder_topic] |};
    {| mq_paper_name := "2023.json"; mq_question_number := "5";
       mq_text := "Describe the working principle of a half adder";
       mq_marks := 10; mapped_topics := [adder_topic] |} ].

Definition flat_distance (_ _ : list Q) : Q := 10 # 100.

(** A clustering stub that puts every row in cluster 0. *)
Definition one_cluster (_ : Q) (dist_matrix : list (list Q)) : list nat :=
  map (fun _ => 0%nat) dist_matrix.

End Fixtures.
From Stdlib Require DecimalString.

(** ** analytics/module_filter.py: the console dialogue *)

Module ModuleFilter.

Local Open Scope string_scope.
Local Open Scope Z_scope.

(** [str(n)] for an integer. *)
Definition str_of_int (n : Z) : string :=
  DecimalString.NilZero.string_of_int (Z.to_int n).

(** module_filter.get_module_range.  The two lines read from the console
    are given as what [int(line.strip())] makes of them, [None] when it
    raises [ValueError]; the prompts are not modelled. *)
Definition get_module_range (max_valid_module : Z)
  (start_line end_line : option Z) : exn + (Z * Z) :=
  match start_line, end_line with
  | Some start_module, Some end_module =>
      if start_module <? 1 then
        inl (ValueError "Start module must be >= 1.")
      else if end_module >? max_valid_module then
        inl (ValueError ("End module must be <= "
                         ++ str_of_int max_valid_module ++ "."))
      else if start_module >? end_module then
        inl (ValueError "Start module cannot be greater than End module.")
      else inr (start_module, end_module)
  | _, _ => inl (ValueError "Module numbers must be integers.")
  end.

End ModuleFilter.

(** ** analytics/exam_filter.py *)

Module ExamFilter.

Local Open Scope Z_scope.

Section Filter.

(** The function reads three keys only: [q["mapped_topics"]],
    [t["module_id"]], which is an integer or [None], and it builds
    [{**q, "mapped_topics": topics}]. *)
Context {Result Topic : Type}.
Variable get_topics : Result -> list Topic.
Variable with_topics : Result -> list Topic -> Result.
Variable get_module_id : Topic -> option Z.

(** One iteration of the loop over the topics of a question, on the pair
    [(in_range_topics, out_range_topics)]. *)
Definition sort_topic (start_module end_module : Z)
  (acc : list Topic * list Topic) (t : Topic) : list Topic * list Topic :=
  match get_module_id t with
  | None => acc
  | Some module_id =>
      if (start_module <=? module_id) && (module_id <=? end_module)
      then ((fst acc ++ [t])%list, snd acc)
      else (fst acc, (snd acc ++ [t])%list)
  end.

(** One iteration of the loop over the questions, on the pair
    [(filtered_results, out_of_range_results)]. *)
Definition filter_step (start_module end_module : Z)
  (acc : list Result * list Result) (q : Result)
  : list Result * list Result :=
  let topics :=
    fold_left (sort_topic start_module end_module) (get_topics q) ([], []) in
  match fst topics, snd topics with
  | _ :: _, _ => ((fst acc ++ [with_topics q (fst topics)])%list, snd acc)
  | [], _ :: _ => (fst acc, (snd acc ++ [q])%list)
  | [], [] => acc
  end.

Definition filter_mapped_results_by_range (mapped_results : list Result)
  (start_module end_module : Z) : list Result * list Result :=
  fold_left (filter_step start_module end_module) mapped_results ([], []).

(** *** Vocabulary of the statements *)

Definition topic_in_range (start_module end_module : Z) (t : Topic) : bool :=
  match get_module_id t with
  | Some module_id => (start_module <=? module_id) && (module_id <=? end_module)
  | None => false
  end.

Definition topic_out_of_range (start_module end_module : Z) (t : Topic)
  : bool :=
  match get_module_id t with
  | Some module_id =>
      negb ((start_module <=? module_id) && (module_id <=? end_module))
  | None => false
  end.

(** The record kept for a question, if any. *)
Definition kept (start_module end_module : Z) (q : Result) : list Result :=
  match filter (topic_in_range start_module end_module) (get_topics q) with
  | [] => []
  | topics => [with_topics q topics]
  end.

(** The question has topics with a module, none of them in range. *)
Definition wholly_out_of_range (start_module end_module : Z) (q : Result)
  : bool :=
  negb (existsb (topic_in_range start_module end_module) (get_topics q))
  && existsb (topic_out_of_range start_module end_module) (get_topics q).

End Filter.



End ExamFilter.


(** ** analytics/importance_engine.py *)

Module ImportanceEngine.

Import TopicMapper.
Local Open Scope string_scope.
Local Open Scope Q_scope.

(** analytics/config.py *)
Definition FREQ_WEIGHT : Q := 6 # 10.
Definition MARK_WEIGHT : Q := 4 # 10.

(** [round(x, 2)] *)
Definition round2 (x : Q) : Q := Num.round_half_even (x * 100) # 100.

Section Defaultdict.

Context {K V : Type}.
Variable eqb : K -> K -> bool.
Variable default : V.

(** [d[key] = f(d[key])] on a [defaultdict] with keys in insertion
    order: a missing key is created with the default value first. *)
Fixpoint update_at (key : K) (f : V -> V) (d : list (K * V)) : list (K * V) :=
  match d with
  | [] => [(key, f default)]
  | (k, v) :: d' =>
      if eqb k key then (k, f v) :: d' else (k, v) :: update_at key f d'
  end.

(** The value under [key], the default for a missing key. *)
Definition value_at (key : K) (d : list (K * V)) : V :=
  match find (fun kv => eqb (fst kv) key) d with
  | Some kv => snd kv
  | None => default
  end.

End Defaultdict.

(** The value of [module_topic_stats[module_id][topic]]. *)
Record TopicStats := {
  frequency : nat;
  total_marks : Q;
  questions : list string
}.

Definition no_stats : TopicStats :=
  {| frequency := 0; total_marks := 0; questions := [] |}.

Definition ModuleStats := list (string * TopicStats).

Record RankedTopic := {
  rt_topic : string;
  rt_frequency : nat;
  rt_total_marks : Q;
  importance_score : Q;
  evidence : list string
}.

(** The exceptions of this module: a missing key of a mapped topic, and
    those of [exn]. *)
Inductive error : Type :=
| KeyError (key : string)
| Raised (e : exn).

(** A loop over [l] that updates a state and stops at the first
    exception. *)
Fixpoint fold_until {A S : Type} (f : A -> S -> error + S) (l : list A)
  (s : S) : error + S :=
  match l with
  | [] => inr s
  | a :: l' =>
      match f a s with
      | inl e => inl e
      | inr s' => fold_until f l' s'
      end
  end.

(** [f"{q['paper_name']} - {q['question_number']}"] *)
Definition q_id (q : MappedQuestion) : string :=
  mq_paper_name q ++ " - " ++ mq_question_number q.

(** The three updates of [module_topic_stats[module_id][topic]]. *)
Definition count (allocated : Q) (q_id : string) (s : TopicStats)
  : TopicStats :=
  {| frequency := S (frequency s);
     total_marks := total_marks s + allocated;
     questions := (questions s ++ [q_id])%list |}.

(** One iteration of the loop over the mapped topics of a question.  The
    entry is created, and its frequency raised, before
    [t["allocated_marks"]] is read; the partial update is lost with the
    exception. *)
Definition record_mapping (q_id : string) (t : ScoredTopic)
  (stats : list (Z * ModuleStats)) : error + list (Z * ModuleStats) :=
  let module_id := st_module_id t in
  let topic := st_topic t in
  if String.eqb topic FALLBACK_TOPIC then inr stats
  else
    match allocated_marks t with
    | None => inl (KeyError "allocated_marks")
    | Some allocated =>
        inr (update_at Z.eqb [] module_id
                       (update_at String.eqb no_stats topic
                                  (count allocated q_id))
                       stats)
    end.

(** The first loop: the raw counts. *)
Definition aggregate (mapped_results : list MappedQuestion)
  : error + list (Z * ModuleStats) :=
  fold_until
    (fun q stats => fold_until (record_mapping (q_id q)) (mapped_topics q)
                               stats)
    mapped_results [].

(** [max] of a non-empty sequence: its first greatest element. *)
Definition max_of {A : Type} (less : A -> A -> bool) (l : list A)
  : error + A :=
  match l with
  | [] => inl (Raised (ValueError "max() arg is an empty sequence"))
  | x :: l' => inr (fold_left (fun m y => if less m y then y else m) l' x)
  end.

Definition q_less (x y : Q) : bool := negb (Qle_bool y x).

Definition rank_topic (max_freq : nat) (max_marks : Q)
  (entry : string * TopicStats) : RankedTopic :=
  let topic := fst entry in
  let stats := snd entry in
  let normalized_freq :=
    if (0 <? max_freq)%nat
    then Num.of_nat (frequency stats) / Num.of_nat max_freq else 0 in
  let normalized_marks :=
    if q_less 0 max_marks then total_marks stats / max_marks else 0 in
  let importance_score :=
    FREQ_WEIGHT * normalized_freq + MARK_WEIGHT * normalized_marks in
  {| rt_topic := topic;
     rt_frequency := frequency stats;
     rt_total_marks := round2 (total_marks stats);
     importance_score := Num.round4 importance_score;
     evidence := questions stats |}.

(** [x] sorts strictly before [y] under
    [key=importance_score, reverse=True]. *)
Definition more_important (x y : RankedTopic) : bool :=
  q_less (importance_score y) (importance_score x).

(** One iteration of the second loop. *)
Definition rank_module (entry : Z * ModuleStats)
  : error + (Z * list RankedTopic) :=
  let module_id := fst entry in
  let topics := snd entry in
  match max_of Nat.ltb (map (fun e => frequency (snd e)) topics) with
  | inl e => inl e
  | inr max_freq =>
      match max_of q_less (map (fun e => total_marks (snd e)) topics) with
      | inl e => inl e
      | inr max_marks =>
          let ranked_topics := map (rank_topic max_freq max_marks) topics in
          inr (module_id, sort_stable more_important ranked_topics)
      end
  end.

Fixpoint for_all {A B : Type} (f : A -> error + B) (l : list A)
  : error + list B :=
  match l with
  | [] => inr []
  | a :: l' =>
      match f a with
      | inl e => inl e
      | inr b =>
          match for_all f l' with
          | inl e => inl e
          | inr bs => inr (b :: bs)
          end
      end
  end.

(** The returned [importance_output]; the JSON file written on the way is
    not modelled. *)
Definition compute_topic_importance (mapped_results : list MappedQuestion)
  : error + list (Z * list RankedTopic) :=
  match aggregate mapped_results with
  | inl e => inl e
  | inr module_topic_stats => for_all rank_module module_topic_stats
  end.

(** *** Vocabulary of the statements *)

(** Every pair of a question label and a mapped topic, in loop order. *)
Definition all_mentions (mapped_results : list MappedQuestion)
  : list (string * ScoredTopic) :=
  flat_map (fun q => map (fun t => (q_id q, t)) (mapped_topics q))
           mapped_results.

(** The mappings to topic [topic] of module [module_id]. *)
Definition mentions_of (module_id : Z) (topic : string)
  (mapped_results : list MappedQuestion) : list (string * ScoredTopic) :=
  filter (fun p => (st_module_id (snd p) =? module_id)%Z
                   && String.eqb (st_topic (snd p)) topic)
         (all_mentions mapped_results).

Definition marks_or_zero (t : ScoredTopic) : Q :=
  match allocated_marks t with
  | Some a => a
  | None => 0
  end.

(** The marks of a list of mappings, added up from 0 in order. *)
Definition marks_of (mentions : list (string * ScoredTopic)) : Q :=
  fold_left (fun acc p => acc + marks_or_zero (snd p)) mentions 0.

Definition importance_descends (x y : RankedTopic) : Prop :=
  importance_score y <= importance_score x.

(** The mappings the first loop counts: all but the fallback ones. *)
Definition is_counted (p : string * ScoredTopic) : bool :=
  negb (String.eqb (st_topic (snd p)) FALLBACK_TOPIC).

Definition counted_mentions (mapped_results : list MappedQuestion)
  : list (string * ScoredTopic) :=
  filter is_counted (all_mentions mapped_results).

(** The statistics after one more counted mapping. *)
Definition counted (stats : list (Z * ModuleStats))
  (p : string * ScoredTopic) : list (Z * ModuleStats) :=
  update_at Z.eqb [] (st_module_id (snd p))
            (update_at String.eqb no_stats (st_topic (snd p))
                       (count (marks_or_zero (snd p)) (fst p)))
            stats.

Definition is_mention_of (module_id : Z) (topic : string)
  (p : string * ScoredTopic) : bool :=
  (st_module_id (snd p) =? module_id)%Z && String.eqb (st_topic (snd p)) topic.

(** No two modules, no module without a topic, no topic twice in a
    module, no fallback topic and no topic that was never counted. *)
Definition well_formed_stats (stats : list (Z * ModuleStats)) : Prop :=
  NoDup (map fst stats) /\
  Forall (fun e =>
            snd e <> [] /\ NoDup (map fst (snd e)) /\
            Forall (fun ts => fst ts <> FALLBACK_TOPIC /\
                              (1 <= frequency (snd ts))%nat)
                   (snd e))
         stats.

End ImportanceEngine.

(** ** More vocabulary for the statements about the pipeline *)

Module PipelineSpec.

Import Text TopicMapper.
Local Open Scope string_scope.
Local Open Scope Q_scope.

(** The batches [map_questions_to_topics] sends to the oracle when it gets
    as far as the questions [questions]: the module texts, the topic
    texts, then each question on its own. *)
Definition expected_calls (selected_modules : list SyllabusModule)
  (course_title : string) (questions : list Question) : oracle_log :=
  ([ map (module_text course_title) selected_modules;
     map (fun r => normalize_text (topic_text (snd r)))
         (topic_rows selected_modules) ]
   ++ map (fun q => [expanded_text selected_modules q]) questions)%list.

(** The record [r] is the question [q] with some mapped topics. *)
Definition same_question (q : Question) (r : MappedQuestion) : Prop :=
  mq_paper_name r = paper_name q /\
  mq_question_number r = question_number q /\
  mq_text r = text q /\
  mq_marks r = marks q.

Definition is_ok {A} (r : exn + A) : Prop :=
  match r with
  | inr _ => True
  | inl _ => False
  end.

(** The acronym a topic phrase spells out in parentheses, and the one
    made of the initials of its capitalised words, when they have between
    two and six characters: the two keys [extract_acronyms_from_topics]
    sets for the topic. *)
Definition explicit_acronym (topic : string) : option string :=
  match paren_group topic with
  | Some g =>
      let acronym := upper (strip g) in
      if acronym_length_ok acronym then Some acronym else None
  | None => None
  end.

Definition generated_acronym (topic : string) : option string :=
  let capital_words :=
    filter (fun w => first_is_upper w && negb (is_empty w) && sall is_alpha w)
           (split topic) in
  if (2 <=? List.length capital_words)%nat then
    let generated := upper (join "" (map first_char capital_words)) in
    if acronym_length_ok generated then Some generated else None
  else None.

Definition is_key (k : string) (o : option string) : bool :=
  match o with
  | Some a => String.eqb k a
  | None => false
  end.

(** [k] is one of the acronyms of the topic phrase. *)
Definition has_acronym (k : string) (topic : string) : bool :=
  is_key k (explicit_acronym topic) || is_key k (generated_acronym topic).

(** The last element of a list that satisfies [p]. *)
Definition find_last {A} (p : A -> bool) (l : list A) : option A :=
  find p (rev l).

(** [acronym_dict[k] = topic] when the topic has the acronym [k]. *)
Definition set_key (o : option string) (topic : string) (d : acronym_map)
  : acronym_map :=
  match o with
  | Some k => dict_set k topic d
  | None => d
  end.

(** What [expand_acronyms] makes of one word, given the topics in the
    order [extract_acronyms_from_topics] read them. *)
Definition expanded_word (topics : list string) (word : string) : string :=
  match find_last (has_acronym (upper (sfilter is_word word))) topics with
  | Some full_form => word ++ " (" ++ full_form ++ ")"
  | None => word
  end.

End PipelineSpec.

(** ** Vocabulary for the statements about the canonical engine *)

Module CanonicalSpec.

Import TopicMapper CanonicalEngine.
Local Open Scope string_scope.

Section Defaultdict.

Context {K V : Type}.
Variable eqb : K -> K -> bool.

(** [d[key].append(v)] on a [defaultdict(list)] whose keys are kept in
    insertion order. *)
Fixpoint append_to (key : K) (v : V) (d : list (K * list V))
  : list (K * list V) :=
  match d with
  | [] => [(key, [v])]
  | (k, vs) :: d' =>
      if eqb k key then (k, (vs ++ [v])%list) :: d'
      else (k, vs) :: append_to key v d'
  end.

(** The dictionary after the appends [ps], in order. *)
Definition appended (ps : list (K * V)) (d : list (K * list V))
  : list (K * list V) :=
  fold_left (fun d p => append_to (fst p) (snd p) d) ps d.

(** [d[key]], the empty list for an absent key. *)
Definition values_at (key : K) (d : list (K * list V)) : list V :=
  match find (fun kv => eqb (fst kv) key) d with
  | Some kv => snd kv
  | None => []
  end.

(** The values that [ps] appends under [key], in order. *)
Definition values_of (key : K) (ps : list (K * V)) : list V :=
  map snd (filter (fun p => eqb (fst p) key) ps).

End Defaultdict.

(** No key twice and no empty list: what a [defaultdict(list)] that is
    only appended to looks like. *)
Definition well_keyed {K V : Type} (d : list (K * list V)) : Prop :=
  NoDup (map fst d) /\ Forall (fun kv => snd kv <> []) d.

(** The positions that carry the label [l], in increasing order. *)
Definition label_class (labels : list nat) (l : nat) : list nat :=
  map fst (filter (fun p => (snd p =? l)%nat) (enumerate labels)).

(** Every pair of a topic name and a question that names it, in the order
    the loops of [compute_canonical_questions] meet them. *)
Definition topic_mentions (mapped_results : list MappedQuestion)
  : list (string * TopicQuestion) :=
  flat_map (fun q => map (fun t => (st_topic t, topic_entry q))
                         (mapped_topics q))
           mapped_results.

(** The questions mapped to [topic], once per mapping. *)
Definition questions_of (topic : string)
  (mapped_results : list MappedQuestion) : list TopicQuestion :=
  values_of String.eqb topic (topic_mentions mapped_results).

(** The batches [compute_canonical_questions] sends to the oracle when it
    gets through the topics [entries]: the raw texts of each topic that
    has two questions or more. *)
Definition clustering_calls (entries : list (string * list TopicQuestion))
  : oracle_log :=
  map (fun e => map tq_text (snd e))
      (filter (fun e => negb (List.length (snd e) <? 2)%nat) entries).

Definition string_le (a b : string) : Prop := String.ltb b a = false.

Definition occurrences_descend (x y : CanonicalGroup) : Prop :=
  (occurrences y <= occurrences x)%nat.

End CanonicalSpec.

(** ** Vocabulary for the statements about text *)

Module TextSpec.

Import Text.
Local Open Scope string_scope.

Definition head_char (s : string) : option ascii :=
  match s with
  | String c _ => Some c
  | EmptyString => None
  end.

(** The character is there and is whitespace. *)
Definition blank (o : option ascii) : bool :=
  match o with
  | Some c => is_space c
  | None => false
  end.

(** No two whitespace characters in a row. *)
Definition spaced_once (s : string) : Prop :=
  forall a c d b,
    s = a ++ String c (String d b) -> is_space c && is_space d = false.

(** Whitespace is the space character only. *)
Definition space_or_visible (c : ascii) : bool :=
  negb (is_space c) || (code c =? 32)%nat.

End TextSpec.

(** ** One more concrete input *)

Module MoreFixtures.

Local Open Scope string_scope.
Local Open Scope Q_scope.

(** The question of the fixture [pipelining] as another paper prints
    it. *)
Definition pipelining_again : Question :=
  {| paper_name := "2024.json"; question_number := "4";
     text := "Explain  Pipelining."; marks := 5 |}.

End MoreFixtures.


(** * Properties *)

Unset Implicit Arguments.

(** ** The monad *)

Lemma bind_ok {A B} (m : M A) (k : A -> M B) log log' a :
  m log = (log', inr a) -> bind m k log = k a log'.
Proof. intros H. unfold bind. now rewrite H. Qed.

Lemma bind_inv {A B} (m : M A) (k : A -> M B) log log' b :
  bind m k log = (log', inr b) ->
  exists mid a, m log = (mid, inr a) /\ k a mid = (log', inr b).
Proof.
  unfold bind. destruct (m log) as [mid [e | a]]; intros H.
  - discriminate.
  - now exists mid, a.
Qed.

Section MonadFacts.

Context {A B : Type}.

(** A loop that ended normally ran its body, normally, on every
    element. *)
Lemma for_each_inv (f : A -> M B) l :
  forall log log' out,
    for_each f l log = (log', inr out) ->
    Forall2 (fun a b => exists l1 l2, f a l1 = (l2, inr b)) l out.
Proof.
  induction l as [| a l IH]; intros log log' out H; simpl in H.
  - inversion H. constructor.
  - apply bind_inv in H. destruct H as (mid & b & Hb & H).
    apply bind_inv in H. destruct H as (mid' & bs & Hbs & H).
    inversion H; subst. constructor.
    + now exists log, mid.
    + eapply IH; eauto.
Qed.

(** A loop whose body never raises ends normally. *)
Lemma for_each_total (f : A -> M B) (P : A -> B -> Prop) l :
  (forall a log, In a l -> exists log' b, f a log = (log', inr b) /\ P a b) ->
  forall log, exists log' out,
    for_each f l log = (log', inr out) /\ Forall2 P l out.
Proof.
  induction l as [| a l IH]; intros Hf log; simpl.
  - exists log, []. split; [reflexivity | constructor].
  - destruct (Hf a log (or_introl eq_refl)) as (mid & b & Hb & HP).
    destruct (IH (fun a' lg Hin => Hf a' lg (or_intror Hin)) mid)
      as (log' & bs & Hbs & HF).
    exists log', (b :: bs). split.
    + erewrite bind_ok by exact Hb. erewrite bind_ok by exact Hbs.
      reflexivity.
    + now constructor.
Qed.

End MonadFacts.

(** ** Maxima and sums of rationals *)

Module NumFacts.

Import Num TopicMapper.
Local Open Scope Q_scope.

Lemma qmax_cases x y : qmax x y = x \/ qmax x y = y.
Proof. unfold qmax. destruct (Qle_bool x y); auto. Qed.

Lemma qmax_ge_l x y : x <= qmax x y.
Proof.
  unfold qmax. destruct (Qle_bool x y) eqn:E.
  - now apply Qle_bool_iff.
  - apply Qle_refl.
Qed.

Lemma qmax_ge_r x y : y <= qmax x y.
Proof.
  unfold qmax. destruct (Qle_bool x y) eqn:E.
  - apply Qle_refl.
  - apply Qlt_le_weak, Qnot_le_lt. intros H.
    apply Qle_bool_iff in H. congruence.
Qed.

Lemma fold_qmax_ge_init l : forall x, x <= fold_left qmax l x.
Proof.
  induction l as [| y l IH]; intros x; simpl.
  - apply Qle_refl.
  - eapply Qle_trans; [apply (qmax_ge_l x y) | apply IH].
Qed.

Lemma fold_qmax_upper l : forall x y, In y l -> y <= fold_left qmax l x.
Proof.
  induction l as [| z l IH]; intros x y Hin; simpl.
  - contradiction.
  - destruct Hin as [-> | Hin].
    + eapply Qle_trans; [apply (qmax_ge_r x y) | apply fold_qmax_ge_init].
    + now apply IH.
Qed.

Lemma fold_qmax_in l : forall x,
  fold_left qmax l x = x \/ In (fold_left qmax l x) l.
Proof.
  induction l as [| y l IH]; intros x; simpl.
  - now left.
  - destruct (IH (qmax x y)) as [E | Hin].
    + rewrite E. destruct (qmax_cases x y) as [-> | ->]; auto.
    + auto.
Qed.

Lemma np_max_top l m : np_max l = Some m -> is_top_score m l.
Proof.
  destruct l as [| x l]; simpl; intros H; inversion H; subst; clear H.
  split.
  - destruct (fold_qmax_in l x) as [-> | Hin]; [now left | now right].
  - intros y [<- | Hin].
    + apply fold_qmax_ge_init.
    + now apply fold_qmax_upper.
Qed.

Lemma np_max_some l : l <> [] -> exists m, np_max l = Some m.
Proof. destruct l; [congruence | intros _; simpl; eauto]. Qed.

(** Two greatest elements of lists with the same elements are equal. *)
Lemma is_top_score_unique m m' l l' :
  same_set l l' -> is_top_score m l -> is_top_score m' l' -> m == m'.
Proof.
  intros Hs [Hin Hle] [Hin' Hle'].
  apply Qle_antisym.
  - apply Hle', Hs, Hin.
  - apply Hle, Hs, Hin'.
Qed.


Lemma of_nat_pos n : (0 < n)%nat -> 0 < of_nat n.
Proof.
  intros H. unfold of_nat, Qlt. simpl. lia.
Qed.

End NumFacts.

(** ** Lists: permutations, filters and sorted prefixes *)

Section ListFacts.

Context {A : Type}.


Lemma firstn_incl n (l : list A) x : In x (firstn n l) -> In x l.
Proof.
  intros H. rewrite <- (firstn_skipn n l). apply in_or_app. now left.
Qed.

Variable R : A -> A -> Prop.

Lemma StronglySorted_filter (f : A -> bool) l :
  StronglySorted R l -> StronglySorted R (filter f l).
Proof.
  induction 1 as [| x l _ IH Hx]; simpl.
  - constructor.
  - destruct (f x); [| exact IH].
    constructor; [exact IH |].
    rewrite Forall_forall in *. intros y Hy.
    apply filter_In in Hy. now apply Hx.
Qed.

Lemma StronglySorted_firstn n l :
  StronglySorted R l -> StronglySorted R (firstn n l).
Proof.
  intros H. revert n.
  induction H as [| x l _ IH Hx]; intros [| n]; simpl; try constructor.
  - apply IH.
  - rewrite Forall_forall in *. intros y Hy.
    apply Hx. eapply firstn_incl; eauto.
Qed.


Lemma StronglySorted_weaken (R' : A -> A -> Prop) l :
  (forall a b, R a b -> R' a b) ->
  StronglySorted R l -> StronglySorted R' l.
Proof.
  intros Himp. induction 1 as [| x l _ IH Hx]; constructor.
  - exact IH.
  - eapply Forall_impl; [| exact Hx]. intros b. apply Himp.
Qed.

End ListFacts.

(** ** The stable sort *)

Section StableSortFacts.

Context {A : Type}.
Variable better : A -> A -> bool.

Lemma insert_stable_perm x l :
  Permutation (insert_stable better x l) (x :: l).
Proof.
  induction l as [| y l IH]; simpl.
  - apply Permutation_refl.
  - destruct (better y x).
    + rewrite IH. apply perm_swap.
    + apply Permutation_refl.
Qed.

Lemma sort_stable_perm l : Permutation (sort_stable better l) l.
Proof.
  induction l as [| x l IH]; simpl.
  - constructor.
  - rewrite insert_stable_perm. now constructor.
Qed.

(** [better] is the strict part of a total preorder. *)
Hypothesis better_asym : forall x y, better y x = true -> better x y = false.
Hypothesis not_better_trans :
  forall a b c, better b a = false -> better c b = false -> better c a = false.

Lemma insert_stable_sorted x l :
  StronglySorted (fun a b => better b a = false) l ->
  StronglySorted (fun a b => better b a = false) (insert_stable better x l).
Proof.
  induction 1 as [| y l Hs IH Hy]; simpl.
  - constructor; constructor.
  - destruct (better y x) eqn:E.
    + constructor; [exact IH |].
      eapply Permutation_Forall.
      * symmetry. apply insert_stable_perm.
      * constructor; [now apply better_asym | exact Hy].
    + constructor.
      * now constructor.
      * constructor; [exact E |].
        eapply Forall_impl; [| exact Hy].
        intros z Hz. simpl in Hz. eapply not_better_trans; eauto.
Qed.

Lemma sort_stable_sorted l :
  StronglySorted (fun a b => better b a = false) (sort_stable better l).
Proof.
  induction l as [| x l IH]; simpl.
  - constructor.
  - now apply insert_stable_sorted.
Qed.

End StableSortFacts.

(** ** The module selector *)

Module TopicMapperFacts.

Import Text Num TopicMapper NumFacts.
Local Open Scope Q_scope.

Section SelectorFacts.

Variable model_encode : string -> list Q.
Variable token_set_ratio : string -> string -> Q.

(** The constructor makes one oracle call and never raises. *)
Lemma ModuleSelector_init_run mods title log :
  ModuleSelector_init model_encode mods title log =
  ((log ++ [map (module_text title) mods])%list,
   inr (built_module_selector model_encode mods title)).
Proof. reflexivity. Qed.

(** With one id per similarity, the loop never indexes out of range and
    is a filter over the paired lists. *)
Lemma select_modules_loop_combine top sims :
  forall pre ids,
    List.length ids = List.length sims ->
    select_modules_loop (pre ++ ids) top (List.length pre) sims =
    inr (filter (fun p => within_module_margin top (snd p))
                (combine ids sims)).
Proof.
  induction sims as [| s sims IH]; intros pre ids Hlen.
  - destruct ids; reflexivity.
  - destruct ids as [| id ids]; [discriminate |].
    injection Hlen as Hlen.
    assert (Hnext :
              select_modules_loop (pre ++ id :: ids) top
                                  (S (List.length pre)) sims =
              inr (filter (fun p => within_module_margin top (snd p))
                          (combine ids sims))).
    { specialize (IH (pre ++ [id])%list ids Hlen).
      rewrite <- app_assoc, length_app in IH. simpl in IH.
      now rewrite Nat.add_1_r in IH. }
    simpl. rewrite Hnext.
    destruct (within_module_margin top s); [| reflexivity].
    rewrite nth_error_app2 by lia. rewrite Nat.sub_diag. reflexivity.
Qed.

Lemma combine_map_pair {X Y Z'} (f : X -> Y) (g : X -> Z') (l : list X) :
  combine (map f l) (map g l) = map (fun x => (f x, g x)) l.
Proof. induction l; simpl; congruence. Qed.

Lemma built_module_scores mods title q :
  combine (map module_id mods)
          (mat_vec (map model_encode (map (module_text title) mods)) q)
  = module_scores model_encode title q mods.
Proof.
  unfold mat_vec, module_scores. rewrite !map_map.
  apply combine_map_pair.
Qed.

Lemma built_module_similarities mods title q :
  mat_vec (map model_encode (map (module_text title) mods)) q
  = map snd (module_scores model_encode title q mods).
Proof. unfold mat_vec, module_scores. now rewrite !map_map. Qed.

(** What [select_modules] returns on the selector built from a
    non-empty module list. *)
Lemma select_modules_built mods title q :
  mods <> [] ->
  exists S,
    is_top_score S (map snd (module_scores model_encode title q mods)) /\
    select_modules (built_module_selector model_encode mods title) q
    = inr (filter (fun p => within_module_margin S (snd p))
                  (module_scores model_encode title q mods)).
Proof.
  intros Hne. unfold select_modules, built_module_selector.
  cbn [module_embeddings module_ids].
  rewrite built_module_similarities.
  destruct (np_max_some (map snd (module_scores model_encode title q mods)))
    as [S HS].
  { destruct mods; [congruence | discriminate]. }
  exists S. split; [now apply np_max_top |].
  rewrite HS.
  rewrite (select_modules_loop_combine S _ [] (map module_id mods)).
  - rewrite <- built_module_similarities, built_module_scores. reflexivity.
  - unfold module_scores. now rewrite !length_map.
Qed.

(** On an empty module list [np.max] raises. *)
Lemma select_modules_empty title q :
  select_modules (built_module_selector model_encode [] title) q
  = inl (ValueError "zero-size array to reduction operation maximum").
Proof. reflexivity. Qed.

(** The best module is always within the margin of itself. *)
Lemma top_within_module_margin S : within_module_margin S S = true.
Proof.
  unfold within_module_margin, MODULE_MARGIN. apply Qle_bool_iff.
  rewrite <- (Qplus_0_r S) at 2. unfold Qminus.
  apply Qplus_le_r. discriminate.
Qed.

(** C3.  On a non-empty module list [select_modules] returns, in syllabus
    order, exactly the modules whose similarity [s] satisfies
    [S - MODULE_MARGIN <= s], where [S] is the greatest similarity, each
    with its raw similarity.  A module at exactly [S - MODULE_MARGIN] is
    returned; one at [S - MODULE_MARGIN - eps] with [eps > 0] is not. *)
Theorem select_modules_margin_band mods title q log :
  mods <> [] ->
  exists ms S sel,
    snd (ModuleSelector_init model_encode mods title log) = inr ms /\
    select_modules ms q = inr sel /\
    is_top_score S (map snd (module_scores model_encode title q mods)) /\
    sel = filter (fun p => Qle_bool (S - MODULE_MARGIN) (snd p))
                 (module_scores model_encode title q mods) /\
    (forall p, In p sel <->
               In p (module_scores model_encode title q mods) /\
               S - MODULE_MARGIN <= snd p) /\
    (forall p, In p (module_scores model_encode title q mods) ->
               snd p == S - (5 # 100) -> In p sel) /\
    (forall p eps, In p (module_scores model_encode title q mods) ->
                   0 < eps -> snd p == S - (5 # 100) - eps -> ~ In p sel).
Proof.
  intros Hne.
  destruct (select_modules_built mods title q Hne) as (S & Htop & Hsel).
  eexists _, S, _. rewrite ModuleSelector_init_run. simpl.
  split; [reflexivity |]. split; [exact Hsel |]. split; [exact Htop |].
  split; [reflexivity |].
  assert (Hin : forall p,
             In p (filter (fun p => within_module_margin S (snd p))
                          (module_scores model_encode title q mods)) <->
             In p (module_scores model_encode title q mods) /\
             S - MODULE_MARGIN <= snd p).
  { intros p. rewrite filter_In. unfold within_module_margin.
    now rewrite Qle_bool_iff. }
  split; [exact Hin |]. split.
  - intros p Hp Heq. apply Hin. split; [exact Hp |].
    rewrite Heq. apply Qle_refl.
  - intros p eps Hp Heps Heq Hsel'. apply Hin in Hsel'.
    destruct Hsel' as [_ Hle]. rewrite Heq in Hle.
    unfold MODULE_MARGIN in Hle.
    apply (Qlt_irrefl (S - (5 # 100))).
    eapply Qle_lt_trans; [exact Hle |].
    rewrite <- (Qplus_0_r (S - (5 # 100))) at 2.
    unfold Qminus at 1. apply Qplus_lt_r.
    apply (Qopp_lt_compat 0 eps) in Heps. exact Heps.
Qed.

(** ** The topic selector *)

(** The constructor makes one oracle call and never raises. *)
Lemma TopicSelector_init_run mods log :
  TopicSelector_init model_encode mods log =
  ((log ++ [map (fun r => normalize_text (topic_text (snd r)))
                (topic_rows mods)])%list,
   inr (built_topic_selector model_encode mods)).
Proof. reflexivity. Qed.

(** With one metadata record and one token set per similarity, the scoring
    loop never indexes out of range: it scores the surviving rows. *)
Lemma score_topics_loop_rows embs qtext q allowed rows :
  forall pre,
    score_topics_loop token_set_ratio
      {| topic_embeddings := embs;
         topic_metadata := map meta_of_row (pre ++ rows);
         topic_token_sets :=
           map (fun r => dedup (tokenize (topic_text (snd r)))) (pre ++ rows) |}
      (dedup (tokenize qtext)) qtext allowed (List.length pre)
      (map (row_semantic model_encode q) rows)
    = inr (map (scored_row model_encode token_set_ratio qtext q)
               (filter (row_survives model_encode allowed q) rows)).
Proof.
  induction rows as [| r rows IH]; intros pre.
  - reflexivity.
  - assert (Hnext := IH (pre ++ [r])%list).
    rewrite <- app_assoc, length_app in Hnext. simpl in Hnext.
    rewrite Nat.add_1_r in Hnext.
    change (map (row_semantic model_encode q) (r :: rows))
      with (row_semantic model_encode q r
              :: map (row_semantic model_encode q) rows).
    cbn [score_topics_loop]. cbv zeta. rewrite Hnext.
    cbn [topic_metadata topic_token_sets].
    rewrite !nth_error_map, !nth_error_app2 by lia.
    rewrite Nat.sub_diag. cbn [nth_error option_map].
    assert (Hsurv : row_survives model_encode allowed q r =
                    in_modules (fst r) allowed
                    && negb (below_floor (row_semantic model_encode q r)))
      by reflexivity.
    cbn [filter]. rewrite Hsurv.
    change (tm_module_id (meta_of_row r)) with (fst r).
    destruct (in_modules (fst r) allowed); cbn [negb andb]; [| reflexivity].
    destruct (below_floor (row_semantic model_encode q r));
      cbn [negb]; reflexivity.
Qed.

Lemma score_topics_built mods qtext q allowed :
  score_topics token_set_ratio (built_topic_selector model_encode mods) qtext q allowed
  = inr (candidates model_encode token_set_ratio qtext q allowed mods).
Proof.
  unfold score_topics, built_topic_selector. cbv zeta.
  cbn [topic_embeddings].
  unfold mat_vec. rewrite !map_map.
  apply (score_topics_loop_rows _ qtext q allowed (topic_rows mods) []).
Qed.

Lemma rank_topics_nil : rank_topics [] = [].
Proof. reflexivity. Qed.

Lemma select_topics_built mods qtext q allowed :
  select_topics token_set_ratio (built_topic_selector model_encode mods) qtext q allowed
  = inr (rank_topics
           (candidates model_encode token_set_ratio qtext q allowed mods)).
Proof.
  unfold select_topics. rewrite score_topics_built.
  now destruct (candidates _ _ _ _ _ _).
Qed.

(** ** Ranking the scored topics *)

Lemma higher_confidence_false a b :
  higher_confidence b a = false <-> confidence b <= confidence a.
Proof.
  unfold higher_confidence. rewrite negb_false_iff. apply Qle_bool_iff.
Qed.

Lemma higher_confidence_asym x y :
  higher_confidence y x = true -> higher_confidence x y = false.
Proof.
  unfold higher_confidence. rewrite negb_true_iff, negb_false_iff.
  intros H. apply Qle_bool_iff, Qlt_le_weak, Qnot_le_lt.
  intros Hle. apply Qle_bool_iff in Hle. congruence.
Qed.

Lemma higher_confidence_trans a b c :
  higher_confidence b a = false -> higher_confidence c b = false ->
  higher_confidence c a = false.
Proof.
  rewrite !higher_confidence_false. intros H1 H2.
  eapply Qle_trans; eauto.
Qed.

Lemma sorted_by_confidence l :
  StronglySorted confidence_descends (sort_stable higher_confidence l).
Proof.
  eapply StronglySorted_weaken.
  2: { apply sort_stable_sorted.
       - exact higher_confidence_asym.
       - exact higher_confidence_trans. }
  intros a b. apply higher_confidence_false.
Qed.

Lemma within_topic_margin_iff T t :
  within_topic_margin T t = true <-> T - TOPIC_MARGIN <= confidence t.
Proof. apply Qle_bool_iff. Qed.

Lemma within_topic_margin_compat T T' t :
  T == T' -> within_topic_margin T t = within_topic_margin T' t.
Proof.
  intros HT. apply eq_true_iff_eq. rewrite !within_topic_margin_iff.
  now rewrite HT.
Qed.

(** The first entry of the sorted list carries the greatest confidence. *)
Lemma sorted_head_is_top cands top rest :
  sort_stable higher_confidence cands = top :: rest ->
  is_top_score (confidence top) (map confidence cands).
Proof.
  intros Hs.
  assert (Hperm := sort_stable_perm higher_confidence cands).
  assert (Hsorted := sorted_by_confidence cands).
  rewrite Hs in Hperm, Hsorted. split.
  - apply in_map. eapply Permutation_in; [exact Hperm | now left].
  - intros x Hx. apply in_map_iff in Hx. destruct Hx as (c & <- & Hc).
    apply (Permutation_in _ (Permutation_sym Hperm)) in Hc.
    destruct Hc as [<- | Hc].
    + apply Qle_refl.
    + apply StronglySorted_inv in Hsorted. destruct Hsorted as [_ Hall].
      rewrite Forall_forall in Hall. now apply Hall.
Qed.

Lemma is_top_score_same T T' l :
  is_top_score T l -> is_top_score T' l -> T == T'.
Proof. apply is_top_score_unique. intros x. reflexivity. Qed.

(** [rank_topics] is the first [MAX_TOPICS_PER_QUESTION] entries of the
    margin band of the sorted list, for any top confidence [T]. *)
Lemma rank_topics_band cands T :
  is_top_score T (map confidence cands) ->
  rank_topics cands =
  firstn MAX_TOPICS_PER_QUESTION
         (topic_band T (sort_stable higher_confidence cands)).
Proof.
  intros HT. unfold rank_topics, topic_band.
  destruct (sort_stable higher_confidence cands) as [| top rest] eqn:Hs.
  - reflexivity.
  - f_equal. apply filter_ext. intros t.
    apply within_topic_margin_compat.
    eapply is_top_score_same; [| exact HT].
    eapply sorted_head_is_top; eauto.
Qed.

Lemma candidates_have_top cands :
  cands <> [] -> exists T, is_top_score T (map confidence cands).
Proof.
  intros Hne.
  destruct (sort_stable higher_confidence cands) as [| top rest] eqn:Hs.
  - assert (Hperm := sort_stable_perm higher_confidence cands).
    rewrite Hs in Hperm. apply Permutation_nil in Hperm. congruence.
  - exists (confidence top). eapply sorted_head_is_top; eauto.
Qed.

Lemma rank_topics_sorted cands :
  StronglySorted confidence_descends (rank_topics cands).
Proof.
  unfold rank_topics.
  destruct (sort_stable higher_confidence cands) as [| top rest] eqn:Hs.
  - constructor.
  - apply StronglySorted_firstn, StronglySorted_filter.
    rewrite <- Hs. apply sorted_by_confidence.
Qed.

Lemma rank_topics_length cands :
  (List.length (rank_topics cands) <= MAX_TOPICS_PER_QUESTION)%nat.
Proof.
  unfold rank_topics.
  destruct (sort_stable higher_confidence cands) as [| top rest].
  - simpl. lia.
  - apply firstn_le_length.
Qed.

(** Every ranked entry is a candidate within the band. *)
Lemma rank_topics_sound cands T t :
  is_top_score T (map confidence cands) ->
  In t (rank_topics cands) ->
  In t cands /\ T - TOPIC_MARGIN <= confidence t.
Proof.
  intros HT Hin. rewrite (rank_topics_band cands T HT) in Hin.
  apply firstn_incl in Hin. apply filter_In in Hin.
  destruct Hin as [Hin Hband]. split.
  - eapply Permutation_in; [apply sort_stable_perm | exact Hin].
  - now apply within_topic_margin_iff.
Qed.



Lemma in_modules_In id allowed : in_modules id allowed = true <-> In id allowed.
Proof.
  unfold in_modules. rewrite existsb_exists. split.
  - intros (x & Hx & E). apply Z.eqb_eq in E. now subst.
  - intros H. exists id. split; [exact H | apply Z.eqb_refl].
Qed.

Lemma row_survives_iff allowed q r :
  row_survives model_encode allowed q r = true <->
  In (fst r) allowed /\ MIN_SEMANTIC_FLOOR <= row_semantic model_encode q r.
Proof.
  unfold row_survives, below_floor.
  rewrite andb_true_iff, negb_involutive, in_modules_In, Qle_bool_iff.
  reflexivity.
Qed.

Lemma surviving_rows_In allowed q mods r :
  In r (surviving_rows model_encode allowed q mods) <->
  In r (topic_rows mods) /\ In (fst r) allowed /\
  MIN_SEMANTIC_FLOOR <= row_semantic model_encode q r.
Proof.
  unfold surviving_rows. rewrite filter_In, row_survives_iff. reflexivity.
Qed.





(** ** The pipeline *)

Lemma allocate_marks_length m ts :
  List.length (allocate_marks m ts) = List.length ts.
Proof. destruct ts; [reflexivity |]. unfold allocate_marks. apply length_map. Qed.

Lemma allocate_marks_keys m ts :
  map topic_key (allocate_marks m ts) = map topic_key ts.
Proof.
  destruct ts as [| t ts]; [reflexivity |]. unfold allocate_marks.
  rewrite map_map. reflexivity.
Qed.


(** Whatever the selectors, a question that is mapped keeps its marks and
    gets its topics from the allocation. *)
Lemma map_question_inv acr ms ts q log log' r :
  map_question model_encode token_set_ratio acr ms ts q log = (log', inr r) ->
  mq_marks r = marks q /\
  exists topics, mapped_topics r = allocate_marks (marks q) topics.
Proof.
  unfold map_question, bind, encode, lift, ret. simpl.
  destruct (select_modules ms _) as [e | sel_mods]; [discriminate |].
  destruct (select_topics _ ts _ _ _) as [e | sel]; [discriminate |].
  intros H. inversion H; subst; clear H. simpl. split; [reflexivity |].
  eauto.
Qed.

(** On a non-empty module list the best module is selected. *)
Lemma select_modules_nonempty mods title q :
  mods <> [] ->
  exists sel,
    select_modules (built_module_selector model_encode mods title) q = inr sel
    /\ sel <> [].
Proof.
  intros Hne.
  destruct (select_modules_built mods title q Hne) as (S & [Hin _] & Hsel).
  eexists. split; [exact Hsel |].
  apply in_map_iff in Hin. destruct Hin as (p & Hp & Hin).
  assert (Hkept : In p (filter (fun p => within_module_margin S (snd p))
                               (module_scores model_encode title q mods))).
  { apply filter_In. split; [exact Hin |].
    rewrite Hp. apply top_within_module_margin. }
  intros E. rewrite E in Hkept. contradiction.
Qed.



(** One iteration of the loop on the selectors built from a non-empty
    module list: one oracle call, no exception. *)
Lemma map_question_built mods title q log :
  mods <> [] ->
  exists sel_mods selected,
    select_modules (built_module_selector model_encode mods title)
                   (question_vector model_encode mods q) = inr sel_mods /\
    sel_mods <> [] /\
    select_topics token_set_ratio (built_topic_selector model_encode mods)
                  (expanded_text mods q) (question_vector model_encode mods q)
                  (map fst sel_mods) = inr selected /\
    map_question model_encode token_set_ratio
                 (extract_acronyms_from_enriched mods)
                 (built_module_selector model_encode mods title)
                 (built_topic_selector model_encode mods) q log
    = ((log ++ [[expanded_text mods q]])%list,
       inr {| mq_paper_name := paper_name q;
              mq_question_number := question_number q;
              mq_text := text q;
              mq_marks := marks q;
              mapped_topics :=
                allocate_marks (marks q) (with_fallback selected sel_mods) |}).
Proof.
  intros Hne.
  destruct (select_modules_nonempty mods title
              (question_vector model_encode mods q) Hne)
    as (sel_mods & Hsel & Hnonempty).
  exists sel_mods. eexists. split; [exact Hsel |]. split; [exact Hnonempty |].
  split; [apply select_topics_built |].
  unfold map_question, bind, encode, lift, ret. cbn [map first_row].
  fold (expanded_text mods q). fold (question_vector model_encode mods q).
  rewrite Hsel, select_topics_built. reflexivity.
Qed.




(** What the fallback does in general: when [select_topics] returns
    nothing, the single entry names the first selected module in syllabus
    order, whatever the scores, and carries all the marks. *)
Lemma fallback_names_head_of_selection ms ts acr q log m sel_mods :
  select_modules ms
    (model_encode (expand_acronyms (normalize_text (text q)) acr))
  = inr (m :: sel_mods) ->
  select_topics token_set_ratio ts
    (expand_acronyms (normalize_text (text q)) acr)
    (model_encode (expand_acronyms (normalize_text (text q)) acr))
    (map fst (m :: sel_mods))
  = inr [] ->
  snd (map_question model_encode token_set_ratio acr ms ts q log)
  = inr {| mq_paper_name := paper_name q;
           mq_question_number := question_number q;
           mq_text := text q;
           mq_marks := marks q;
           mapped_topics :=
             [ {| st_module_id := fst m;
                  st_topic := FALLBACK_TOPIC;
                  confidence := FALLBACK_CONFIDENCE;
                  allocated_marks := Some (marks q / 1) |} ] |}.
Proof.
  intros Hmods Htopics.
  unfold map_question, bind, encode, lift, ret. cbn [map first_row].
  rewrite Hmods, Htopics. reflexivity.
Qed.

(** With no module selected, the two constructors still call the oracle,
    each on an empty batch; the run then returns the empty list when there
    is no question, and otherwise embeds the first question before
    [select_modules] raises. *)
Lemma map_questions_to_topics_no_modules questions title log :
  map_questions_to_topics model_encode token_set_ratio questions [] title log
  = match questions with
    | [] => ((log ++ [[]; []])%list, inr [])
    | q :: _ =>
        ((log ++ [[]; []; [expanded_text [] q]])%list,
         inl (ValueError "zero-size array to reduction operation maximum"))
    end.
Proof.
  unfold map_questions_to_topics, bind at 1.
  rewrite ModuleSelector_init_run. unfold bind at 1.
  rewrite TopicSelector_init_run. cbn [map topic_rows flat_map].
  rewrite <- !app_assoc. cbn [app].
  destruct questions as [| q questions]; [reflexivity |].
  cbn [for_each]. unfold bind at 1. unfold map_question at 1.
  unfold bind, encode, lift, ret. cbn [map first_row].
  rewrite select_modules_empty. rewrite <- app_assoc. reflexivity.
Qed.

(** [filter_modules] raises exactly when no module is in the range. *)
Lemma filter_modules_raises modules start_module end_module :
  filter_modules modules start_module end_module
  = inl (ValueError "No modules found in selected range.")
  <-> filter (in_range start_module end_module) modules = [].
Proof.
  unfold filter_modules.
  destruct (filter (in_range start_module end_module) modules);
    split; intros H; try reflexivity; discriminate.
Qed.

(** ** Reordering the syllabus *)











End SelectorFacts.

(** ** The statements at concrete inputs *)

Import Fixtures.
Local Open Scope string_scope.

(** C3 on two modules with similarities 0.50 and 0.54. *)
Lemma select_modules_margin_band_witness :
  [hardware; software] <> [] /\
  exists ms S sel,
    snd (ModuleSelector_init fallback_oracle [hardware; software] "CS101" [])
    = inr ms /\
    select_modules ms [1; 0; 0; 0] = inr sel /\
    is_top_score S
      (map snd (module_scores fallback_oracle "CS101" [1; 0; 0; 0]
                              [hardware; software])) /\
    sel = filter (fun p => Qle_bool (S - MODULE_MARGIN) (snd p))
                 (module_scores fallback_oracle "CS101" [1; 0; 0; 0]
                                [hardware; software]) /\
    (forall p, In p sel <->
               In p (module_scores fallback_oracle "CS101" [1; 0; 0; 0]
                                   [hardware; software]) /\
               S - MODULE_MARGIN <= snd p) /\
    (forall p, In p (module_scores fallback_oracle "CS101" [1; 0; 0; 0]
                                   [hardware; software]) ->
               snd p == S - (5 # 100) -> In p sel) /\
    (forall p eps, In p (module_scores fallback_oracle "CS101" [1; 0; 0; 0]
                                       [hardware; software]) ->
                   0 < eps -> snd p == S - (5 # 100) - eps -> ~ In p sel).
Proof.
  split; [discriminate |].
  apply (select_modules_margin_band fallback_oracle
           [hardware; software] "CS101" [1; 0; 0; 0] []).
  discriminate.
Defined.









(** C2, at a concrete input.  Both modules are selected, the second with
    the higher similarity (0.54 against 0.50); no topic reaches the floor;
    the fallback entry names module 1, the first selected module, and
    carries the full marks. *)
Example fallback_names_first_selected_module :
  exists s1 s2,
    select_modules
      (built_module_selector fallback_oracle [hardware; software] "CS101")
      (question_vector fallback_oracle [hardware; software] pipelining)
    = inr [(1%Z, s1); (2%Z, s2)] /\
    s1 == 50 # 100 /\ s2 == 54 # 100 /\ s1 < s2 /\
    select_topics ratio_stub
      (built_topic_selector fallback_oracle [hardware; software])
      (expanded_text [hardware; software] pipelining)
      (question_vector fallback_oracle [hardware; software] pipelining)
      [1%Z; 2%Z]
    = inr [] /\
    map_questions_to_topics fallback_oracle ratio_stub [pipelining]
                            [hardware; software] "CS101" []
    = ([["cs101 hardware io"; "cs101 software os"]; ["io"; "os"];
        ["explain pipelining."]],
       inr [ {| mq_paper_name := "2023.json";
                mq_question_number := "1";
                mq_text := "Explain pipelining.";
                mq_marks := 10;
                mapped_topics :=
                  [ {| st_module_id := 1;
                       st_topic := "Module-Level Fallback";
                       confidence := 30 # 100;
                       allocated_marks := Some (10 / 1) |} ] |} ]).
Proof.
  eexists _, _. split; [vm_compute; reflexivity |].
  repeat split; vm_compute; reflexivity.
Qed.

(** C9, at a concrete input.  No module lies in the range 5..6.
    [filter_modules] raises at once, but the selection of [run_analysis]
    does not: the mapping stage calls the oracle three times (twice on an
    empty batch, once on the question) before [np.max] raises, and with no
    question to map it returns normally. *)
Example empty_selection_reaches_the_oracle :
  filter_modules [hardware; software] 5 6
  = inl (ValueError "No modules found in selected range.") /\
  run_analysis_mapping constant_oracle ratio_stub [hardware; software] 5 6
                       [pipelining] "CS101" []
  = ([[]; []; ["explain pipelining."]],
     inl (ValueError "zero-size array to reduction operation maximum")) /\
  run_analysis_mapping constant_oracle ratio_stub [hardware; software] 5 6
                       [] "CS101" []
  = ([[]; []], inr []).
Proof. repeat split. Qed.

End TopicMapperFacts.

(** ** The canonical clustering engine *)

Module CanonicalEngineFacts.

Import Num TopicMapper CanonicalEngine NumFacts.
Local Open Scope Q_scope.

Lemma and_then_inv {A B} (r : exn + A) (k : A -> exn + B) b :
  and_then r k = inr b -> exists a, r = inr a /\ k a = inr b.
Proof. destruct r as [e | a]; simpl; [discriminate | eauto]. Qed.

Lemma item_inv {A} (l : list A) i a :
  item l i = inr a <-> nth_error l i = Some a.
Proof.
  unfold item. destruct (nth_error l i); split; intros H;
    inversion H; reflexivity.
Qed.

Lemma collect_length {A B} (f : A -> exn + B) l :
  forall out, collect f l = inr out -> List.length out = List.length l.
Proof.
  induction l as [| a l IH]; simpl; intros out H.
  - inversion H. reflexivity.
  - apply and_then_inv in H. destruct H as (b & _ & H).
    apply and_then_inv in H. destruct H as (bs & Hbs & H).
    inversion H; subst. simpl. f_equal. now apply IH.
Qed.

Lemma collect_nth {A B} (f : A -> exn + B) l :
  forall out i a,
    collect f l = inr out -> nth_error l i = Some a ->
    exists b, f a = inr b /\ nth_error out i = Some b.
Proof.
  induction l as [| a0 l IH]; simpl; intros out i a H Hi.
  - destruct i; discriminate.
  - apply and_then_inv in H. destruct H as (b & Hb & H).
    apply and_then_inv in H. destruct H as (bs & Hbs & H).
    inversion H; subst. destruct i as [| i]; simpl in *.
    + inversion Hi; subst. eauto.
    + eapply IH; eauto.
Qed.

(** *** [np.argmin] *)

Lemma argmin_from_spec l :
  forall pre best_i best,
    first_minimum pre best_i best ->
    exists v,
      first_minimum (pre ++ l)
                    (argmin_from best_i best (List.length pre) l) v.
Proof.
  induction l as [| x l IH]; intros pre best_i best Hmin.
  - simpl. rewrite app_nil_r. eauto.
  - simpl. destruct Hmin as (Hbest & Hle & Hlt).
    assert (Hi : (best_i < List.length pre)%nat)
      by (apply nth_error_Some; congruence).
    replace (pre ++ x :: l)%list with ((pre ++ [x]) ++ l)%list
      by (now rewrite <- app_assoc).
    replace (S (List.length pre)) with (List.length (pre ++ [x]))
      by (rewrite length_app; simpl; lia).
    destruct (Qle_bool best x) eqn:E; cbn [negb]; apply IH.
    + apply Qle_bool_iff in E. repeat split.
      * rewrite nth_error_app1 by exact Hi. exact Hbest.
      * intros j y Hy.
        destruct (Nat.lt_ge_cases j (List.length pre)) as [Hj | Hj].
        -- rewrite nth_error_app1 in Hy by exact Hj. eauto.
        -- rewrite nth_error_app2 in Hy by exact Hj.
           destruct (j - List.length pre)%nat as [| n]; simpl in Hy.
           ++ inversion Hy; subst. exact E.
           ++ destruct n; discriminate.
      * intros j y Hj Hy.
        rewrite nth_error_app1 in Hy by lia. eauto.
    + assert (Hx : x < best).
      { apply Qnot_le_lt. intros H. apply Qle_bool_iff in H. congruence. }
      repeat split.
      * rewrite nth_error_app2 by lia. now rewrite Nat.sub_diag.
      * intros j y Hy.
        destruct (Nat.lt_ge_cases j (List.length pre)) as [Hj | Hj].
        -- rewrite nth_error_app1 in Hy by exact Hj.
           apply Qlt_le_weak. eapply Qlt_le_trans; [exact Hx | eauto].
        -- rewrite nth_error_app2 in Hy by exact Hj.
           destruct (j - List.length pre)%nat as [| n]; simpl in Hy.
           ++ inversion Hy; subst. apply Qle_refl.
           ++ destruct n; discriminate.
      * intros j y Hj Hy.
        rewrite nth_error_app1 in Hy by exact Hj.
        eapply Qlt_le_trans; [exact Hx | eauto].
Qed.

Lemma argmin_spec l :
  l <> [] -> exists k v, argmin l = inr k /\ first_minimum l k v.
Proof.
  destruct l as [| x l]; [congruence | intros _].
  destruct (argmin_from_spec l [x] 0%nat x) as (v & Hv).
  - repeat split.
    + intros j y Hy. destruct j as [| [| j]]; simpl in Hy;
        inversion Hy; subst. apply Qle_refl.
    + intros j y Hj. lia.
  - exists (argmin_from 0 x 1 l), v. split; [reflexivity | exact Hv].
Qed.

(** *** Distances and the medoid *)

Lemma enumerate_from_nth {A} (X : list A) :
  forall s i,
    nth_error (combine (seq s (List.length X)) X) i =
    option_map (fun x => ((s + i)%nat, x)) (nth_error X i).
Proof.
  induction X as [| x X IH]; intros s i.
  - destruct i; reflexivity.
  - destruct i as [| i]; simpl.
    + now rewrite Nat.add_0_r.
    + rewrite IH. now rewrite Nat.add_succ_r.
Qed.

Lemma enumerate_nth {A} (X : list A) i :
  nth_error (enumerate X) i = option_map (fun x => (i, x)) (nth_error X i).
Proof. unfold enumerate. now rewrite enumerate_from_nth. Qed.

Lemma enumerate_length {A} (X : list A) :
  List.length (enumerate X) = List.length X.
Proof.
  unfold enumerate. rewrite length_combine, length_seq. apply Nat.min_id.
Qed.

(** Summing a row with a zero on the diagonal is summing over the other
    columns. *)
Lemma qsum_skip_diagonal {A} (d : A -> Q) (i : nat) (L : list (nat * A)) :
  qsum (map (fun jy => if (i =? fst jy)%nat then 0 else d (snd jy)) L)
  == qsum (map (fun jy => d (snd jy))
               (filter (fun jy => negb (i =? fst jy)%nat) L)).
Proof.
  induction L as [| [j y] L IH]; simpl.
  - reflexivity.
  - destruct (i =? j)%nat; simpl; rewrite IH; ring.
Qed.

Section EngineFacts.

Variable model_encode : string -> list Q.
Variable cosine_distance : list Q -> list Q -> Q.
Variable fit_predict : Q -> list (list Q) -> list nat.

Lemma pairwise_distances_length X :
  List.length (map qsum (pairwise_distances cosine_distance X))
  = List.length X.
Proof.
  unfold pairwise_distances. now rewrite !length_map, enumerate_length.
Qed.

(** Row [i] of the distance matrix sums to the distance from member [i] to
    the other members. *)
Lemma row_sum_to_others X i s :
  nth_error (map qsum (pairwise_distances cosine_distance X)) i = Some s ->
  s == distance_to_others cosine_distance X i.
Proof.
  unfold pairwise_distances, distance_to_others.
  rewrite map_map, nth_error_map, enumerate_nth.
  destruct (nth_error X i) as [x |]; simpl; intros H; inversion H.
  apply qsum_skip_diagonal.
Qed.

Lemma collect_item_total {A} (l : list A) indices :
  Forall (fun i => (i < List.length l)%nat) indices ->
  exists out, collect (item l) indices = inr out.
Proof.
  induction 1 as [| i indices Hi _ (out & IH)]; simpl.
  - eauto.
  - unfold item at 1. apply nth_error_Some in Hi.
    destruct (nth_error l i) as [a |]; [| congruence].
    simpl. rewrite IH. simpl. eauto.
Qed.

(** [find_medoid] returns the first member whose distance to the other
    members is least. *)
Lemma find_medoid_spec cluster embs members :
  cluster <> [] ->
  collect (item embs) cluster = inr members ->
  exists k m,
    find_medoid cosine_distance cluster embs = inr m /\
    nth_error cluster k = Some m /\
    (forall j, (j < List.length cluster)%nat ->
               distance_to_others cosine_distance members k
               <= distance_to_others cosine_distance members j) /\
    (forall j, (j < k)%nat ->
               distance_to_others cosine_distance members k
               < distance_to_others cosine_distance members j).
Proof.
  intros Hne Hmembers.
  assert (Hlen := collect_length _ _ _ Hmembers).
  set (sums := map qsum (pairwise_distances cosine_distance members)).
  assert (Hsums : List.length sums = List.length cluster)
    by (unfold sums; now rewrite pairwise_distances_length).
  destruct (argmin_spec sums) as (k & v & Hk & Hv & Hle & Hlt).
  { intros E. rewrite E in Hsums. destruct cluster; [congruence | discriminate]. }
  assert (Hkc : (k < List.length cluster)%nat)
    by (rewrite <- Hsums; apply nth_error_Some; congruence).
  destruct (nth_error cluster k) as [m |] eqn:Hm;
    [| apply nth_error_None in Hm; lia].
  exists k, m. split; [| split; [exact Hm |]].
  - unfold find_medoid. rewrite Hmembers. simpl. fold sums.
    rewrite Hk. simpl. now apply item_inv.
  - assert (Hval : forall j, (j < List.length cluster)%nat ->
               exists x, nth_error sums j = Some x /\
                         x == distance_to_others cosine_distance members j).
    { intros j Hj. destruct (nth_error sums j) as [x |] eqn:Hx.
      - exists x. split; [reflexivity |]. now apply row_sum_to_others.
      - apply nth_error_None in Hx. lia. }
    assert (Hvk := row_sum_to_others _ _ _ Hv).
    split.
    + intros j Hj. destruct (Hval j Hj) as (x & Hx & Hxd).
      rewrite <- Hvk, <- Hxd. eauto.
    + intros j Hj. destruct (Hval j) as (x & Hx & Hxd); [lia |].
      rewrite <- Hvk, <- Hxd. eauto.
Qed.

(** What a kept cluster contributes to the canonical output. *)
Lemma canonical_group_inv questions embs cluster g :
  canonical_group cosine_distance questions embs cluster = inr g ->
  exists m medoid,
    find_medoid cosine_distance cluster embs = inr m /\
    nth_error questions m = Some medoid /\
    canonical_question g = tq_text medoid /\
    occurrences g = List.length cluster.
Proof.
  unfold canonical_group. intros H.
  apply and_then_inv in H. destruct H as (m & Hm & H).
  apply and_then_inv in H. destruct H as (medoid & Hq & H).
  apply and_then_inv in H. destruct H as (refs & _ & H).
  inversion H; subst; clear H. simpl.
  exists m, medoid. apply item_inv in Hq. auto.
Qed.

(** The loop over the clusters skips the clusters with fewer than two
    members and turns each of the others into one group. *)
Lemma canonical_groups_inv questions embs clusters :
  forall groups,
    canonical_groups cosine_distance questions embs clusters = inr groups ->
    Forall2 (fun cluster g =>
               canonical_group cosine_distance questions embs cluster = inr g)
            (filter (fun cluster => negb (List.length cluster <? 2)%nat)
                    clusters)
            groups.
Proof.
  induction clusters as [| c clusters IH]; simpl; intros groups H.
  - inversion H. constructor.
  - destruct (List.length c <? 2)%nat; simpl.
    + now apply IH.
    + apply and_then_inv in H. destruct H as (g & Hg & H).
      apply and_then_inv in H. destruct H as (gs & Hgs & H).
      inversion H; subst. constructor; [exact Hg | now apply IH].
Qed.

(** *** The canonical output *)

Lemma Forall2_In_r {A B} (R : A -> B -> Prop) l l' b :
  Forall2 R l l' -> In b l' -> exists a, In a l /\ R a b.
Proof.
  induction 1 as [| a0 b0 l l' HR _ IH]; simpl; intros Hin.
  - contradiction.
  - destruct Hin as [<- | Hin].
    + exists a0. auto.
    + destruct (IH Hin) as (a & Ha & HRa). exists a. auto.
Qed.

Lemma in_flat_map_present {A} (l : list (option A)) a :
  In a (flat_map present l) <-> In (Some a) l.
Proof.
  rewrite in_flat_map. split.
  - intros ([x |] & Hin & Hx); simpl in Hx; [| contradiction].
    destruct Hx as [<- | []]. exact Hin.
  - intros Hin. exists (Some a). split; [exact Hin | now left].
Qed.

(** An entry of the canonical output is the sorted list of the groups of
    one topic with at least two questions. *)
Lemma canonical_for_topic_inv entry log log' topic groups :
  canonical_for_topic model_encode cosine_distance fit_predict entry log
  = (log', inr (Some (topic, groups))) ->
  topic = fst entry /\
  exists clusters embs gs,
    canonical_groups cosine_distance (snd entry) embs clusters = inr gs /\
    groups = sort_stable more_occurrences gs.
Proof.
  unfold canonical_for_topic.
  destruct (List.length (snd entry) <? 2)%nat; [discriminate |].
  intros H. apply bind_inv in H. destruct H as (l1 & [clusters embs] & _ & H).
  apply bind_inv in H. destruct H as (l2 & gs & Hgs & H).
  unfold lift in Hgs. inversion Hgs as [[Hl Hg]]; clear Hgs.
  destruct gs as [| g gs]; [discriminate |].
  inversion H; subst. split; [reflexivity |].
  exists clusters, embs, (g :: gs). simpl in Hg. auto.
Qed.

(** Every group of the canonical output was built from a cluster with at
    least two members of its topic's questions. *)
Lemma canonical_output_inv mapped log log' out topic groups g :
  compute_canonical_questions model_encode cosine_distance fit_predict
                              mapped log = (log', inr out) ->
  In (topic, groups) out -> In g groups ->
  exists questions embs cluster,
    In (topic, questions) (organize_by_topic mapped) /\
    (2 <= List.length cluster)%nat /\
    canonical_group cosine_distance questions embs cluster = inr g.
Proof.
  unfold compute_canonical_questions. intros H Hout Hg.
  apply bind_inv in H. destruct H as (l1 & added & Hadded & H).
  inversion H; subst; clear H.
  apply in_flat_map_present in Hout.
  apply for_each_inv in Hadded.
  destruct (Forall2_In_r _ _ _ _ Hadded Hout) as (entry & Hentry & la & lb & Hrun).
  apply canonical_for_topic_inv in Hrun.
  destruct Hrun as (Htopic & clusters & embs & gs & Hgs & Hgroups).
  subst groups.
  apply (Permutation_in _ (sort_stable_perm more_occurrences gs)) in Hg.
  apply canonical_groups_inv in Hgs.
  destruct (Forall2_In_r _ _ _ _ Hgs Hg) as (c & Hc & Hcg).
  exists (snd entry), embs, c. split.
  - subst topic. now destruct entry.
  - split; [| exact Hcg].
    apply filter_In in Hc. destruct Hc as [_ Hc].
    apply negb_true_iff, Nat.ltb_ge in Hc. exact Hc.
Qed.

(** *** The engine never raises on a well-behaved clustering *)

(** A cluster is well formed for [n] questions when it is non-empty and
    holds indices below [n]. *)
Lemma add_to_group_valid n label idx groups :
  (idx < n)%nat ->
  Forall (fun g => snd g <> [] /\ Forall (fun i => (i < n)%nat) (snd g)) groups ->
  Forall (fun g => snd g <> [] /\ Forall (fun i => (i < n)%nat) (snd g))
         (add_to_group label idx groups).
Proof.
  intros Hidx.
  induction 1 as [| [l members] groups [Hne Hall] Htail IH]; simpl.
  - repeat constructor; [discriminate | exact Hidx].
  - simpl in Hne, Hall. destruct (l =? label)%nat.
    + constructor; [| exact Htail]. simpl. split.
      * destruct members; discriminate.
      * apply Forall_app. split; [exact Hall | now repeat constructor].
    + constructor; [| exact IH]. simpl. auto.
Qed.

Lemma enumerate_bound {A} (l : list A) :
  Forall (fun p => (fst p < List.length l)%nat) (enumerate l).
Proof.
  apply Forall_forall. intros [i x] Hin. unfold enumerate in Hin.
  apply in_combine_l in Hin. apply in_seq in Hin. simpl. lia.
Qed.

Lemma group_by_label_valid labels :
  Forall (fun c => c <> [] /\
                   Forall (fun i => (i < List.length labels)%nat) c)
         (group_by_label labels).
Proof.
  unfold group_by_label.
  assert (Hfold : forall pairs acc,
             Forall (fun p => (fst p < List.length labels)%nat) pairs ->
             Forall (fun g => snd g <> [] /\
                              Forall (fun i => (i < List.length labels)%nat)
                                     (snd g)) acc ->
             Forall (fun g => snd g <> [] /\
                              Forall (fun i => (i < List.length labels)%nat)
                                     (snd g))
                    (fold_left
                       (fun groups p => add_to_group (snd p) (fst p) groups)
                       pairs acc)).
  { induction pairs as [| p pairs IH]; simpl; intros acc Hp Hacc.
    - exact Hacc.
    - inversion Hp; subst. apply IH; [assumption |].
      now apply add_to_group_valid. }
  specialize (Hfold (enumerate labels) [] (enumerate_bound labels)
                    (Forall_nil _)).
  apply Forall_forall. intros c Hc. apply in_map_iff in Hc.
  destruct Hc as (g & <- & Hg).
  rewrite Forall_forall in Hfold. now apply Hfold.
Qed.

Lemma collect_references_total questions cluster :
  Forall (fun i => (i < List.length questions)%nat) cluster ->
  exists refs,
    collect (fun i => q <-? item questions i ;; inr (reference_of q)) cluster
    = inr refs.
Proof.
  induction 1 as [| i cluster Hi _ (refs & IH)]; simpl.
  - eauto.
  - unfold item at 1. apply nth_error_Some in Hi.
    destruct (nth_error questions i) as [q |]; [| congruence].
    simpl. rewrite IH. simpl. eauto.
Qed.

Lemma canonical_group_total questions embs cluster :
  cluster <> [] ->
  Forall (fun i => (i < List.length embs)%nat) cluster ->
  Forall (fun i => (i < List.length questions)%nat) cluster ->
  exists g, canonical_group cosine_distance questions embs cluster = inr g.
Proof.
  intros Hne Hembs Hquestions.
  destruct (collect_item_total embs cluster Hembs) as (members & Hmembers).
  destruct (find_medoid_spec cluster embs members Hne Hmembers)
    as (k & m & Hm & Hk & _).
  destruct (collect_references_total questions cluster Hquestions)
    as (refs & Hrefs).
  assert (Hmq : (m < List.length questions)%nat).
  { apply nth_error_In in Hk. rewrite Forall_forall in Hquestions. auto. }
  apply nth_error_Some in Hmq.
  destruct (nth_error questions m) as [medoid |] eqn:Hmedoid; [| congruence].
  unfold canonical_group. rewrite Hm. simpl.
  unfold item at 1. rewrite Hmedoid. simpl. rewrite Hrefs. simpl. eauto.
Qed.

Lemma canonical_groups_total questions embs clusters :
  Forall (fun c => c <> [] /\
                   Forall (fun i => (i < List.length embs)%nat) c /\
                   Forall (fun i => (i < List.length questions)%nat) c)
         clusters ->
  exists groups,
    canonical_groups cosine_distance questions embs clusters = inr groups.
Proof.
  induction 1 as [| c clusters (Hne & He & Hq) _ (groups & IH)]; simpl.
  - eauto.
  - destruct (List.length c <? 2)%nat; [eauto |].
    destruct (canonical_group_total questions embs c Hne He Hq) as (g & Hg).
    rewrite Hg, IH. simpl. eauto.
Qed.

Hypothesis fit_predict_length :
  forall D, List.length (fit_predict DISTANCE_THRESHOLD D) = List.length D.

Lemma canonical_for_topic_total entry log :
  exists log' added,
    canonical_for_topic model_encode cosine_distance fit_predict entry log
    = (log', inr added).
Proof.
  unfold canonical_for_topic.
  destruct (List.length (snd entry) <? 2)%nat eqn:Hfew.
  { unfold ret. eauto. }
  unfold cluster_questions_within_topic, bind, encode, lift, ret.
  rewrite Hfew. simpl.
  set (embs := map model_encode (map tq_text (snd entry))).
  set (labels := fit_predict DISTANCE_THRESHOLD
                             (pairwise_distances cosine_distance embs)).
  assert (Hembs : List.length embs = List.length (snd entry))
    by (unfold embs; now rewrite !length_map).
  assert (Hlabels : List.length labels = List.length embs).
  { unfold labels. rewrite fit_predict_length.
    unfold pairwise_distances. now rewrite length_map, enumerate_length. }
  destruct (canonical_groups_total (snd entry) embs (group_by_label labels))
    as (groups & Hgroups).
  { eapply Forall_impl; [| apply group_by_label_valid].
    intros c [Hne Hall]. rewrite Hlabels in Hall. split; [exact Hne |].
    split; [exact Hall |]. now rewrite <- Hembs. }
  rewrite Hgroups. destruct groups; eauto.
Qed.

Lemma compute_canonical_questions_total mapped log :
  exists log' out,
    compute_canonical_questions model_encode cosine_distance fit_predict
                                mapped log = (log', inr out).
Proof.
  unfold compute_canonical_questions.
  destruct (for_each_total
              (canonical_for_topic model_encode cosine_distance fit_predict)
              (fun _ _ => True) (organize_by_topic mapped))
    with (log := log) as (log' & added & Hrun & _).
  { intros entry lg _.
    destruct (canonical_for_topic_total entry lg) as (l' & a & H).
    exists l', a. auto. }
  erewrite bind_ok by exact Hrun. unfold ret. eauto.
Qed.

End EngineFacts.

(** C6.  Every group of the canonical output has at least two
    occurrences: it was built from a cluster of at least two questions of
    its topic, and [occurrences] is the size of that cluster.  When the
    clustering returns one label per question, there is such an output:
    [compute_canonical_questions] does not raise. *)
Theorem canonical_groups_have_two_occurrences
  (model_encode : string -> list Q) (cosine_distance : list Q -> list Q -> Q)
  (fit_predict : Q -> list (list Q) -> list nat)
  (mapped : list MappedQuestion) (log : oracle_log) :
  (forall log' out,
      compute_canonical_questions model_encode cosine_distance fit_predict
                                  mapped log = (log', inr out) ->
      forall topic groups g,
        In (topic, groups) out -> In g groups ->
        (2 <= occurrences g)%nat /\
        exists questions embs cluster,
          In (topic, questions) (organize_by_topic mapped) /\
          canonical_group cosine_distance questions embs cluster = inr g /\
          occurrences g = List.length cluster /\
          (2 <= List.length cluster)%nat) /\
  ((forall D, List.length (fit_predict DISTANCE_THRESHOLD D) = List.length D) ->
   exists log' out,
     compute_canonical_questions model_encode cosine_distance fit_predict
                                 mapped log = (log', inr out)).
Proof.
  split.
  - intros log' out Hrun topic groups g Hout Hg.
    destruct (canonical_output_inv model_encode cosine_distance fit_predict
                mapped log log' out topic groups g Hrun Hout Hg)
      as (questions & embs & cluster & Htopic & Hsize & Hgroup).
    destruct (canonical_group_inv cosine_distance questions embs cluster g
                Hgroup) as (m & medoid & _ & _ & _ & Hocc).
    split; [lia |].
    exists questions, embs, cluster. auto.
  - intros Hlabels.
    now apply compute_canonical_questions_total.
Qed.


(** ** The statements at concrete inputs *)

Import Fixtures.
Local Open Scope string_scope.

(** The clustering stub returns one label per row. *)
Lemma one_cluster_length :
  forall D, List.length (one_cluster DISTANCE_THRESHOLD D) = List.length D.
Proof. intros D. unfold one_cluster. apply length_map. Defined.

(** C6 on two questions of one topic that the stub clusters together. *)
Lemma canonical_groups_have_two_occurrences_witness :
  exists log' out,
    compute_canonical_questions constant_oracle flat_distance one_cluster
                                adder_questions [] = (log', inr out) /\
    In ("Adders",
        [ {| canonical_question :=
               "Explain the working of a half adder circuit";
             occurrences := 2;
             references := ["2022.json - 3"; "2023.json - 5"] |} ]) out /\
    forall topic groups g,
      In (topic, groups) out -> In g groups -> (2 <= occurrences g)%nat.
Proof.
  destruct (canonical_groups_have_two_occurrences
              constant_oracle flat_distance one_cluster adder_questions [])
    as [Hinv Htotal].
  destruct (Htotal one_cluster_length) as (log' & out & Hrun).
  exists log', out. split; [exact Hrun |]. split.
  - vm_compute in Hrun. inversion Hrun. now left.
  - intros topic groups g Hout Hg.
    exact (proj1 (Hinv log' out Hrun topic groups g Hout Hg)).
Defined.



End CanonicalEngineFacts.

From Stdlib Require Import Lqa OrderedTypeEx.

(** * Further properties of the pipeline *)

Module TopicMapperMore.

Import Text Num TopicMapper PipelineSpec NumFacts TopicMapperFacts.
Local Open Scope Q_scope.

Section PipelineFacts.

Variable model_encode : string -> list Q.
Variable token_set_ratio : string -> string -> Q.

(** *** The calls of the oracle *)

(** One iteration makes exactly one oracle call, whether it raises or
    not. *)
Lemma map_question_log acr ms ts q log :
  exists res,
    map_question model_encode token_set_ratio acr ms ts q log
    = ((log ++ [[expand_acronyms (normalize_text (text q)) acr]])%list, res).
Proof.
  unfold map_question, bind, encode, lift, ret. cbn [map first_row].
  destruct (select_modules ms _) as [e | sel_mods]; [eauto |].
  destruct (select_topics _ ts _ _ _) as [e | sel]; eauto.
Qed.

(** The loop over the questions stops at the first exception; up to
    there it has made one call per question. *)
Lemma for_each_map_question_log acr ms ts questions :
  forall log,
  exists k res,
    (k <= List.length questions)%nat /\
    for_each (map_question model_encode token_set_ratio acr ms ts)
             questions log
    = ((log ++ map (fun q => [expand_acronyms (normalize_text (text q)) acr])
                   (firstn k questions))%list, res) /\
    (is_ok res -> k = List.length questions).
Proof.
  induction questions as [| q questions IH]; intros log.
  - exists 0%nat, (inr []). simpl. unfold ret. rewrite app_nil_r. auto.
  - cbn [for_each]. unfold bind at 1.
    destruct (map_question_log acr ms ts q log) as (res & ->).
    destruct res as [e | r].
    + exists 1%nat, (inl e). simpl. split; [lia |]. split; [reflexivity |].
      intros [].
    + destruct (IH (log ++ [[expand_acronyms (normalize_text (text q)) acr]])%list)
        as (k & res & Hk & Heq & Hok).
      unfold bind at 1. rewrite Heq. rewrite <- app_assoc.
      destruct res as [e | rs].
      * exists (S k), (inl e). simpl. split; [lia |].
        split; [reflexivity |]. intros [].
      * exists (S k), (inr (r :: rs)). simpl. split; [lia |].
        split; [reflexivity |]. intros _. f_equal. now apply Hok.
Qed.

(** The run is the loop over the questions on the two built selectors,
    after the two calls of the constructors. *)
Lemma map_questions_to_topics_unfold questions mods title log :
  map_questions_to_topics model_encode token_set_ratio questions mods title log
  = for_each (map_question model_encode token_set_ratio
                           (extract_acronyms_from_enriched mods)
                           (built_module_selector model_encode mods title)
                           (built_topic_selector model_encode mods))
             questions
             (log ++ [map (module_text title) mods;
                      map (fun r => normalize_text (topic_text (snd r)))
                          (topic_rows mods)])%list.
Proof.
  unfold map_questions_to_topics, bind at 1.
  rewrite ModuleSelector_init_run. unfold bind at 1.
  rewrite TopicSelector_init_run. rewrite <- app_assoc. reflexivity.
Qed.


(** X1.  [map_questions_to_topics] calls the oracle once on the module
    texts, once on the topic texts and then once per question, in order,
    on the question's normalised and acronym-expanded text.  A run that
    raises stopped after the call for some question; a run that returns
    has made [2 + len(questions)] calls. *)
Theorem oracle_is_called_once_per_question questions mods title log :
  exists k,
    (k <= List.length questions)%nat /\
    fst (map_questions_to_topics model_encode token_set_ratio questions mods
                                 title log)
    = (log ++ expected_calls mods title (firstn k questions))%list /\
    (is_ok (snd (map_questions_to_topics model_encode token_set_ratio
                                         questions mods title log)) ->
     k = List.length questions /\
     List.length
       (fst (map_questions_to_topics model_encode token_set_ratio questions
                                     mods title log))
     = (List.length log + 2 + List.length questions)%nat).
Proof.
  rewrite map_questions_to_topics_unfold.
  destruct (for_each_map_question_log
              (extract_acronyms_from_enriched mods)
              (built_module_selector model_encode mods title)
              (built_topic_selector model_encode mods) questions
              (log ++ [map (module_text title) mods;
                       map (fun r => normalize_text (topic_text (snd r)))
                           (topic_rows mods)])%list)
    as (k & res & Hk & Heq & Hok).
  rewrite Heq. cbn [fst snd].
  exists k. split; [exact Hk |]. split.
  - unfold expected_calls, expanded_text. now rewrite <- app_assoc.
  - intros H. specialize (Hok H). split; [exact Hok |].
    rewrite Hok, firstn_all, !length_app, length_map. simpl. lia.
Qed.

(** *** The records *)

Lemma map_question_fields acr ms ts q log log' r :
  map_question model_encode token_set_ratio acr ms ts q log = (log', inr r) ->
  same_question q r.
Proof.
  unfold map_question, bind, encode, lift, ret. simpl.
  destruct (select_modules ms _) as [e | sel_mods]; [discriminate |].
  destruct (select_topics _ ts _ _ _) as [e | sel]; [discriminate |].
  intros H. inversion H; subst; clear H. repeat split.
Qed.

(** A run that returns gives one record per question, in order. *)
Lemma run_records_follow_questions questions mods title log log' out :
  map_questions_to_topics model_encode token_set_ratio questions mods title log
  = (log', inr out) ->
  List.length out = List.length questions /\
  Forall2 same_question questions out.
Proof.
  rewrite map_questions_to_topics_unfold. intros H.
  apply for_each_inv in H.
  assert (Hall : Forall2 same_question questions out).
  { eapply Forall2_impl; [| exact H].
    intros q r (la & lb & Hq). eapply map_question_fields; eauto. }
  split; [| exact Hall].
  symmetry. eapply Forall2_length; eauto.
Qed.

(** X2.  A run that returns gives one record per question, in the order
    of the questions; each record carries the question's paper name,
    number and marks, and its original text, not the normalised and
    expanded text that was embedded. *)
Theorem records_follow_the_questions questions mods title log log' out :
  map_questions_to_topics model_encode token_set_ratio questions mods title log
  = (log', inr out) ->
  List.length out = List.length questions /\
  Forall2 same_question questions out.
Proof. apply run_records_follow_questions. Qed.

(** An iteration on the built selectors can only return when there is a
    module, and then it returns the record of [map_question_built]. *)
Lemma map_question_built_inv mods title q log log' r :
  map_question model_encode token_set_ratio
               (extract_acronyms_from_enriched mods)
               (built_module_selector model_encode mods title)
               (built_topic_selector model_encode mods) q log
  = (log', inr r) ->
  exists sel_mods selected,
    select_modules (built_module_selector model_encode mods title)
                   (question_vector model_encode mods q) = inr sel_mods /\
    sel_mods <> [] /\
    select_topics token_set_ratio (built_topic_selector model_encode mods)
                  (expanded_text mods q) (question_vector model_encode mods q)
                  (map fst sel_mods) = inr selected /\
    mapped_topics r = allocate_marks (marks q) (with_fallback selected sel_mods).
Proof.
  intros H.
  assert (Hne : mods <> []).
  { intros ->. revert H.
    unfold map_question, bind, encode, lift, ret. cbn [map first_row].
    rewrite select_modules_empty. discriminate. }
  destruct (map_question_built model_encode token_set_ratio mods title q log Hne)
    as (sel_mods & selected & Hsel & Hnonempty & Htopics & Hrun).
  rewrite Hrun in H. inversion H; subst; clear H.
  exists sel_mods, selected. auto.
Qed.

Lemma rank_topics_incl cands t : In t (rank_topics cands) -> In t cands.
Proof.
  intros Hin. destruct cands as [| c cands]; [contradiction |].
  destruct (candidates_have_top (c :: cands)) as [T HT]; [discriminate |].
  exact (proj1 (rank_topics_sound (c :: cands) T t HT Hin)).
Qed.

(** The modules [select_modules] returns are modules of the syllabus. *)
Lemma selected_modules_in_syllabus mods title q sel_mods id :
  select_modules (built_module_selector model_encode mods title) q
  = inr sel_mods ->
  In id (map fst sel_mods) -> In id (map module_id mods).
Proof.
  intros Hsel Hin.
  assert (Hne : mods <> []).
  { intros ->. rewrite select_modules_empty in Hsel. discriminate. }
  destruct (select_modules_built model_encode mods title q Hne)
    as (S & _ & Heq).
  rewrite Heq in Hsel. injection Hsel as <-.
  apply in_map_iff in Hin. destruct Hin as ([id' s] & <- & Hin).
  apply filter_In in Hin. destruct Hin as [Hin _].
  unfold module_scores in Hin. apply in_map_iff in Hin.
  destruct Hin as (m' & Heq' & Hm'). inversion Heq'; subst.
  simpl. now apply in_map.
Qed.

(** A topic [select_topics] returns belongs to an allowed module. *)
Lemma selected_topics_are_allowed mods qtext q allowed selected t :
  select_topics token_set_ratio (built_topic_selector model_encode mods)
                qtext q allowed = inr selected ->
  In t selected -> In (st_module_id t) allowed.
Proof.
  rewrite select_topics_built. intros H Hin.
  inversion H; subst; clear H.
  apply rank_topics_incl in Hin. unfold candidates in Hin.
  apply in_map_iff in Hin. destruct Hin as (r & <- & Hr).
  apply surviving_rows_In in Hr. simpl. tauto.
Qed.

Lemma allocate_marks_In m ts t :
  In t (allocate_marks m ts) ->
  exists t0, In t0 ts /\ st_module_id t = st_module_id t0 /\
             st_topic t = st_topic t0 /\ confidence t = confidence t0.
Proof.
  destruct ts as [| t1 ts]; [contradiction |].
  unfold allocate_marks. intros Hin. apply in_map_iff in Hin.
  destruct Hin as (t0 & <- & Hin). exists t0. auto.
Qed.

Lemma allocate_marks_sorted m ts :
  StronglySorted confidence_descends ts ->
  StronglySorted confidence_descends (allocate_marks m ts).
Proof.
  destruct ts as [| t1 ts]; [auto |]. unfold allocate_marks.
  generalize (m / of_nat (List.length (t1 :: ts))). intros share.
  generalize (t1 :: ts). clear t1 ts.
  induction 1 as [| t ts _ IH Hall]; simpl; constructor; [exact IH |].
  rewrite Forall_forall in *. intros t' Ht'. apply in_map_iff in Ht'.
  destruct Ht' as (t0 & <- & Ht0). exact (Hall t0 Ht0).
Qed.

(** The mapped topics of a run that returns: at most four, sorted, from
    the selected modules. *)
Lemma run_topics_from_selected_modules questions mods title log log' out :
  map_questions_to_topics model_encode token_set_ratio questions mods title log
  = (log', inr out) ->
  Forall2
    (fun q r =>
       (List.length (mapped_topics r) <= 4)%nat /\
       StronglySorted confidence_descends (mapped_topics r) /\
       exists sel_mods,
         select_modules (built_module_selector model_encode mods title)
                        (question_vector model_encode mods q) = inr sel_mods /\
         forall t, In t (mapped_topics r) ->
                   In (st_module_id t) (map fst sel_mods) /\
                   In (st_module_id t) (map module_id mods))
    questions out.
Proof.
  rewrite map_questions_to_topics_unfold. intros H.
  apply for_each_inv in H.
  eapply Forall2_impl; [| exact H].
  intros q r (la & lb & Hq). apply map_question_built_inv in Hq.
  destruct Hq as (sel_mods & selected & Hsel & Hne & Htopics & ->).
  assert (Hids : forall t, In t (with_fallback selected sel_mods) ->
                           In (st_module_id t) (map fst sel_mods)).
  { intros t Ht. destruct selected as [| t1 selected].
    - destruct sel_mods as [| m sel_mods]; [now elim Hne |].
      simpl in Ht. destruct Ht as [<- | []]. now left.
    - eapply selected_topics_are_allowed; [exact Htopics |].
      destruct sel_mods; exact Ht. }
  rewrite select_topics_built in Htopics.
  injection Htopics as Hselected.
  split; [| split].
  - rewrite allocate_marks_length.
    destruct selected as [| t1 selected].
    + destruct sel_mods; simpl; lia.
    + replace (with_fallback (t1 :: selected) sel_mods) with (t1 :: selected)
        by (now destruct sel_mods).
      rewrite <- Hselected. apply rank_topics_length.
  - apply allocate_marks_sorted.
    destruct selected as [| t1 selected].
    + destruct sel_mods; simpl; repeat constructor.
    + replace (with_fallback (t1 :: selected) sel_mods) with (t1 :: selected)
        by (now destruct sel_mods).
      rewrite <- Hselected. apply rank_topics_sorted.
  - exists sel_mods. split; [exact Hsel |].
    intros t Ht. apply allocate_marks_In in Ht.
    destruct Ht as (t0 & Ht0 & -> & _).
    split; [now apply Hids |].
    eapply selected_modules_in_syllabus; [exact Hsel | now apply Hids].
Qed.

(** X3.  In a run that returns, every record has at most four mapped
    topics, in descending order of confidence, and each mapped topic names
    one of the modules [select_modules] returned for that question, which
    are modules of the selected syllabus. *)
Theorem mapped_topics_name_selected_modules questions mods title log log' out :
  map_questions_to_topics model_encode token_set_ratio questions mods title log
  = (log', inr out) ->
  Forall2
    (fun q r =>
       (List.length (mapped_topics r) <= 4)%nat /\
       StronglySorted confidence_descends (mapped_topics r) /\
       exists sel_mods,
         select_modules (built_module_selector model_encode mods title)
                        (question_vector model_encode mods q) = inr sel_mods /\
         forall t, In t (mapped_topics r) ->
                   In (st_module_id t) (map fst sel_mods) /\
                   In (st_module_id t) (map module_id mods))
    questions out.
Proof. apply run_topics_from_selected_modules. Qed.

(** *** The range of the confidences *)

Lemma round_half_even_lower n y :
  inject_Z n <= y -> (n <= round_half_even y)%Z.
Proof.
  intros H. apply Qfloor_resp_le in H. rewrite Qfloor_Z in H.
  unfold round_half_even.
  destruct (Qcompare (y - inject_Z (Qfloor y)) (1 # 2));
    [destruct (Z.even (Qfloor y)) | |]; lia.
Qed.

Lemma round_half_even_upper n y :
  y <= inject_Z n -> (round_half_even y <= n)%Z.
Proof.
  intros H.
  assert (Hfloor : (Qfloor y <= n)%Z)
    by (apply Qfloor_resp_le in H; now rewrite Qfloor_Z in H).
  assert (Hstrict : 0 < y - inject_Z (Qfloor y) -> (Qfloor y + 1 <= n)%Z).
  { intros Hpos.
    assert (Hlt : inject_Z (Qfloor y) < inject_Z n) by lra.
    rewrite <- Zlt_Qlt in Hlt. lia. }
  unfold round_half_even.
  destruct (Qcompare (y - inject_Z (Qfloor y)) (1 # 2)) eqn:E.
  - apply Qeq_alt in E.
    destruct (Z.even (Qfloor y)); [exact Hfloor |].
    apply Hstrict. rewrite E. reflexivity.
  - exact Hfloor.
  - apply Qgt_alt in E. apply Hstrict. lra.
Qed.

(** Rounding to four decimals keeps a score between two bounds that have
    at most four decimals themselves. *)
Lemma round4_between (a b : Z) x :
  a # 10000 <= x -> x <= b # 10000 ->
  a # 10000 <= round4 x /\ round4 x <= b # 10000.
Proof.
  intros Ha Hb. unfold round4.
  assert (Ha' : inject_Z a <= x * 10000).
  { unfold Qle in *. simpl in *. lia. }
  assert (Hb' : x * 10000 <= inject_Z b).
  { unfold Qle in *. simpl in *. lia. }
  apply round_half_even_lower in Ha'. apply round_half_even_upper in Hb'.
  unfold Qle. simpl. lia.
Qed.


Lemma of_nat_le n m : (n <= m)%nat -> of_nat n <= of_nat m.
Proof. intros H. unfold of_nat. rewrite <- Zle_Qle. lia. Qed.



(** *** The module range *)

Lemma in_range_iff start_module end_module m :
  in_range start_module end_module m = true <->
  (start_module <= module_id m <= end_module)%Z.
Proof.
  unfold in_range. rewrite andb_true_iff, !Z.leb_le. reflexivity.
Qed.

(** X5.  [filter_modules] either raises [ValueError], exactly when no
    module id lies in the range, or returns the modules of the range, all
    of them and in syllabus order; filtering its result again returns the
    same list. *)
Theorem filter_modules_keeps_the_range modules start_module end_module :
  match filter_modules modules start_module end_module with
  | inr selected =>
      selected <> [] /\
      selected = filter (in_range start_module end_module) modules /\
      (forall m, In m selected <->
                 In m modules /\
                 (start_module <= module_id m <= end_module)%Z) /\
      filter_modules selected start_module end_module = inr selected
  | inl e =>
      e = ValueError "No modules found in selected range." /\
      forall m, In m modules ->
                ~ (start_module <= module_id m <= end_module)%Z
  end.
Proof.
  unfold filter_modules.
  destruct (filter (in_range start_module end_module) modules)
    as [| m0 rest] eqn:E.
  - split; [reflexivity |]. intros m Hm Hrange.
    assert (Hin : In m (filter (in_range start_module end_module) modules))
      by (apply filter_In; split; [exact Hm | now apply in_range_iff]).
    rewrite E in Hin. contradiction.
  - split; [discriminate |]. split; [reflexivity |]. split.
    + intros m. rewrite <- E, filter_In, in_range_iff. reflexivity.
    + assert (Hidem : filter (in_range start_module end_module) (m0 :: rest)
                      = m0 :: rest).
      { rewrite <- E. apply forallb_filter_id. apply forallb_forall.
        intros m Hm. apply filter_In in Hm. tauto. }
      rewrite Hidem. reflexivity.
Qed.


(** *** Each question on its own *)



(** *** The acronym map *)

Lemma dict_get_set k k' v d :
  dict_get k (dict_set k' v d) =
  if String.eqb k k' then Some v else dict_get k d.
Proof.
  induction d as [| [k0 v0] d IH]; simpl.
  - reflexivity.
  - destruct (String.eqb k' k0) eqn:E0; simpl.
    + apply String.eqb_eq in E0. subst k0.
      destruct (String.eqb k k'); reflexivity.
    + destruct (String.eqb k k0) eqn:E1.
      * apply String.eqb_eq in E1. subst k0.
        rewrite String.eqb_sym, E0. reflexivity.
      * exact IH.
Qed.

Lemma dict_set_keys k v d :
  NoDup (map fst d) ->
  NoDup (map fst (dict_set k v d)) /\
  forall kv, In kv (dict_set k v d) -> kv = (k, v) \/ In kv d.
Proof.
  induction d as [| [k0 v0] d IH]; simpl; intros Hnd.
  - split; [repeat constructor; auto | intros kv [<- | []]; auto].
  - inversion Hnd as [| x l Hnotin Hnd']; subst.
    destruct (String.eqb k k0) eqn:E.
    + apply String.eqb_eq in E. subst k0. simpl. split.
      * now constructor.
      * intros kv [<- | H]; auto.
    + destruct (IH Hnd') as [IHnd IHin]. simpl. split.
      * constructor; [| exact IHnd].
        intros Hin. apply in_map_iff in Hin.
        destruct Hin as ([k1 v1] & Hk1 & Hin). simpl in Hk1. subst k1.
        destruct (IHin _ Hin) as [Heq | Hold].
        -- inversion Heq; subst. rewrite String.eqb_refl in E. discriminate.
        -- apply Hnotin. apply in_map_iff. now exists (k0, v1).
      * intros kv [<- | H]; auto. destruct (IHin _ H); auto.
Qed.

Lemma upper_idempotent s : upper (upper s) = upper s.
Proof.
  unfold upper. induction s as [| c s IH]; simpl; [reflexivity |].
  rewrite IH. f_equal.
  destruct c as [[] [] [] [] [] [] [] []]; reflexivity.
Qed.

Lemma add_topic_acronyms_sets d topic :
  add_topic_acronyms d topic =
  set_key (generated_acronym topic) topic
          (set_key (explicit_acronym topic) topic d).
Proof.
  unfold add_topic_acronyms, generated_acronym, explicit_acronym, set_key.
  destruct (paren_group topic) as [g |]; cbv zeta;
    [destruct (acronym_length_ok (upper (strip g))) |];
    destruct (2 <=? _)%nat; try reflexivity;
    destruct (acronym_length_ok (upper (join "" _))); reflexivity.
Qed.

Lemma dict_get_set_key k o topic d :
  dict_get k (set_key o topic d) =
  if is_key k o then Some topic else dict_get k d.
Proof.
  destruct o as [a |]; simpl; [apply dict_get_set | reflexivity].
Qed.

(** After a topic has been read, its acronyms map to it and the other
    keys are as before. *)
Lemma dict_get_add_topic k d topic :
  dict_get k (add_topic_acronyms d topic) =
  if has_acronym k topic then Some topic else dict_get k d.
Proof.
  rewrite add_topic_acronyms_sets, !dict_get_set_key. unfold has_acronym.
  destruct (is_key k (generated_acronym topic)),
           (is_key k (explicit_acronym topic)); reflexivity.
Qed.

Lemma find_snoc {A} (p : A -> bool) l x :
  find p (l ++ [x]) =
  match find p l with
  | Some y => Some y
  | None => if p x then Some x else None
  end.
Proof.
  induction l as [| y l IH]; simpl; [reflexivity |].
  destruct (p y); [reflexivity | exact IH].
Qed.

Lemma dict_get_fold k topics :
  forall d,
    dict_get k (fold_left add_topic_acronyms topics d) =
    match find_last (has_acronym k) topics with
    | Some topic => Some topic
    | None => dict_get k d
    end.
Proof.
  unfold find_last.
  induction topics as [| t topics IH]; intros d; simpl; [reflexivity |].
  rewrite IH, find_snoc, dict_get_add_topic.
  destruct (find (has_acronym k) (rev topics)); [reflexivity |].
  destruct (has_acronym k t); reflexivity.
Qed.

Lemma extract_acronyms_as_fold modules :
  forall d,
    fold_left (fun d topics => fold_left add_topic_acronyms topics d) modules d
    = fold_left add_topic_acronyms (List.concat modules) d.
Proof.
  induction modules as [| topics modules IH]; intros d; simpl.
  - reflexivity.
  - rewrite fold_left_app. apply IH.
Qed.

Lemma add_topic_acronyms_nodup d topic :
  NoDup (map fst d) -> NoDup (map fst (add_topic_acronyms d topic)).
Proof.
  intros H. rewrite add_topic_acronyms_sets.
  assert (Hset : forall o d', NoDup (map fst d') ->
                              NoDup (map fst (set_key o topic d'))).
  { intros [a |] d' Hd'; simpl; [now apply dict_set_keys | exact Hd']. }
  now apply Hset, Hset.
Qed.

Lemma fold_acronyms_nodup topics :
  forall d, NoDup (map fst d) ->
            NoDup (map fst (fold_left add_topic_acronyms topics d)).
Proof.
  induction topics as [| t topics IH]; intros d Hd; simpl; [exact Hd |].
  now apply IH, add_topic_acronyms_nodup.
Qed.

Lemma dict_get_In k v d :
  NoDup (map fst d) -> In (k, v) d -> dict_get k d = Some v.
Proof.
  induction d as [| [k0 v0] d IH]; simpl; intros Hnd Hin; [contradiction |].
  inversion Hnd as [| x l Hnotin Hnd']; subst.
  destruct Hin as [Heq | Hin].
  - inversion Heq; subst. now rewrite String.eqb_refl.
  - destruct (String.eqb k k0) eqn:E.
    + apply String.eqb_eq in E. subst k0. exfalso. apply Hnotin.
      apply in_map_iff. now exists (k, v).
    + now apply IH.
Qed.

Lemma is_key_format k o :
  is_key k o = true -> o = Some k.
Proof.
  destruct o as [a |]; simpl; [| discriminate].
  intros H. apply String.eqb_eq in H. now subst.
Qed.

(** An acronym of a topic has between two and six characters, none of
    them a lower-case letter. *)
Lemma has_acronym_format k topic :
  has_acronym k topic = true ->
  (2 <= String.length k <= 6)%nat /\ upper k = k.
Proof.
  unfold has_acronym. rewrite orb_true_iff.
  assert (Hok : forall a, acronym_length_ok a = true ->
                          (2 <= String.length a <= 6)%nat).
  { intros a. unfold acronym_length_ok.
    rewrite andb_true_iff, !Nat.leb_le. tauto. }
  intros [H | H]; apply is_key_format in H.
  - unfold explicit_acronym in H.
    destruct (paren_group topic) as [g |]; [| discriminate].
    cbv zeta in H.
    destruct (acronym_length_ok (upper (strip g))) eqn:E; [| discriminate].
    injection H as <-. split; [now apply Hok | apply upper_idempotent].
  - unfold generated_acronym in H. cbv zeta in H.
    destruct (2 <=? _)%nat; [| discriminate].
    destruct (acronym_length_ok (upper (join "" _))) eqn:E; [| discriminate].
    injection H as <-. split; [now apply Hok | apply upper_idempotent].
Qed.

(** X7.  The acronym map has no key twice; looking up a key gives the
    last topic, in reading order, that has it as its parenthesised or
    initials acronym, so later topics win; every key has two to six
    characters and no lower-case letter.  Consequently [expand_acronyms]
    appends to each word the last topic whose acronym the word is, and
    leaves the other words as they are. *)
Theorem acronym_map_keeps_last_topic modules :
  NoDup (map fst (extract_acronyms_from_topics modules)) /\
  (forall k,
      dict_get k (extract_acronyms_from_topics modules)
      = find_last (has_acronym k) (List.concat modules)) /\
  (forall k topic,
      In (k, topic) (extract_acronyms_from_topics modules) ->
      In topic (List.concat modules) /\ has_acronym k topic = true /\
      (2 <= String.length k <= 6)%nat /\ upper k = k) /\
  (forall text,
      expand_acronyms text (extract_acronyms_from_topics modules)
      = join " " (map (expanded_word (List.concat modules)) (split text))).
Proof.
  unfold extract_acronyms_from_topics. rewrite extract_acronyms_as_fold.
  assert (Hnd : NoDup (map fst (fold_left add_topic_acronyms
                                          (List.concat modules) [])))
    by (apply fold_acronyms_nodup; constructor).
  assert (Hget : forall k,
             dict_get k (fold_left add_topic_acronyms (List.concat modules) [])
             = find_last (has_acronym k) (List.concat modules)).
  { intros k. rewrite dict_get_fold.
    now destruct (find_last (has_acronym k) (List.concat modules)). }
  split; [exact Hnd |]. split; [exact Hget |]. split.
  - intros k topic Hin.
    apply (dict_get_In _ _ _ Hnd) in Hin. rewrite Hget in Hin.
    unfold find_last in Hin. apply find_some in Hin.
    destruct Hin as [Hin Hhas]. apply in_rev in Hin.
    split; [exact Hin |]. split; [exact Hhas |].
    now apply has_acronym_format in Hhas.
  - intros text. unfold expand_acronyms. f_equal.
    apply map_ext. intros w. unfold expanded_word. now rewrite Hget.
Qed.
End PipelineFacts.

(** ** The statements at concrete inputs *)

Import Fixtures.
Local Open Scope string_scope.

(** X2 on one question and the two modules of the fallback fixture. *)
Lemma records_follow_the_questions_witness :
  exists log' out,
    map_questions_to_topics fallback_oracle ratio_stub [pipelining]
                            [hardware; software] "CS101" [] = (log', inr out) /\
    List.length out = List.length [pipelining] /\
    Forall2 same_question [pipelining] out.
Proof.
  eexists. eexists.
  assert (Hrun : map_questions_to_topics fallback_oracle ratio_stub
                   [pipelining] [hardware; software] "CS101" []
                 = (_, inr _)) by (vm_compute; reflexivity).
  split; [exact Hrun |].
  exact (records_follow_the_questions fallback_oracle ratio_stub
           _ _ _ _ _ _ Hrun).
Defined.

(** X3 on the same run. *)
Lemma mapped_topics_name_selected_modules_witness :
  exists log' out,
    map_questions_to_topics fallback_oracle ratio_stub [pipelining]
                            [hardware; software] "CS101" [] = (log', inr out) /\
    Forall2
      (fun q r =>
         (List.length (mapped_topics r) <= 4)%nat /\
         StronglySorted confidence_descends (mapped_topics r) /\
         exists sel_mods,
           select_modules
             (built_module_selector fallback_oracle [hardware; software]
                                    "CS101")
             (question_vector fallback_oracle [hardware; software] q)
           = inr sel_mods /\
           forall t, In t (mapped_topics r) ->
                     In (st_module_id t) (map fst sel_mods) /\
                     In (st_module_id t)
                        (map module_id [hardware; software]))
      [pipelining] out.
Proof.
  eexists. eexists.
  assert (Hrun : map_questions_to_topics fallback_oracle ratio_stub
                   [pipelining] [hardware; software] "CS101" []
                 = (_, inr _)) by (vm_compute; reflexivity).
  split; [exact Hrun |].
  exact (mapped_topics_name_selected_modules fallback_oracle ratio_stub
           _ _ _ _ _ _ Hrun).
Defined.




End TopicMapperMore.

(** * Further properties of the canonical engine *)

Module CanonicalEngineMore.

Import Num TopicMapper CanonicalEngine PipelineSpec CanonicalSpec.
Import NumFacts CanonicalEngineFacts.

(** *** Dictionaries of lists *)

Section DefaultdictFacts.

Context {K V : Type}.
Variable eqb : K -> K -> bool.
Hypothesis eqb_eq : forall x y, eqb x y = true <-> x = y.

Lemma eqb_same x : eqb x x = true.
Proof. now apply eqb_eq. Qed.

Lemma values_at_append_to (k key : K) (v : V) (d : list (K * list V)) :
  values_at eqb k (append_to eqb key v d) =
  if eqb k key then (values_at eqb k d ++ [v])%list else values_at eqb k d.
Proof.
  unfold values_at.
  induction d as [| [k0 vs] d IH]; simpl.
  - destruct (eqb key k) eqn:E; destruct (eqb k key) eqn:E'; try reflexivity.
    + apply eqb_eq in E. subst. now rewrite eqb_same in E'.
    + apply eqb_eq in E'. subst. now rewrite eqb_same in E.
  - destruct (eqb k0 key) eqn:Ekey; simpl.
    + apply eqb_eq in Ekey. subst k0.
      destruct (eqb key k) eqn:E; destruct (eqb k key) eqn:E'; try reflexivity.
      * apply eqb_eq in E. subst. now rewrite eqb_same in E'.
      * apply eqb_eq in E'. subst. now rewrite eqb_same in E.
    + destruct (eqb k0 k) eqn:E; [| exact IH].
      apply eqb_eq in E. subst k0.
      destruct (eqb k key) eqn:E'; [discriminate | reflexivity].
Qed.

Lemma append_to_keys (k key : K) (v : V) (d : list (K * list V)) :
  In k (map fst (append_to eqb key v d)) <-> k = key \/ In k (map fst d).
Proof.
  induction d as [| [k0 vs] d IH]; simpl.
  - intuition.
  - destruct (eqb k0 key) eqn:E; simpl.
    + apply eqb_eq in E. subst k0. intuition.
    + rewrite IH. intuition.
Qed.

Lemma append_to_well_keyed (key : K) (v : V) (d : list (K * list V)) :
  well_keyed d -> well_keyed (append_to eqb key v d).
Proof.
  unfold well_keyed. intros [Hnd Hne].
  induction d as [| [k0 vs] d IH]; simpl.
  - split; repeat constructor; [intros [] | discriminate].
  - inversion Hnd as [| x l Hnotin Hnd']; subst.
    inversion Hne as [| x l Hvs Hne']; subst.
    destruct (eqb k0 key) eqn:E; simpl.
    + split; [exact Hnd |]. constructor; [| exact Hne'].
      simpl. destruct vs; discriminate.
    + destruct (IH Hnd' Hne') as [IHnd IHne].
      split; constructor; try assumption.
      rewrite append_to_keys. intros [-> | Hin]; [| now apply Hnotin].
      now rewrite eqb_same in E.
Qed.

Lemma append_to_concat (key : K) (v : V) (d : list (K * list V)) :
  Permutation (List.concat (map snd (append_to eqb key v d)))
              (v :: List.concat (map snd d)).
Proof.
  induction d as [| [k0 vs] d IH]; simpl.
  - reflexivity.
  - destruct (eqb k0 key); simpl.
    + rewrite <- app_assoc. simpl.
      symmetry. apply Permutation_middle.
    + rewrite IH. symmetry. apply Permutation_middle.
Qed.

Lemma appended_values_at (k : K) (ps : list (K * V)) :
  forall d,
    values_at eqb k (appended eqb ps d)
    = (values_at eqb k d ++ values_of eqb k ps)%list.
Proof.
  unfold appended, values_of.
  induction ps as [| [key v] ps IH]; intros d; simpl.
  - now rewrite app_nil_r.
  - rewrite IH, values_at_append_to.
    destruct (eqb k key) eqn:E; destruct (eqb key k) eqn:E'.
    + simpl. now rewrite <- app_assoc.
    + apply eqb_eq in E. subst. now rewrite eqb_same in E'.
    + apply eqb_eq in E'. subst. now rewrite eqb_same in E.
    + reflexivity.
Qed.

Lemma appended_well_keyed (ps : list (K * V)) :
  forall d, well_keyed d -> well_keyed (appended eqb ps d).
Proof.
  unfold appended.
  induction ps as [| p ps IH]; intros d Hd; simpl; [exact Hd |].
  now apply IH, append_to_well_keyed.
Qed.

Lemma appended_concat (ps : list (K * V)) :
  forall d,
    Permutation (List.concat (map snd (appended eqb ps d)))
                (List.concat (map snd d) ++ map snd ps).
Proof.
  unfold appended.
  induction ps as [| [key v] ps IH]; intros d; simpl.
  - now rewrite app_nil_r.
  - rewrite IH, append_to_concat. simpl. apply Permutation_middle.
Qed.

(** In a dictionary without a repeated key or an empty list, the
    entries are what the look-up gives. *)
Lemma well_keyed_In (d : list (K * list V)) (k : K) (vs : list V) :
  well_keyed d ->
  (In (k, vs) d <-> vs <> [] /\ values_at eqb k d = vs).
Proof.
  unfold well_keyed, values_at. intros [Hnd Hne].
  induction d as [| [k0 vs0] d IH]; simpl.
  - split; [contradiction | intros [H1 H2]; congruence].
  - inversion Hnd as [| x l Hnotin Hnd']; subst.
    inversion Hne as [| x l Hvs Hne']; subst. simpl in Hvs.
    specialize (IH Hnd' Hne').
    destruct (eqb k0 k) eqn:E.
    + apply eqb_eq in E. subst k0. simpl. split.
      * intros [Heq | Hin].
        -- inversion Heq; subst. auto.
        -- exfalso. apply Hnotin. apply in_map_iff. now exists (k, vs).
      * intros [_ ->]. now left.
    + split.
      * intros [Heq | Hin]; [| now apply IH].
        inversion Heq; subst. now rewrite eqb_same in E.
      * intros H. right. now apply IH.
Qed.

(** The dictionary built by a run of appends has one entry for each key
    that was appended to, holding what was appended under it, in order. *)
Lemma appended_In (ps : list (K * V)) (k : K) (vs : list V) :
  In (k, vs) (appended eqb ps []) <-> vs <> [] /\ vs = values_of eqb k ps.
Proof.
  rewrite well_keyed_In.
  - rewrite appended_values_at. simpl. intuition.
  - apply appended_well_keyed. split; constructor.
Qed.

Lemma values_of_nonempty (k : K) (ps : list (K * V)) :
  values_of eqb k ps <> [] <-> In k (map fst ps).
Proof.
  unfold values_of. induction ps as [| [key v] ps IH]; simpl.
  - intuition.
  - destruct (eqb key k) eqn:E; simpl.
    + apply eqb_eq in E. split; [auto | discriminate].
    + rewrite IH. split; [auto |]. intros [-> | H]; [| exact H].
      now rewrite eqb_same in E.
Qed.

End DefaultdictFacts.

Lemma fold_left_map_list {A B C} (f : A -> C -> A) (g : B -> C) l :
  forall a, fold_left f (map g l) a = fold_left (fun a x => f a (g x)) l a.
Proof.
  induction l as [| x l IH]; intros a; simpl; [reflexivity | apply IH].
Qed.

(** *** Grouping the positions by cluster label *)

Lemma add_to_group_append_to label idx groups :
  add_to_group label idx groups = append_to Nat.eqb label idx groups.
Proof.
  induction groups as [| [l members] groups IH]; simpl; [reflexivity |].
  now rewrite IH.
Qed.

Lemma group_by_label_appended labels :
  group_by_label labels =
  map snd (appended Nat.eqb (map (fun p => (snd p, fst p)) (enumerate labels))
                    []).
Proof.
  unfold group_by_label, appended. f_equal.
  rewrite fold_left_map_list. simpl.
  generalize (@nil (nat * list nat)).
  induction (enumerate labels) as [| p ps IH]; intros acc; simpl.
  - reflexivity.
  - now rewrite add_to_group_append_to, IH.
Qed.

Lemma label_class_values_of labels l :
  label_class labels l =
  values_of Nat.eqb l (map (fun p => (snd p, fst p)) (enumerate labels)).
Proof.
  unfold label_class, values_of.
  induction (enumerate labels) as [| [i x] ps IH]; simpl; [reflexivity |].
  destruct (x =? l)%nat; simpl; now rewrite IH.
Qed.

Lemma In_enumerate {A} (l : list A) i x :
  In (i, x) (enumerate l) <-> nth_error l i = Some x.
Proof.
  split.
  - intros H. apply In_nth_error in H. destruct H as [n Hn].
    rewrite enumerate_nth in Hn.
    destruct (nth_error l n) as [y |] eqn:E; simpl in Hn; [| discriminate].
    inversion Hn; subst. exact E.
  - intros H. apply (nth_error_In _ i). rewrite enumerate_nth, H. reflexivity.
Qed.

(** A position is in the class of a label exactly when it carries the
    label. *)
Lemma In_label_class labels l i :
  In i (label_class labels l) <-> nth_error labels i = Some l.
Proof.
  unfold label_class. rewrite in_map_iff. split.
  - intros ([i' x] & Hi & Hin). simpl in Hi. subst i'.
    apply filter_In in Hin. destruct Hin as [Hin Hx]. simpl in Hx.
    apply Nat.eqb_eq in Hx. subst x. now apply In_enumerate.
  - intros H. exists (i, l). split; [reflexivity |].
    apply filter_In. split; [now apply In_enumerate |].
    simpl. apply Nat.eqb_refl.
Qed.

Lemma enumerate_positions {A} (l : list A) :
  map fst (enumerate l) = seq 0 (List.length l).
Proof.
  unfold enumerate.
  generalize 0%nat. induction l as [| x l IH]; intros s; simpl.
  - reflexivity.
  - now rewrite IH.
Qed.

Lemma In_group_by_label labels c :
  In c (group_by_label labels) <->
  exists l, In l labels /\ c = label_class labels l.
Proof.
  rewrite group_by_label_appended, in_map_iff. split.
  - intros ([l c'] & Hc & Hin). simpl in Hc. subst c'.
    apply (appended_In Nat.eqb Nat.eqb_eq) in Hin. destruct Hin as [Hne Hc].
    rewrite <- label_class_values_of in Hc. exists l. split; [| exact Hc].
    subst c. destruct (label_class labels l) as [| i r] eqn:E; [congruence |].
    assert (Hi : In i (label_class labels l)) by (rewrite E; now left).
    apply In_label_class in Hi. eapply nth_error_In; eauto.
  - intros (l & Hl & ->). exists (l, label_class labels l).
    split; [reflexivity |].
    apply (appended_In Nat.eqb Nat.eqb_eq).
    rewrite <- label_class_values_of. split; [| reflexivity].
    apply In_nth_error in Hl. destruct Hl as [i Hi].
    apply In_label_class in Hi. intros E. now rewrite E in Hi.
Qed.

Lemma group_by_label_concat labels :
  Permutation (List.concat (group_by_label labels)) (seq 0 (List.length labels)).
Proof.
  rewrite group_by_label_appended, (appended_concat Nat.eqb). simpl.
  rewrite map_map. simpl. now rewrite enumerate_positions.
Qed.

(** X8.  The clusters are the classes of the labelling: every position
    is in one cluster and in one only; a cluster holds the positions of
    one label, all of them, in increasing order of position; and two
    positions share a cluster exactly when they carry the same label. *)
Theorem clusters_are_the_label_classes (labels : list nat) :
  Permutation (List.concat (group_by_label labels)) (seq 0 (List.length labels)) /\
  (forall c, In c (group_by_label labels) <->
             exists l, In l labels /\ c = label_class labels l) /\
  (forall i j li lj,
      nth_error labels i = Some li -> nth_error labels j = Some lj ->
      ((exists c, In c (group_by_label labels) /\ In i c /\ In j c)
       <-> li = lj)).
Proof.
  split; [apply group_by_label_concat |].
  split; [apply In_group_by_label |].
  intros i j li lj Hi Hj. split.
  - intros (c & Hc & Hic & Hjc).
    apply In_group_by_label in Hc. destruct Hc as (l & _ & ->).
    apply In_label_class in Hic, Hjc. congruence.
  - intros <-. exists (label_class labels li). split.
    + apply In_group_by_label. exists li. split; [| reflexivity].
      eapply nth_error_In; eauto.
    + split; now apply In_label_class.
Qed.

(** *** The questions of each topic *)

Lemma add_to_topic_append_to topic e d :
  add_to_topic topic e d = append_to String.eqb topic e d.
Proof.
  induction d as [| [k es] d IH]; simpl; [reflexivity |].
  now rewrite IH.
Qed.

Lemma organize_by_topic_appended mapped :
  organize_by_topic mapped =
  appended String.eqb
           (filter (fun p => negb (String.eqb (fst p) FALLBACK_TOPIC))
                   (topic_mentions mapped))
           [].
Proof.
  unfold organize_by_topic, topic_mentions, appended.
  generalize (@nil (string * list TopicQuestion)).
  induction mapped as [| q mapped IH]; intros acc; simpl; [reflexivity |].
  rewrite filter_app, fold_left_app, IH. f_equal.
  generalize acc.
  induction (mapped_topics q) as [| t ts IHt]; intros a; simpl;
    [reflexivity |].
  destruct (String.eqb (st_topic t) FALLBACK_TOPIC); simpl.
  - apply IHt.
  - rewrite add_to_topic_append_to. apply IHt.
Qed.

Lemma values_of_without_fallback topic (ps : list (string * TopicQuestion)) :
  values_of String.eqb topic
            (filter (fun p => negb (String.eqb (fst p) FALLBACK_TOPIC)) ps)
  = if String.eqb topic FALLBACK_TOPIC then []
    else values_of String.eqb topic ps.
Proof.
  unfold values_of.
  induction ps as [| [k e] ps IH]; simpl.
  - now destruct (String.eqb topic FALLBACK_TOPIC).
  - destruct (String.eqb_spec k FALLBACK_TOPIC) as [Hk | Hk]; simpl.
    + rewrite IH. destruct (String.eqb_spec topic FALLBACK_TOPIC) as [Ht | Ht];
        [reflexivity |].
      destruct (String.eqb_spec k topic); [congruence | reflexivity].
    + destruct (String.eqb_spec k topic) as [Hkt | Hkt]; simpl; rewrite IH.
      * subst k. destruct (String.eqb_spec topic FALLBACK_TOPIC);
          [contradiction | reflexivity].
      * reflexivity.
Qed.

Lemma In_organize_by_topic mapped topic qs :
  In (topic, qs) (organize_by_topic mapped) <->
  topic <> FALLBACK_TOPIC /\ qs <> [] /\ qs = questions_of topic mapped.
Proof.
  rewrite organize_by_topic_appended, (appended_In String.eqb String.eqb_eq).
  rewrite values_of_without_fallback. unfold questions_of.
  destruct (String.eqb_spec topic FALLBACK_TOPIC) as [Ht | Ht].
  - split; [intros [H1 H2]; congruence | intros [H _]; contradiction].
  - tauto.
Qed.

Lemma organize_by_topic_nodup mapped :
  NoDup (map fst (organize_by_topic mapped)).
Proof.
  rewrite organize_by_topic_appended.
  apply (appended_well_keyed String.eqb String.eqb_eq). split; constructor.
Qed.

(** X9.  Step 1 of [compute_canonical_questions] builds one entry per
    topic name that some question is mapped to, the fallback topic
    excepted; no name is a key twice; the entry of a topic lists the
    questions mapped to it in the order of the mapped results, a question
    once for each of its mappings to the topic. *)
Theorem topics_collect_their_questions (mapped : list MappedQuestion) :
  NoDup (map fst (organize_by_topic mapped)) /\
  (forall topic qs,
      In (topic, qs) (organize_by_topic mapped) <->
      topic <> FALLBACK_TOPIC /\ qs <> [] /\ qs = questions_of topic mapped) /\
  (forall topic,
      In topic (map fst (organize_by_topic mapped)) <->
      topic <> FALLBACK_TOPIC /\
      exists q t, In q mapped /\ In t (mapped_topics q) /\ st_topic t = topic).
Proof.
  split; [apply organize_by_topic_nodup |].
  split; [apply In_organize_by_topic |].
  intros topic. rewrite in_map_iff. split.
  - intros ([k qs] & Hk & Hin). simpl in Hk. subst k.
    apply In_organize_by_topic in Hin. destruct Hin as (Ht & Hne & Hqs).
    split; [exact Ht |]. subst qs. unfold questions_of in Hne.
    apply (values_of_nonempty String.eqb String.eqb_eq) in Hne.
    apply in_map_iff in Hne. destruct Hne as ([k e] & Hk & Hin).
    simpl in Hk. subst k. unfold topic_mentions in Hin.
    apply in_flat_map in Hin. destruct Hin as (q & Hq & Hin).
    apply in_map_iff in Hin. destruct Hin as (t & Heq & Hin).
    inversion Heq; subst. eauto.
  - intros (Ht & q & t & Hq & Hin & Htopic).
    exists (topic, questions_of topic mapped). split; [reflexivity |].
    apply In_organize_by_topic. split; [exact Ht |]. split; [| reflexivity].
    unfold questions_of.
    apply (values_of_nonempty String.eqb String.eqb_eq).
    apply in_map_iff. exists (topic, topic_entry q). split; [reflexivity |].
    unfold topic_mentions. apply in_flat_map. exists q. split; [exact Hq |].
    apply in_map_iff. exists t. split; [now rewrite Htopic | exact Hin].
Qed.

(** *** The order of strings *)

Lemma string_ltb_asym x y : String.ltb y x = true -> String.ltb x y = false.
Proof.
  unfold String.ltb. rewrite (String.compare_antisym x y).
  destruct (String.compare y x); simpl; congruence.
Qed.

Lemma string_le_trans a b c :
  String.ltb b a = false -> String.ltb c b = false -> String.ltb c a = false.
Proof.
  unfold String.ltb.
  destruct (String.compare c a) eqn:Eca; try reflexivity.
  destruct (String.compare b a) eqn:Eba; [| discriminate |].
  - apply String.compare_eq_iff in Eba. subst b. now rewrite Eca.
  - destruct (String.compare c b) eqn:Ecb; [| discriminate |].
    + apply String.compare_eq_iff in Ecb. subst c. congruence.
    + intros _ _. exfalso.
      assert (Hab : String.compare a b = Lt)
        by (rewrite String.compare_antisym, Eba; reflexivity).
      assert (Hbc : String.compare b c = Lt)
        by (rewrite String.compare_antisym, Ecb; reflexivity).
      apply String_as_OT.cmp_lt in Hab, Hbc.
      pose proof (String_as_OT.lt_trans _ _ _ Hab Hbc) as Hac.
      apply String_as_OT.cmp_lt in Hac. unfold String_as_OT.cmp in Hac.
      rewrite String.compare_antisym, Hac in Eca. discriminate.
Qed.

Lemma sorted_strings_sorted l : StronglySorted string_le (sorted_strings l).
Proof.
  apply (sort_stable_sorted String.ltb string_ltb_asym string_le_trans).
Qed.

Lemma more_occurrences_asym x y :
  more_occurrences y x = true -> more_occurrences x y = false.
Proof.
  unfold more_occurrences. rewrite Nat.ltb_lt, Nat.ltb_ge. lia.
Qed.

Lemma more_occurrences_trans a b c :
  more_occurrences b a = false -> more_occurrences c b = false ->
  more_occurrences c a = false.
Proof.
  unfold more_occurrences. rewrite !Nat.ltb_ge. lia.
Qed.

Lemma sort_by_occurrences_sorted gs :
  StronglySorted occurrences_descend (sort_stable more_occurrences gs).
Proof.
  eapply StronglySorted_weaken;
    [| apply (sort_stable_sorted more_occurrences more_occurrences_asym
                                 more_occurrences_trans)].
  intros a b H. unfold more_occurrences in H. apply Nat.ltb_ge in H.
  exact H.
Qed.

(** *** Lists *)

Lemma Forall2_In_l {A B} (R : A -> B -> Prop) l l' a :
  Forall2 R l l' -> In a l -> exists b, In b l' /\ R a b.
Proof.
  induction 1 as [| a0 b0 l l' HR _ IH]; simpl; intros Hin.
  - contradiction.
  - destruct Hin as [<- | Hin].
    + exists b0. auto.
    + destruct (IH Hin) as (b & Hb & HRb). exists b. auto.
Qed.

Lemma NoDup_app_disjoint {A} (l1 l2 : list A) a :
  NoDup (l1 ++ l2) -> In a l1 -> ~ In a l2.
Proof.
  induction l1 as [| x l1 IH]; simpl; intros Hnd Hin; [contradiction |].
  inversion Hnd as [| y l Hnotin Hnd']; subst.
  destruct Hin as [-> | Hin]; [| now apply IH].
  intros H. apply Hnotin. apply in_or_app. now right.
Qed.

Lemma concat_filter_incl {A} (p : list A -> bool) l a :
  In a (List.concat (filter p l)) -> In a (List.concat l).
Proof.
  rewrite !in_concat. intros (c & Hc & Ha). apply filter_In in Hc.
  exists c. tauto.
Qed.

Lemma NoDup_concat_filter {A} (p : list A -> bool) l :
  NoDup (List.concat l) -> NoDup (List.concat (filter p l)).
Proof.
  induction l as [| c l IH]; simpl; intros Hnd; [constructor |].
  pose proof (NoDup_app_remove_l _ _ Hnd) as Hl.
  destruct (p c); simpl; [| now apply IH].
  apply NoDup_app.
  - eapply NoDup_app_remove_r; eauto.
  - now apply IH.
  - intros a Ha Hin. apply concat_filter_incl in Hin.
    eapply NoDup_app_disjoint; eauto.
Qed.

Lemma list_sum_perm l l' : Permutation l l' -> list_sum l = list_sum l'.
Proof.
  induction 1; simpl; lia.
Qed.

(** Distinct positions below [n] are at most [n]. *)
Lemma NoDup_bounded_length n l :
  NoDup l -> Forall (fun i => (i < n)%nat) l -> (List.length l <= n)%nat.
Proof.
  intros Hnd Hall.
  rewrite <- (length_seq n 0) at 1. apply NoDup_incl_length; [exact Hnd |].
  intros i Hi. apply in_seq. rewrite Forall_forall in Hall.
  specialize (Hall i Hi). lia.
Qed.

(** A loop whose every iteration appends its own batch of calls to the
    log, whether it raises or not, has appended the batches of the
    iterations it started. *)
Lemma for_each_log {A B} (f : A -> M B) (calls : A -> oracle_log) l :
  (forall a log, exists res, f a log = ((log ++ calls a)%list, res)) ->
  forall log,
  exists k res,
    (k <= List.length l)%nat /\
    for_each f l log = ((log ++ flat_map calls (firstn k l))%list, res) /\
    (is_ok res -> k = List.length l).
Proof.
  intros Hf.
  induction l as [| a l IH]; intros log.
  - exists 0%nat, (inr []). simpl. unfold ret. rewrite app_nil_r. auto.
  - cbn [for_each]. unfold bind at 1.
    destruct (Hf a log) as (res & ->).
    destruct res as [e | r].
    + exists 1%nat, (inl e). simpl. rewrite app_nil_r.
      split; [lia |]. split; [reflexivity |]. intros [].
    + destruct (IH (log ++ calls a)%list) as (k & res & Hk & Heq & Hok).
      unfold bind at 1. rewrite Heq. rewrite <- app_assoc.
      destruct res as [e | rs].
      * exists (S k), (inl e). simpl. split; [lia |].
        split; [reflexivity |]. intros [].
      * exists (S k), (inr (r :: rs)). simpl. split; [lia |].
        split; [reflexivity |]. intros _. f_equal. now apply Hok.
Qed.

Section EngineMore.

Variable model_encode : string -> list Q.
Variable cosine_distance : list Q -> list Q -> Q.
Variable fit_predict : Q -> list (list Q) -> list nat.

(** *** One group *)

Lemma find_medoid_In cluster embs m :
  find_medoid cosine_distance cluster embs = inr m -> In m cluster.
Proof.
  unfold find_medoid. intros H.
  apply and_then_inv in H. destruct H as (members & _ & H).
  apply and_then_inv in H. destruct H as (k & _ & H).
  apply item_inv in H. eapply nth_error_In; eauto.
Qed.

Lemma collect_references_inv questions cluster :
  forall refs,
    collect (fun i => q <-? item questions i ;; inr (reference_of q)) cluster
    = inr refs ->
    exists members,
      Forall2 (fun i q => nth_error questions i = Some q) cluster members /\
      refs = map reference_of members.
Proof.
  induction cluster as [| i cluster IH]; simpl; intros refs H.
  - inversion H. exists []. split; constructor.
  - apply and_then_inv in H. destruct H as (r & Hr & H).
    apply and_then_inv in Hr. destruct Hr as (q & Hq & Hr).
    inversion Hr; subst; clear Hr.
    apply and_then_inv in H. destruct H as (rs & Hrs & H).
    inversion H; subst; clear H.
    destruct (IH _ Hrs) as (ms & HF & ->).
    exists (q :: ms). split; [| reflexivity].
    constructor; [now apply item_inv | exact HF].
Qed.

(** A group names the text of one member of its cluster and cites every
    member. *)
Lemma canonical_group_shape questions embs cluster g :
  canonical_group cosine_distance questions embs cluster = inr g ->
  exists members medoid,
    Forall2 (fun i q => nth_error questions i = Some q) cluster members /\
    In medoid members /\
    canonical_question g = tq_text medoid /\
    occurrences g = List.length cluster /\
    references g = sorted_strings (map reference_of members).
Proof.
  unfold canonical_group. intros H.
  apply and_then_inv in H. destruct H as (m & Hm & H).
  apply and_then_inv in H. destruct H as (medoid & Hq & H).
  apply and_then_inv in H. destruct H as (refs & Hrefs & H).
  inversion H; subst; clear H. simpl.
  apply collect_references_inv in Hrefs. destruct Hrefs as (members & HF & ->).
  exists members, medoid. split; [exact HF |]. split; [| auto].
  apply find_medoid_In in Hm. apply item_inv in Hq.
  destruct (Forall2_In_l _ _ _ _ HF Hm) as (q & Hin & Hnth).
  congruence.
Qed.

(** *** One topic *)

(** The labels the clustering gives to the questions of a topic. *)
Lemma cluster_questions_run questions log :
  cluster_questions_within_topic model_encode cosine_distance fit_predict
                                 questions log
  = ((log ++ [map tq_text questions])%list,
     inr (if (List.length questions <? 2)%nat then [[0%nat]]
          else group_by_label
                 (fit_predict DISTANCE_THRESHOLD
                    (pairwise_distances cosine_distance
                       (map model_encode (map tq_text questions)))),
          map model_encode (map tq_text questions))).
Proof.
  unfold cluster_questions_within_topic, bind, encode, ret.
  now destruct (List.length questions <? 2)%nat.
Qed.

Lemma canonical_for_topic_log entry log :
  exists res,
    canonical_for_topic model_encode cosine_distance fit_predict entry log
    = ((log ++ clustering_calls [entry])%list, res).
Proof.
  unfold canonical_for_topic, clustering_calls. simpl.
  destruct (List.length (snd entry) <? 2)%nat eqn:E; simpl.
  - unfold ret. rewrite app_nil_r. eauto.
  - unfold bind at 1. rewrite cluster_questions_run, E. cbn [fst snd].
    unfold bind, lift, ret.
    destruct (canonical_groups _ _ _ _) as [e | [| g gs]]; eauto.
Qed.

Lemma canonical_for_topic_run entry log log' topic groups :
  canonical_for_topic model_encode cosine_distance fit_predict entry log
  = (log', inr (Some (topic, groups))) ->
  topic = fst entry /\
  (2 <= List.length (snd entry))%nat /\
  exists gs,
    canonical_groups cosine_distance (snd entry)
      (map model_encode (map tq_text (snd entry)))
      (group_by_label
         (fit_predict DISTANCE_THRESHOLD
            (pairwise_distances cosine_distance
               (map model_encode (map tq_text (snd entry))))))
    = inr gs /\
    gs <> [] /\
    groups = sort_stable more_occurrences gs.
Proof.
  unfold canonical_for_topic.
  destruct (List.length (snd entry) <? 2)%nat eqn:E; [discriminate |].
  unfold bind at 1. rewrite cluster_questions_run, E. cbn [fst snd].
  unfold bind, lift, ret.
  destruct (canonical_groups _ _ _ _) as [e | [| g gs]] eqn:Hgs;
    try discriminate.
  intros H. inversion H; subst; clear H.
  split; [reflexivity |]. split; [now apply Nat.ltb_ge in E |].
  exists (g :: gs). split; [reflexivity |]. split; [discriminate | reflexivity].
Qed.

Lemma canonical_for_topic_key entry log log' added :
  canonical_for_topic model_encode cosine_distance fit_predict entry log
  = (log', inr added) ->
  added = None \/ exists groups, added = Some (fst entry, groups).
Proof.
  destruct added as [[topic groups] |]; [| now left].
  intros H. apply canonical_for_topic_run in H. destruct H as [-> _].
  right. eauto.
Qed.

(** *** The output *)

Lemma canonical_output_entries mapped log log' out :
  compute_canonical_questions model_encode cosine_distance fit_predict
                              mapped log = (log', inr out) ->
  exists added,
    Forall2 (fun e a =>
               exists l1 l2,
                 canonical_for_topic model_encode cosine_distance fit_predict
                                     e l1 = (l2, inr a))
            (organize_by_topic mapped) added /\
    out = flat_map present added.
Proof.
  unfold compute_canonical_questions. intros H.
  apply bind_inv in H. destruct H as (l1 & added & Hadded & H).
  inversion H; subst; clear H.
  apply for_each_inv in Hadded. eauto.
Qed.

Lemma present_keys (entries : list (string * list TopicQuestion))
  (added : list (option (string * list CanonicalGroup))) :
  Forall2 (fun e a => a = None \/ exists g, a = Some (fst e, g))
          entries added ->
  (forall k, In k (map fst (flat_map present added)) ->
             In k (map fst entries)) /\
  (NoDup (map fst entries) -> NoDup (map fst (flat_map present added))).
Proof.
  induction 1 as [| e a entries added Ha _ [IHin IHnd]]; simpl.
  - split; [tauto | intros _; constructor].
  - destruct Ha as [-> | [g ->]]; simpl.
    + split; [intros k Hk; right; now apply IHin |].
      intros Hnd. inversion Hnd; subst. now apply IHnd.
    + split.
      * intros k [Hk | Hk]; [now left | right; now apply IHin].
      * intros Hnd. inversion Hnd as [| x l Hnotin Hnd']; subst.
        constructor; [| now apply IHnd].
        intros Hk. apply Hnotin. now apply IHin.
Qed.

(** An entry of the output comes from the entry of its topic. *)
Lemma canonical_output_entry mapped log log' out topic groups :
  compute_canonical_questions model_encode cosine_distance fit_predict
                              mapped log = (log', inr out) ->
  In (topic, groups) out ->
  topic <> FALLBACK_TOPIC /\
  (2 <= List.length (questions_of topic mapped))%nat /\
  exists gs,
    canonical_groups cosine_distance (questions_of topic mapped)
      (map model_encode (map tq_text (questions_of topic mapped)))
      (group_by_label
         (fit_predict DISTANCE_THRESHOLD
            (pairwise_distances cosine_distance
               (map model_encode (map tq_text (questions_of topic mapped))))))
    = inr gs /\
    gs <> [] /\
    groups = sort_stable more_occurrences gs.
Proof.
  intros H Hout.
  apply canonical_output_entries in H. destruct H as (added & Hadded & ->).
  apply in_flat_map_present in Hout.
  destruct (Forall2_In_r _ _ _ _ Hadded Hout)
    as ([k qs] & Hentry & la & lb & Hrun).
  apply canonical_for_topic_run in Hrun. simpl in Hrun.
  destruct Hrun as (-> & Hlen & gs & Hgs & Hne & ->).
  apply In_organize_by_topic in Hentry. destruct Hentry as (Ht & _ & ->).
  split; [exact Ht |]. split; [exact Hlen |]. eauto.
Qed.

Lemma canonical_groups_occurrences questions embs clusters :
  forall gs,
    canonical_groups cosine_distance questions embs clusters = inr gs ->
    list_sum (map occurrences gs)
    = List.length
        (List.concat
           (filter (fun cluster => negb (List.length cluster <? 2)%nat)
                   clusters)) /\
    Forall (fun i => (i < List.length questions)%nat)
           (List.concat
              (filter (fun cluster => negb (List.length cluster <? 2)%nat)
                      clusters)).
Proof.
  intros gs H. apply canonical_groups_inv in H.
  induction H as [| c g cs gs Hg _ [IHsum IHall]]; simpl.
  - split; [reflexivity | constructor].
  - apply canonical_group_shape in Hg.
    destruct Hg as (members & medoid & HF & _ & _ & Hocc & _).
    rewrite length_app, Hocc, IHsum. split; [reflexivity |].
    apply Forall_app. split; [| exact IHall].
    apply Forall_forall. intros i Hi.
    destruct (Forall2_In_l _ _ _ _ HF Hi) as (q & _ & Hq).
    apply nth_error_Some. congruence.
Qed.

Lemma NoDup_concat_In {A} (l : list (list A)) c :
  NoDup (List.concat l) -> In c l -> NoDup c.
Proof.
  induction l as [| c0 l IH]; simpl; intros Hnd Hin; [contradiction |].
  destruct Hin as [-> | Hin].
  - eapply NoDup_app_remove_r; eauto.
  - apply IH; [| exact Hin]. eapply NoDup_app_remove_l; eauto.
Qed.

Lemma group_by_label_nodup labels :
  NoDup (List.concat (group_by_label labels)).
Proof.
  eapply Permutation_NoDup.
  - symmetry. apply group_by_label_concat.
  - apply seq_NoDup.
Qed.

(** What a returned output says of one of its groups. *)
Lemma canonical_output_group mapped log log' out topic groups g :
  compute_canonical_questions model_encode cosine_distance fit_predict
                              mapped log = (log', inr out) ->
  In (topic, groups) out -> In g groups ->
  exists cluster members medoid,
    NoDup cluster /\
    Forall2 (fun i q => nth_error (questions_of topic mapped) i = Some q)
            cluster members /\
    In medoid members /\
    canonical_question g = tq_text medoid /\
    occurrences g = List.length members /\
    references g = sorted_strings (map reference_of members).
Proof.
  intros H Hout Hg.
  destruct (canonical_output_entry _ _ _ _ _ _ H Hout)
    as (_ & _ & gs & Hgs & _ & ->).
  apply (Permutation_in _ (sort_stable_perm more_occurrences gs)) in Hg.
  apply canonical_groups_inv in Hgs.
  destruct (Forall2_In_r _ _ _ _ Hgs Hg) as (c & Hc & Hcg).
  apply filter_In in Hc. destruct Hc as [Hc _].
  apply canonical_group_shape in Hcg.
  destruct Hcg as (members & medoid & HF & Hmed & Hq & Hocc & Hrefs).
  exists c, members, medoid.
  split; [exact (NoDup_concat_In _ _ (group_by_label_nodup _) Hc) |].
  split; [exact HF |]. split; [exact Hmed |]. split; [exact Hq |].
  split; [| exact Hrefs].
  rewrite Hocc. eapply Forall2_length; eauto.
Qed.

(** X10.  A group of the returned output describes one cluster of
    distinct positions in the list of its topic's questions: its
    canonical question is the text of a member of the cluster, its
    references are the members' [paper - number] labels, one per member,
    in ascending order, and [occurrences] is their number. *)
Theorem groups_cite_every_member mapped log log' out topic groups g :
  compute_canonical_questions model_encode cosine_distance fit_predict
                              mapped log = (log', inr out) ->
  In (topic, groups) out -> In g groups ->
  exists cluster members medoid,
    NoDup cluster /\
    Forall2 (fun i q => nth_error (questions_of topic mapped) i = Some q)
            cluster members /\
    In medoid members /\
    canonical_question g = tq_text medoid /\
    In (reference_of medoid) (references g) /\
    Permutation (references g) (map reference_of members) /\
    StronglySorted string_le (references g) /\
    List.length (references g) = occurrences g /\
    occurrences g = List.length cluster.
Proof.
  intros H Hout Hg.
  destruct (canonical_output_group _ _ _ _ _ _ _ H Hout Hg)
    as (c & members & medoid & Hnd & HF & Hmed & Hq & Hocc & Hrefs).
  assert (Hperm : Permutation (references g) (map reference_of members))
    by (rewrite Hrefs; apply sort_stable_perm).
  exists c, members, medoid.
  split; [exact Hnd |]. split; [exact HF |]. split; [exact Hmed |].
  split; [exact Hq |]. split.
  { eapply Permutation_in; [symmetry; exact Hperm |]. now apply in_map. }
  split; [exact Hperm |]. split.
  { rewrite Hrefs. apply sorted_strings_sorted. }
  split.
  { rewrite (Permutation_length Hperm), length_map. now symmetry. }
  rewrite Hocc. symmetry. eapply Forall2_length; eauto.
Qed.

(** X11.  The returned output has one entry per topic at most, never
    for the fallback topic; an entry holds at least one group, the groups
    in descending order of [occurrences]; and since the clusters are
    disjoint, the occurrences of a topic's groups add up to no more than
    the topic's questions. *)
Theorem output_is_ranked_by_occurrences mapped log log' out :
  compute_canonical_questions model_encode cosine_distance fit_predict
                              mapped log = (log', inr out) ->
  NoDup (map fst out) /\
  forall topic groups,
    In (topic, groups) out ->
    topic <> FALLBACK_TOPIC /\
    groups <> [] /\
    StronglySorted occurrences_descend groups /\
    (list_sum (map occurrences groups)
     <= List.length (questions_of topic mapped))%nat.
Proof.
  intros H. split.
  - destruct (canonical_output_entries _ _ _ _ H) as (added & Hadded & ->).
    apply (present_keys (organize_by_topic mapped) added).
    + eapply Forall2_impl; [| exact Hadded].
      intros e a (la & lb & Hrun). eapply canonical_for_topic_key; eauto.
    + apply organize_by_topic_nodup.
  - intros topic groups Hout.
    destruct (canonical_output_entry _ _ _ _ _ _ H Hout)
      as (Ht & _ & gs & Hgs & Hne & ->).
    split; [exact Ht |]. split.
    { intros E. apply Hne. apply length_zero_iff_nil.
      rewrite <- (Permutation_length (sort_stable_perm more_occurrences gs)).
      now rewrite E. }
    split; [apply sort_by_occurrences_sorted |].
    rewrite (list_sum_perm _ _
               (Permutation_map occurrences
                                (sort_stable_perm more_occurrences gs))).
    destruct (canonical_groups_occurrences _ _ _ _ Hgs) as [-> Hall].
    apply NoDup_bounded_length; [| exact Hall].
    apply NoDup_concat_filter, group_by_label_nodup.
Qed.

Lemma clustering_calls_flat_map entries :
  clustering_calls entries
  = flat_map (fun e => clustering_calls [e]) entries.
Proof.
  unfold clustering_calls.
  induction entries as [| e entries IH]; simpl; [reflexivity |].
  destruct (List.length (snd e) <? 2)%nat; simpl; now rewrite IH.
Qed.


(** X12.  [compute_canonical_questions] calls the oracle once for each
    topic that has two questions or more, in the order of the topics, on
    the raw texts of the topic's questions; topics with one question
    never reach it.  A run that raises stopped in some topic, after that
    topic's call. *)
Theorem oracle_is_called_once_per_repeated_topic mapped log :
  exists k,
    (k <= List.length (organize_by_topic mapped))%nat /\
    fst (compute_canonical_questions model_encode cosine_distance fit_predict
                                     mapped log)
    = (log ++ clustering_calls (firstn k (organize_by_topic mapped)))%list /\
    (is_ok (snd (compute_canonical_questions model_encode cosine_distance
                                             fit_predict mapped log)) ->
     fst (compute_canonical_questions model_encode cosine_distance fit_predict
                                      mapped log)
     = (log ++ clustering_calls (organize_by_topic mapped))%list).
Proof.
  unfold compute_canonical_questions.
  destruct (for_each_log
              (canonical_for_topic model_encode cosine_distance fit_predict)
              (fun e => clustering_calls [e])
              (organize_by_topic mapped)
              (canonical_for_topic_log) log)
    as (k & res & Hk & Heq & Hok).
  unfold bind. rewrite Heq. rewrite <- clustering_calls_flat_map.
  exists k. split; [exact Hk |].
  destruct res as [e | added]; cbn [fst snd ret].
  - split; [reflexivity |]. intros [].
  - split; [reflexivity |]. intros _.
    rewrite (Hok I), firstn_all. reflexivity.
Qed.

End EngineMore.

(** ** The statements at concrete inputs *)

Import Fixtures.
Local Open Scope string_scope.

(** X10 on the two questions on adders, which the stub clusters
    together. *)
Lemma groups_cite_every_member_witness :
  exists log' out groups g,
    compute_canonical_questions constant_oracle flat_distance one_cluster
                                adder_questions [] = (log', inr out) /\
    In ("Adders", groups) out /\ In g groups /\
    exists cluster members medoid,
      NoDup cluster /\
      Forall2 (fun i q =>
                 nth_error (questions_of "Adders" adder_questions) i = Some q)
              cluster members /\
      In medoid members /\
      canonical_question g = tq_text medoid /\
      In (reference_of medoid) (references g) /\
      Permutation (references g) (map reference_of members) /\
      StronglySorted string_le (references g) /\
      List.length (references g) = occurrences g /\
      occurrences g = List.length cluster.
Proof.
  eexists. eexists. eexists. eexists.
  assert (Hrun : compute_canonical_questions constant_oracle flat_distance
                   one_cluster adder_questions []
                 = (_, inr [("Adders", [_])]))
    by (vm_compute; reflexivity).
  split; [exact Hrun |]. split; [left; reflexivity |].
  split; [left; reflexivity |].
  exact (groups_cite_every_member constant_oracle flat_distance one_cluster
           _ _ _ _ _ _ _ Hrun (or_introl eq_refl) (or_introl eq_refl)).
Defined.

(** X11 on the same run. *)
Lemma output_is_ranked_by_occurrences_witness :
  exists log' out,
    compute_canonical_questions constant_oracle flat_distance one_cluster
                                adder_questions [] = (log', inr out) /\
    out <> [] /\
    NoDup (map fst out) /\
    forall topic groups,
      In (topic, groups) out ->
      topic <> FALLBACK_TOPIC /\
      groups <> [] /\
      StronglySorted occurrences_descend groups /\
      (list_sum (map occurrences groups)
       <= List.length (questions_of topic adder_questions))%nat.
Proof.
  eexists. eexists.
  assert (Hrun : compute_canonical_questions constant_oracle flat_distance
                   one_cluster adder_questions []
                 = (_, inr (_ :: _)))
    by (vm_compute; reflexivity).
  split; [exact Hrun |]. split; [discriminate |].
  exact (output_is_ranked_by_occurrences constant_oracle flat_distance
           one_cluster _ _ _ _ Hrun).
Defined.

End CanonicalEngineMore.

(** * The mapping stage followed by the canonical engine *)

Module PipelineMore.

Import Text Num TopicMapper CanonicalEngine PipelineSpec CanonicalSpec.
Import NumFacts TopicMapperFacts CanonicalEngineFacts.
Import TopicMapperMore CanonicalEngineMore.
Local Open Scope string_scope.

Section RunPipeline.

Variable model_encode : string -> list Q.
Variable token_set_ratio : string -> string -> Q.
Variable cosine_distance : list Q -> list Q -> Q.
Variable fit_predict : Q -> list (list Q) -> list nat.

(** A topic [select_topics] returns is a main topic of the syllabus. *)
Lemma selected_topics_are_main_topics mods qtext q allowed selected t :
  select_topics token_set_ratio (built_topic_selector model_encode mods)
                qtext q allowed = inr selected ->
  In t selected ->
  exists m main,
    In m mods /\ In main (main_topics m) /\
    st_topic t = main_topic main /\ st_module_id t = module_id m.
Proof.
  rewrite select_topics_built. intros H Hin.
  inversion H; subst; clear H.
  apply rank_topics_incl in Hin. unfold candidates in Hin.
  apply in_map_iff in Hin. destruct Hin as (r & <- & Hr).
  apply surviving_rows_In in Hr. destruct Hr as (Hr & _).
  unfold topic_rows in Hr. apply in_flat_map in Hr.
  destruct Hr as (m & Hm & Hr). apply in_map_iff in Hr.
  destruct Hr as (main & <- & Hmain). exists m, main. simpl. auto.
Qed.

(** A mapped topic is the fallback or a main topic of the syllabus. *)
Lemma mapped_topics_are_main_topics questions mods title log log' mapped :
  map_questions_to_topics model_encode token_set_ratio questions mods title log
  = (log', inr mapped) ->
  forall r t,
    In r mapped -> In t (mapped_topics r) ->
    st_topic t = FALLBACK_TOPIC \/
    exists m main,
      In m mods /\ In main (main_topics m) /\
      st_topic t = main_topic main /\ st_module_id t = module_id m.
Proof.
  rewrite map_questions_to_topics_unfold. intros H r t Hr Ht.
  apply for_each_inv in H.
  destruct (Forall2_In_r _ _ _ _ H Hr) as (q & _ & la & lb & Hq).
  apply (map_question_built_inv model_encode token_set_ratio) in Hq.
  destruct Hq as (sel_mods & selected & _ & Hne & Htopics & Heq).
  rewrite Heq in Ht. apply allocate_marks_In in Ht.
  destruct Ht as (t0 & Ht0 & Hid & Htopic & _). rewrite Hid, Htopic.
  destruct selected as [| t1 selected].
  - destruct sel_mods as [| sm sel_mods]; [now elim Hne |].
    simpl in Ht0. destruct Ht0 as [<- | []]. now left.
  - right. eapply selected_topics_are_main_topics; [exact Htopics |].
    destruct sel_mods; exact Ht0.
Qed.



End RunPipeline.

(** ** The statement at a concrete input *)

Import Fixtures MoreFixtures.


End PipelineMore.

(** * Further properties of the text functions *)

Module TextMore.

Import Text TopicMapper TextSpec.
Local Open Scope string_scope.

(** *** Strings as lists of characters *)

Lemma sall_append p s1 s2 :
  sall p (s1 ++ s2) = sall p s1 && sall p s2.
Proof.
  induction s1 as [| c s1 IH]; simpl; [reflexivity |].
  now rewrite IH, andb_assoc.
Qed.

Lemma sall_impl (p p' : ascii -> bool) s :
  (forall c, p c = true -> p' c = true) -> sall p s = true -> sall p' s = true.
Proof.
  intros Himp. induction s as [| c s IH]; simpl; [reflexivity |].
  rewrite !andb_true_iff. intros [Hc Hs]. auto.
Qed.

Lemma sall_smap p f s : sall p (smap f s) = sall (fun c => p (f c)) s.
Proof.
  induction s as [| c s IH]; simpl; [reflexivity | now rewrite IH].
Qed.

Lemma sall_sfilter p q s :
  sall p s = true -> sall (fun c => q c && p c) (sfilter q s) = true.
Proof.
  induction s as [| c s IH]; simpl; [reflexivity |].
  rewrite andb_true_iff. intros [Hc Hs].
  destruct (q c) eqn:E; simpl; [| now apply IH].
  now rewrite E, Hc, IH.
Qed.

Lemma string_of_list_app l1 l2 :
  string_of_list_ascii (l1 ++ l2)
  = string_of_list_ascii l1 ++ string_of_list_ascii l2.
Proof.
  induction l1 as [| c l1 IH]; simpl; [reflexivity | now rewrite IH].
Qed.

Lemma length_append s1 s2 :
  String.length (s1 ++ s2) = (String.length s1 + String.length s2)%nat.
Proof.
  induction s1 as [| c s1 IH]; simpl; [reflexivity | now rewrite IH].
Qed.

(** A string is empty, or its last character after the rest. *)
Lemma drop_last_spec s :
  (s = "" /\ drop_last s = "" /\ last_char s = None) \/
  exists c, s = drop_last s ++ String c "" /\ last_char s = Some c.
Proof.
  unfold drop_last, last_char, sreverse.
  pose proof (string_of_list_ascii_of_string s) as Hs.
  remember (list_ascii_of_string s) as l eqn:El. clear El. subst s.
  destruct (rev l) as [| c r] eqn:E; simpl.
  - left. apply (f_equal (@rev ascii)) in E. rewrite rev_involutive in E.
    simpl in E. rewrite E. auto.
  - right. exists c. rewrite list_ascii_of_string_of_list_ascii.
    apply (f_equal (@rev ascii)) in E. rewrite rev_involutive in E.
    simpl in E. rewrite E, string_of_list_app. auto.
Qed.

(** *** Words *)

Lemma split_aux_words (p : ascii -> bool) s :
  forall cur w,
    sall p cur = true ->
    sall (fun c => is_space c || p c) s = true ->
    In w (split_aux cur s) ->
    sall p w = true /\ w <> "".
Proof.
  induction s as [| c s IH]; simpl; intros cur w Hcur Hs Hin.
  - destruct cur; simpl in Hin; [contradiction |].
    destruct Hin as [<- | []]. split; [exact Hcur | discriminate].
  - apply andb_true_iff in Hs. destruct Hs as [Hc Hs].
    destruct (is_space c) eqn:E.
    + destruct cur as [| c0 cur]; simpl in Hin.
      * apply (IH "" w); [reflexivity | exact Hs | exact Hin].
      * destruct Hin as [<- | Hin]; [split; [exact Hcur | discriminate] |].
        apply (IH "" w); [reflexivity | exact Hs | exact Hin].
    + simpl in Hc. apply (IH (snoc cur c)); [| exact Hs | exact Hin].
      unfold snoc. rewrite sall_append, Hcur. simpl. now rewrite Hc.
Qed.

Lemma to_lower_not_upper c : is_upper (to_lower c) = false.
Proof.
  destruct c as [[] [] [] [] [] [] [] []]; reflexivity.
Qed.

Lemma lower_not_upper s : sall (fun c => negb (is_upper c)) (lower s) = true.
Proof.
  unfold lower. rewrite sall_smap.
  induction s as [| c s IH]; simpl; [reflexivity |].
  now rewrite to_lower_not_upper, IH.
Qed.

(** X14.  A token of [tokenize] has at least two characters, all of them
    lower-case letters, digits or underscores; it comes from a word of
    the lower-cased text, punctuation removed, that has three characters
    or more and is not a stop word, and it is that word without its final
    [s] if it has one. *)
Theorem tokens_are_lowercase_words text t :
  In t (tokenize text) ->
  (2 <= String.length t)%nat /\
  sall (fun c => is_word c && negb (is_upper c)) t = true /\
  exists w,
    In w (split (sfilter (fun c => is_word c || is_space c) (lower text))) /\
    mem w STOPWORDS = false /\
    (3 <= String.length w)%nat /\
    ((ends_with_s w = true /\ w = t ++ "s") \/
     (ends_with_s w = false /\ t = w)).
Proof.
  unfold tokenize. intros Hin.
  apply in_map_iff in Hin. destruct Hin as (w & Ht & Hw).
  apply filter_In in Hw. destruct Hw as [Hw Hkeep].
  apply andb_true_iff in Hkeep. destruct Hkeep as [Hstop Hlen].
  apply negb_true_iff in Hstop. apply Nat.ltb_lt in Hlen.
  assert (Hword : sall (fun c => is_word c && negb (is_upper c)) w = true).
  { unfold split in Hw.
    refine (proj1 (split_aux_words
                     (fun c => is_word c && negb (is_upper c))
                     _ "" w eq_refl _ Hw)).
    eapply sall_impl;
      [| apply (sall_sfilter (fun c => negb (is_upper c))
                             (fun c => is_word c || is_space c)),
           lower_not_upper].
    intros c Hc. apply andb_true_iff in Hc. destruct Hc as [Hc Hup].
    rewrite Hup. destruct (is_space c); [reflexivity |].
    rewrite orb_false_r in Hc. now rewrite Hc. }
  assert (Hcase : (ends_with_s w = true /\ w = t ++ "s") \/
                  (ends_with_s w = false /\ t = w)).
  { destruct (ends_with_s w) eqn:E; [left | right; auto].
    split; [reflexivity |]. subst t.
    unfold ends_with_s in E.
    destruct (drop_last_spec w) as [(_ & _ & Hlast) | (c & Heq & Hlast)];
      rewrite Hlast in E; [discriminate |].
    apply Nat.eqb_eq in E.
    assert (Hc : c = "s"%char).
    { rewrite <- (ascii_nat_embedding c). unfold code in E. now rewrite E. }
    now rewrite <- Hc. }
  split; [| split; [| exists w; auto]].
  - destruct Hcase as [[_ Heq] | [_ ->]]; [| lia].
    rewrite Heq, length_append in Hlen. simpl in Hlen. lia.
  - destruct Hcase as [[_ Heq] | [_ ->]]; [| exact Hword].
    rewrite Heq, sall_append in Hword.
    apply andb_true_iff in Hword. tauto.
Qed.

(** X14 on a question with a plural, a stop word and punctuation. *)
Lemma tokens_are_lowercase_words_witness :
  In "adder" (tokenize "Explain the Adders!") /\
  (2 <= String.length "adder")%nat /\
  sall (fun c => is_word c && negb (is_upper c)) "adder" = true /\
  exists w,
    In w (split (sfilter (fun c => is_word c || is_space c)
                         (lower "Explain the Adders!"))) /\
    mem w STOPWORDS = false /\
    (3 <= String.length w)%nat /\
    ((ends_with_s w = true /\ w = "adder" ++ "s") \/
     (ends_with_s w = false /\ "adder" = w)).
Proof.
  assert (Hin : In "adder" (tokenize "Explain the Adders!"))
    by (vm_compute; auto).
  split; [exact Hin |].
  exact (tokens_are_lowercase_words "Explain the Adders!" "adder" Hin).
Defined.

(** *** Normalised text *)

Lemma chars_append s1 s2 :
  list_ascii_of_string (s1 ++ s2)
  = (list_ascii_of_string s1 ++ list_ascii_of_string s2)%list.
Proof.
  induction s1 as [| c s1 IH]; simpl; [reflexivity | now rewrite IH].
Qed.

Lemma sall_chars p s : sall p s = forallb p (list_ascii_of_string s).
Proof.
  induction s as [| c s IH]; simpl; [reflexivity | now rewrite IH].
Qed.

Lemma chars_sreverse s :
  list_ascii_of_string (sreverse s) = rev (list_ascii_of_string s).
Proof. unfold sreverse. apply list_ascii_of_string_of_list_ascii. Qed.

Lemma chars_inj s1 s2 : list_ascii_of_string s1 = list_ascii_of_string s2 -> s1 = s2.
Proof.
  intros H. rewrite <- (string_of_list_ascii_of_string s1),
              <- (string_of_list_ascii_of_string s2).
  now rewrite H.
Qed.

Lemma sreverse_involutive s : sreverse (sreverse s) = s.
Proof.
  apply chars_inj. now rewrite !chars_sreverse, rev_involutive.
Qed.

Lemma head_char_chars s : head_char s = hd_error (list_ascii_of_string s).
Proof. now destruct s. Qed.

Lemma last_char_chars s : last_char s = hd_error (rev (list_ascii_of_string s)).
Proof.
  unfold last_char. rewrite <- chars_sreverse.
  now destruct (sreverse s).
Qed.

Lemma lstrip_chars s :
  exists p, list_ascii_of_string s = (p ++ list_ascii_of_string (lstrip s))%list.
Proof.
  induction s as [| c s [p Hp]]; simpl.
  - now exists [].
  - destruct (is_space c).
    + exists (c :: p). simpl. now rewrite Hp.
    + now exists [].
Qed.

Lemma lstrip_head s : blank (head_char (lstrip s)) = false.
Proof.
  induction s as [| c s IH]; simpl; [reflexivity |].
  destruct (is_space c) eqn:E; [exact IH | exact E].
Qed.

(** [strip] keeps a stretch of the string. *)
Lemma strip_chars s :
  exists p q,
    list_ascii_of_string s = (p ++ list_ascii_of_string (strip s) ++ q)%list.
Proof.
  unfold strip.
  destruct (lstrip_chars s) as [p1 H1].
  destruct (lstrip_chars (sreverse (lstrip s))) as [p2 H2].
  rewrite chars_sreverse in H2.
  exists p1, (rev p2). rewrite chars_sreverse, H1. f_equal.
  rewrite <- rev_app_distr, <- H2. now rewrite rev_involutive.
Qed.

Lemma strip_last s : blank (last_char (strip s)) = false.
Proof.
  unfold strip, last_char. rewrite sreverse_involutive.
  exact (lstrip_head (sreverse (lstrip s))).
Qed.

Lemma strip_head s : blank (head_char (strip s)) = false.
Proof.
  rewrite head_char_chars.
  destruct (list_ascii_of_string (strip s)) as [| c r] eqn:E; [reflexivity |].
  unfold strip in E. rewrite chars_sreverse in E.
  destruct (lstrip_chars (sreverse (lstrip s))) as [p2 H2].
  rewrite chars_sreverse in H2.
  apply (f_equal (@rev ascii)) in E. rewrite rev_involutive in E.
  rewrite E in H2. apply (f_equal (@rev ascii)) in H2.
  rewrite rev_involutive, rev_app_distr, rev_involutive in H2.
  simpl in H2. pose proof (lstrip_head s) as Hhead.
  rewrite head_char_chars, H2 in Hhead. exact Hhead.
Qed.

(** What holds of every character of a string holds in its stripped
    form, and so does the absence of whitespace pairs. *)
Lemma strip_sall p s : sall p s = true -> sall p (strip s) = true.
Proof.
  rewrite !sall_chars. destruct (strip_chars s) as (a & b & ->).
  rewrite !forallb_app, !andb_true_iff. tauto.
Qed.

Lemma strip_spaced_once s : spaced_once s -> spaced_once (strip s).
Proof.
  unfold spaced_once. intros H a c d b Heq.
  destruct (strip_chars s) as (p & q & Hs). rewrite Heq in Hs.
  apply (H (string_of_list_ascii p ++ a) c d
           (b ++ string_of_list_ascii q)).
  apply chars_inj. rewrite Hs, !chars_append. simpl.
  rewrite !chars_append, !list_ascii_of_string_of_list_ascii.
  rewrite <- !app_assoc. reflexivity.
Qed.

Lemma collapse_ws_head s :
  blank (head_char (collapse_ws true s)) = false.
Proof.
  induction s as [| c s IH]; simpl; [reflexivity |].
  destruct (is_space c) eqn:E; [exact IH | exact E].
Qed.

Lemma collapse_ws_spaces s :
  forall b, sall space_or_visible (collapse_ws b s) = true.
Proof.
  induction s as [| c s IH]; intros b; simpl; [reflexivity |].
  destruct (is_space c) eqn:E.
  - destruct b; [apply IH |]. simpl. apply IH.
  - simpl. unfold space_or_visible at 1. rewrite E. simpl. apply IH.
Qed.

Lemma collapse_ws_once s :
  forall b, spaced_once (collapse_ws b s).
Proof.
  unfold spaced_once.
  induction s as [| x s IH]; intros b a c d r Heq; simpl in Heq.
  - destruct a; discriminate.
  - destruct (is_space x) eqn:E.
    + destruct b; [eapply IH; eauto |].
      destruct a as [| y a]; simpl in Heq.
      * inversion Heq as [[Hc Hd]]. pose proof (collapse_ws_head s) as Hh.
        rewrite Hd in Hh. simpl in Hh. rewrite Hh. apply andb_false_r.
      * inversion Heq. eapply IH; eauto.
    + destruct a as [| y a]; simpl in Heq.
      * inversion Heq; subst. now rewrite E.
      * inversion Heq. eapply IH; eauto.
Qed.

Lemma to_lower_space c : is_space (to_lower c) = is_space c.
Proof.
  destruct c as [[] [] [] [] [] [] [] []]; reflexivity.
Qed.

Lemma to_lower_space_or_visible c :
  space_or_visible (to_lower c) = space_or_visible c.
Proof.
  destruct c as [[] [] [] [] [] [] [] []]; reflexivity.
Qed.

Lemma smap_decompose f s :
  forall a c d r,
    smap f s = a ++ String c (String d r) ->
    exists a' c' d' r',
      s = a' ++ String c' (String d' r') /\ f c' = c /\ f d' = d.
Proof.
  induction s as [| x s IH]; intros a c d r Heq; simpl in Heq.
  - destruct a; discriminate.
  - destruct a as [| y a]; simpl in Heq.
    + destruct s as [| x' s]; simpl in Heq; [discriminate |].
      inversion Heq; subst. exists "", x, x', s. auto.
    + inversion Heq as [[Hy Hrest]].
      destruct (IH _ _ _ _ Hrest) as (a' & c' & d' & r' & -> & Hc & Hd).
      exists (String x a'), c', d', r'. auto.
Qed.

Lemma lower_spaced_once s : spaced_once s -> spaced_once (lower s).
Proof.
  unfold spaced_once, lower. intros H a c d r Heq.
  apply smap_decompose in Heq.
  destruct Heq as (a' & c' & d' & r' & Hs & <- & <-).
  rewrite !to_lower_space. eapply H; eauto.
Qed.

(** X15.  Normalised text has no upper-case letter, no whitespace but
    single spaces between words, and neither starts nor ends with
    one. *)
Theorem normalized_text_is_clean text :
  sall (fun c => negb (is_upper c)) (normalize_text text) = true /\
  sall space_or_visible (normalize_text text) = true /\
  spaced_once (normalize_text text) /\
  blank (head_char (normalize_text text)) = false /\
  blank (last_char (normalize_text text)) = false.
Proof.
  unfold normalize_text.
  destruct (is_empty text).
  - repeat split. intros a c d b Heq. destruct a; discriminate.
  - cbv zeta. split; [| split; [| split; [| split]]].
    + apply strip_sall, lower_not_upper.
    + apply strip_sall. unfold lower. rewrite sall_smap.
      erewrite sall_impl; [reflexivity | | apply collapse_ws_spaces].
      intros c Hc. now rewrite to_lower_space_or_visible.
    + apply strip_spaced_once, lower_spaced_once, collapse_ws_once.
    + apply strip_head.
    + apply strip_last.
Qed.

End TextMore.

(** * The two range filters *)

Module FilterMore.

Import TopicMapper ModuleFilter ExamFilter.
Import TopicMapperFacts TopicMapperMore.
Local Open Scope Z_scope.

(** X17.  The console dialogue returns exactly the ranges
    [1 <= start <= end <= max], so it always raises when there is no
    module; a range it returns makes [filter_modules] return as soon as
    the syllabus has one module in the range, and that module is
    selected. *)
Theorem accepted_ranges_are_valid max (start_line end_line : option Z) :
  (forall a b,
      get_module_range max start_line end_line = inr (a, b) <->
      start_line = Some a /\ end_line = Some b /\ 1 <= a <= b /\ b <= max) /\
  (max < 1 ->
   exists e, get_module_range max start_line end_line = inl e) /\
  (forall a b modules m,
      get_module_range max start_line end_line = inr (a, b) ->
      In m modules -> a <= module_id m <= b ->
      exists selected,
        filter_modules modules a b = inr selected /\ In m selected).
Proof.
  assert (Hiff : forall a b,
             get_module_range max start_line end_line = inr (a, b) <->
             start_line = Some a /\ end_line = Some b /\
             1 <= a <= b /\ b <= max).
  { intros a b. unfold get_module_range.
    destruct start_line as [s |], end_line as [e |];
      try (split; [discriminate | intros (H1 & H2 & _); discriminate]).
    destruct (Z.ltb_spec s 1).
    { split; [discriminate |]. intros (H1 & H2 & H3 & H4).
      inversion H1; subst. lia. }
    unfold Z.gtb.
    destruct (Z.compare_spec e max) as [He | He | He];
      try (split; [discriminate |]; intros (H1 & H2 & H3 & H4);
           inversion H1; inversion H2; subst; lia).
    all: destruct (Z.compare_spec s e) as [Hs | Hs | Hs];
      try (split; [discriminate |]; intros (H1 & H2 & H3 & H4);
           inversion H1; inversion H2; subst; lia).
    all: split;
      [ intros H'; inversion H'; subst; repeat split; lia
      | intros (H1 & H2 & _); inversion H1; inversion H2; reflexivity ]. }
  split; [exact Hiff |]. split.
  - intros Hmax.
    assert (Hnone : forall a b,
               get_module_range max start_line end_line <> inr (a, b)).
    { intros a b E. apply Hiff in E. lia. }
    destruct (get_module_range max start_line end_line) as [e | [a b]];
      [eauto | now elim (Hnone a b)].
  - intros a b modules m _ Hm Hrange. unfold filter_modules.
    assert (Hin : In m (filter (in_range a b) modules)).
    { apply filter_In. split; [exact Hm |]. now apply in_range_iff. }
    destruct (filter (in_range a b) modules) as [| m0 rest];
      [contradiction |].
    eexists. split; [reflexivity | exact Hin].
Qed.

(** *** The filter of the mapped results *)

Section FilterFacts.

Context {Result Topic : Type}.
Variable get_topics : Result -> list Topic.
Variable with_topics : Result -> list Topic -> Result.
Variable get_module_id : Topic -> option Z.

Lemma sort_topics_filters start_module end_module topics :
  forall acc,
    fold_left (sort_topic get_module_id start_module end_module) topics acc
    = ((fst acc
        ++ filter (topic_in_range get_module_id start_module end_module)
                  topics)%list,
       (snd acc
        ++ filter (topic_out_of_range get_module_id start_module end_module)
                  topics)%list).
Proof.
  induction topics as [| t topics IH]; intros [ins outs]; simpl.
  - now rewrite !app_nil_r.
  - rewrite IH. unfold sort_topic, topic_in_range, topic_out_of_range.
    destruct (get_module_id t) as [id |]; [| reflexivity].
    destruct ((start_module <=? id) && (id <=? end_module)); simpl;
      now rewrite <- app_assoc.
Qed.

Lemma filter_nil_existsb {A} (p : A -> bool) l :
  filter p l = [] <-> existsb p l = false.
Proof.
  induction l as [| x l IH]; simpl; [tauto |].
  destruct (p x); simpl; [split; discriminate | exact IH].
Qed.

Lemma filter_cons_existsb {A} (p : A -> bool) l x xs :
  filter p l = x :: xs -> existsb p l = true.
Proof.
  intros H. destruct (existsb p l) eqn:E; [reflexivity |].
  apply filter_nil_existsb in E. congruence.
Qed.

Lemma filter_step_spec start_module end_module acc q :
  filter_step get_topics with_topics get_module_id start_module end_module
              acc q
  = ((fst acc
      ++ kept get_topics with_topics get_module_id start_module end_module q)
       %list,
     (snd acc
      ++ if wholly_out_of_range get_topics get_module_id
                                start_module end_module q
         then [q] else [])%list).
Proof.
  unfold filter_step, kept, wholly_out_of_range.
  rewrite sort_topics_filters. cbn [fst snd app].
  destruct (filter (topic_in_range get_module_id start_module end_module)
                   (get_topics q)) as [| t ts] eqn:Ein.
  - apply filter_nil_existsb in Ein. rewrite Ein. cbn [negb andb].
    destruct (filter (topic_out_of_range get_module_id start_module
                                         end_module)
                     (get_topics q)) as [| t ts] eqn:Eout.
    + apply filter_nil_existsb in Eout. rewrite Eout, !app_nil_r.
      now destruct acc.
    + rewrite (filter_cons_existsb _ _ _ _ Eout). now rewrite app_nil_r.
  - rewrite (filter_cons_existsb _ _ _ _ Ein). now rewrite app_nil_r.
Qed.

Lemma filter_loop_spec start_module end_module mapped :
  forall acc,
    fold_left (filter_step get_topics with_topics get_module_id
                           start_module end_module) mapped acc
    = ((fst acc
        ++ flat_map (kept get_topics with_topics get_module_id
                          start_module end_module) mapped)%list,
       (snd acc
        ++ filter (wholly_out_of_range get_topics get_module_id
                                       start_module end_module) mapped)%list).
Proof.
  induction mapped as [| q mapped IH]; intros acc; simpl.
  - now rewrite !app_nil_r; destruct acc.
  - rewrite IH, filter_step_spec. cbn [fst snd].
    rewrite <- !app_assoc. f_equal. f_equal.
    now destruct (wholly_out_of_range _ _ _ _ q).
Qed.

(** X18.  [filter_mapped_results_by_range] keeps, in order, every
    question that has a topic in the range, with its in-range topics
    only, and reports, unchanged, every question that has topics with a
    module but none in the range; a question whose topics all lack a
    module is in neither list, so the two lists together are never
    longer than the input; and a kept record that reads back the topics
    it was given has at least one topic, all of them in range. *)
Theorem results_are_split_by_range
  (mapped : list Result) (start_module end_module : Z) :
  filter_mapped_results_by_range get_topics with_topics get_module_id
                                 mapped start_module end_module
  = (flat_map (kept get_topics with_topics get_module_id
                    start_module end_module) mapped,
     filter (wholly_out_of_range get_topics get_module_id
                                 start_module end_module) mapped) /\
  (List.length
     (fst (filter_mapped_results_by_range get_topics with_topics
             get_module_id mapped start_module end_module))
   + List.length
       (snd (filter_mapped_results_by_range get_topics with_topics
               get_module_id mapped start_module end_module))
   <= List.length mapped)%nat /\
  ((forall q topics, get_topics (with_topics q topics) = topics) ->
   forall r,
     In r (fst (filter_mapped_results_by_range get_topics with_topics
                  get_module_id mapped start_module end_module)) ->
     get_topics r <> [] /\
     forall t, In t (get_topics r) ->
               exists id, get_module_id t = Some id /\
                          start_module <= id <= end_module).
Proof.
  unfold filter_mapped_results_by_range. rewrite filter_loop_spec.
  cbn [fst snd app]. split; [reflexivity |]. split.
  - induction mapped as [| q mapped IH]; simpl; [lia |].
    rewrite length_app. unfold kept at 1, wholly_out_of_range at 1.
    destruct (filter (topic_in_range get_module_id start_module end_module)
                     (get_topics q)) as [| t ts] eqn:Ein.
    + destruct (_ && _); simpl in *; lia.
    + rewrite (filter_cons_existsb _ _ _ _ Ein). simpl in *. lia.
  - intros Hget r Hr. apply in_flat_map in Hr.
    destruct Hr as (q & _ & Hr). unfold kept in Hr.
    destruct (filter (topic_in_range get_module_id start_module end_module)
                     (get_topics q)) as [| t ts] eqn:Ein;
      [contradiction |].
    destruct Hr as [<- | []]. rewrite Hget. split; [discriminate |].
    intros t' Ht'. rewrite <- Ein in Ht'. apply filter_In in Ht'.
    destruct Ht' as [_ Hrange]. unfold topic_in_range in Hrange.
    destruct (get_module_id t') as [id |]; [| discriminate].
    exists id. split; [reflexivity |].
    apply andb_true_iff in Hrange. destruct Hrange as [H1 H2].
    apply Z.leb_le in H1, H2. lia.
Qed.

End FilterFacts.

Section AfterTheMapping.

Variable model_encode : string -> list Q.
Variable token_set_ratio : string -> string -> Q.



End AfterTheMapping.

(** ** The statement at a concrete input *)

Import Fixtures.
Local Open Scope string_scope.


End FilterMore.

(** * The importance engine *)

Module ImportanceMore.

Import Num TopicMapper ImportanceEngine NumFacts.
Local Open Scope Q_scope.

(** *** Dictionaries with a default value *)

Section DefaultdictFacts.

Context {K V : Type}.
Variable eqb : K -> K -> bool.
Variable default : V.
Hypothesis eqb_eq : forall x y, eqb x y = true <-> x = y.

Lemma eqb_refl_true (x : K) : eqb x x = true.
Proof. now apply eqb_eq. Qed.

Lemma eqb_swap (x y : K) : eqb x y = eqb y x.
Proof.
  destruct (eqb x y) eqn:E, (eqb y x) eqn:E'; try reflexivity.
  - apply eqb_eq in E. subst. now rewrite eqb_refl_true in E'.
  - apply eqb_eq in E'. subst. now rewrite eqb_refl_true in E.
Qed.

Lemma value_at_update_at (k key : K) (f : V -> V) (d : list (K * V)) :
  value_at eqb default k (update_at eqb default key f d) =
  if eqb k key then f (value_at eqb default k d)
  else value_at eqb default k d.
Proof.
  unfold value_at.
  induction d as [| [k0 v] d IH]; simpl.
  - rewrite (eqb_swap key k). now destruct (eqb k key).
  - destruct (eqb k0 key) eqn:Ekey; simpl.
    + apply eqb_eq in Ekey. subst k0.
      rewrite (eqb_swap key k). now destruct (eqb k key).
    + destruct (eqb k0 k) eqn:E; [| exact IH].
      apply eqb_eq in E. subst k0. now rewrite Ekey.
Qed.

Lemma update_at_keys (k key : K) (f : V -> V) (d : list (K * V)) :
  In k (map fst (update_at eqb default key f d)) <->
  k = key \/ In k (map fst d).
Proof.
  induction d as [| [k0 v] d IH]; simpl.
  - intuition.
  - destruct (eqb k0 key) eqn:E; simpl.
    + apply eqb_eq in E. subst k0. intuition.
    + rewrite IH. intuition.
Qed.

Lemma update_at_nodup (key : K) (f : V -> V) (d : list (K * V)) :
  NoDup (map fst d) -> NoDup (map fst (update_at eqb default key f d)).
Proof.
  induction d as [| [k0 v] d IH]; simpl; intros Hnd.
  - repeat constructor. intros [].
  - inversion Hnd as [| x l Hnotin Hnd']; subst.
    destruct (eqb k0 key) eqn:E; simpl; [exact Hnd |].
    constructor; [| now apply IH].
    rewrite update_at_keys. intros [-> | Hin]; [| now apply Hnotin].
    now rewrite eqb_refl_true in E.
Qed.

Lemma update_at_Forall (P : K -> V -> Prop) (key : K) (f : V -> V)
  (d : list (K * V)) :
  Forall (fun kv => P (fst kv) (snd kv)) d ->
  P key (f default) ->
  (forall v, P key v -> P key (f v)) ->
  Forall (fun kv => P (fst kv) (snd kv)) (update_at eqb default key f d).
Proof.
  intros Hall Hnew Hstep.
  induction Hall as [| [k0 v] d Hkv Hd IH]; simpl.
  - repeat constructor. exact Hnew.
  - destruct (eqb k0 key) eqn:E.
    + apply eqb_eq in E. subst k0. constructor; [| assumption].
      simpl in *. now apply Hstep.
    + constructor; assumption.
Qed.

Lemma update_at_nonempty (key : K) (f : V -> V) (d : list (K * V)) :
  update_at eqb default key f d <> [].
Proof.
  destruct d as [| [k0 v] d]; simpl; [discriminate |].
  destruct (eqb k0 key); discriminate.
Qed.

Lemma value_at_In (d : list (K * V)) (k : K) (v : V) :
  NoDup (map fst d) -> In (k, v) d -> value_at eqb default k d = v.
Proof.
  unfold value_at.
  induction d as [| [k0 v0] d IH]; simpl; intros Hnd Hin; [contradiction |].
  inversion Hnd as [| x l Hnotin Hnd']; subst.
  destruct Hin as [Heq | Hin].
  - inversion Heq; subst. now rewrite eqb_refl_true.
  - destruct (eqb k0 k) eqn:E; [| now apply IH].
    apply eqb_eq in E. subst k0. exfalso. apply Hnotin.
    apply in_map_iff. now exists (k, v).
Qed.

End DefaultdictFacts.

(** *** The first loop *)

Lemma record_loop q topics :
  forall stats,
    match fold_until (record_mapping q) topics stats with
    | inr stats' =>
        stats' = fold_left counted
                           (filter is_counted (map (fun t => (q, t)) topics))
                           stats /\
        Forall (fun p => allocated_marks (snd p) <> None)
               (filter is_counted (map (fun t => (q, t)) topics))
    | inl e =>
        exists t, In t topics /\ is_counted (q, t) = true /\
                  allocated_marks t = None
    end.
Proof.
  induction topics as [| t topics IH]; intros stats.
  - simpl. split; [reflexivity | constructor].
  - cbn [fold_until map filter].
    assert (Hc : is_counted (q, t)
                 = negb (String.eqb (st_topic t) FALLBACK_TOPIC))
      by reflexivity.
    assert (Hstep : record_mapping q t stats
                    = if String.eqb (st_topic t) FALLBACK_TOPIC
                      then inr stats
                      else match allocated_marks t with
                           | None => inl (KeyError "allocated_marks")
                           | Some _ => inr (counted stats (q, t))
                           end).
    { unfold record_mapping, counted, marks_or_zero. cbn [fst snd].
      destruct (String.eqb (st_topic t) FALLBACK_TOPIC); [reflexivity |].
      now destruct (allocated_marks t). }
    rewrite Hstep, Hc. clear Hstep.
    destruct (String.eqb (st_topic t) FALLBACK_TOPIC) eqn:Efb; cbn [negb].
    + specialize (IH stats).
      destruct (fold_until (record_mapping q) topics stats) as [e | stats'].
      * destruct IH as (t' & Hin & Hc' & Hnone). exists t'.
        split; [now right | auto].
      * exact IH.
    + destruct (allocated_marks t) as [a |] eqn:Ea.
      * specialize (IH (counted stats (q, t))).
        destruct (fold_until (record_mapping q) topics (counted stats (q, t)))
          as [e | stats'].
        -- destruct IH as (t' & Hin & Hc' & Hnone). exists t'.
           split; [now right | auto].
        -- destruct IH as [-> Hall]. split; [reflexivity |].
           constructor; [cbn [snd]; congruence | exact Hall].
      * exists t. split; [now left |]. split; [| exact Ea].
        rewrite Hc. reflexivity.
Qed.

Lemma aggregate_loop mapped :
  forall stats,
    match fold_until
            (fun q stats => fold_until (record_mapping (q_id q))
                                       (mapped_topics q) stats)
            mapped stats with
    | inr stats' =>
        stats' = fold_left counted (counted_mentions mapped) stats /\
        Forall (fun p => allocated_marks (snd p) <> None)
               (counted_mentions mapped)
    | inl e =>
        exists q t, In q mapped /\ In t (mapped_topics q) /\
                    st_topic t <> FALLBACK_TOPIC /\ allocated_marks t = None
    end.
Proof.
  unfold counted_mentions, all_mentions.
  induction mapped as [| q mapped IH]; intros stats; simpl.
  - split; [reflexivity | constructor].
  - pose proof (record_loop (q_id q) (mapped_topics q) stats) as Hq.
    destruct (fold_until (record_mapping (q_id q)) (mapped_topics q) stats)
      as [e | stats1].
    + destruct Hq as (t & Hin & Hc & Hnone). exists q, t.
      split; [now left |]. split; [exact Hin |]. split; [| exact Hnone].
      unfold is_counted in Hc. cbn [snd] in Hc.
      apply negb_true_iff in Hc. intros E. rewrite E in Hc. discriminate.
    + destruct Hq as [-> Hall]. specialize (IH (fold_left counted
        (filter is_counted (map (fun t => (q_id q, t)) (mapped_topics q)))
        stats)).
      destruct (fold_until _ mapped _) as [e | stats'].
      * destruct IH as (q' & t & Hq' & Ht & Hfb & Hnone).
        exists q', t. auto.
      * destruct IH as [-> Hall']. rewrite filter_app, fold_left_app.
        split; [reflexivity |]. apply Forall_app. auto.
Qed.

(** *** What the counts are *)

Lemma counted_well_formed ps :
  forall stats,
    Forall (fun p => is_counted p = true) ps ->
    well_formed_stats stats -> well_formed_stats (fold_left counted ps stats).
Proof.
  induction ps as [| p ps IH]; intros stats Hps Hwf; simpl; [exact Hwf |].
  inversion Hps as [| p' ps' Hp Hps']; subst.
  apply IH; [exact Hps' |]. clear IH Hps Hps'.
  destruct Hwf as [Hnd Hall]. unfold counted. split.
  - now apply (update_at_nodup Z.eqb [] Z.eqb_eq).
  - apply (update_at_Forall Z.eqb [] Z.eqb_eq
             (fun _ topics =>
                topics <> [] /\ NoDup (map fst topics) /\
                Forall (fun ts => fst ts <> FALLBACK_TOPIC /\
                                  (1 <= frequency (snd ts))%nat) topics)).
    + exact Hall.
    + cbn [update_at map fst snd]. split; [discriminate |]. split.
      * constructor; [intros [] | constructor].
      * constructor; [| constructor]. cbn [fst snd]. split; [| simpl; lia].
        unfold is_counted in Hp. apply negb_true_iff in Hp.
        intros E. rewrite E in Hp. discriminate.
    + intros topics (Hne & Hnd' & Hts). split; [| split].
      * apply update_at_nonempty.
      * now apply (update_at_nodup String.eqb no_stats String.eqb_eq).
      * apply (update_at_Forall String.eqb no_stats String.eqb_eq
                 (fun topic s => topic <> FALLBACK_TOPIC /\
                                 (1 <= frequency s)%nat)).
        -- exact Hts.
        -- split; [| simpl; lia].
           unfold is_counted in Hp. apply negb_true_iff in Hp.
           intros E. rewrite E in Hp. discriminate.
        -- intros s [Hfb _]. split; [exact Hfb | simpl; lia].
Qed.

Lemma counted_value_at m topic ps :
  forall stats,
    value_at String.eqb no_stats topic
             (value_at Z.eqb [] m (fold_left counted ps stats))
    = fold_left (fun s p => count (marks_or_zero (snd p)) (fst p) s)
                (filter (is_mention_of m topic) ps)
                (value_at String.eqb no_stats topic
                          (value_at Z.eqb [] m stats)).
Proof.
  induction ps as [| p ps IH]; intros stats; [reflexivity |].
  cbn [fold_left filter]. rewrite IH.
  assert (Hval :
            value_at String.eqb no_stats topic
                     (value_at Z.eqb [] m (counted stats p))
            = if is_mention_of m topic p
              then count (marks_or_zero (snd p)) (fst p)
                         (value_at String.eqb no_stats topic
                                   (value_at Z.eqb [] m stats))
              else value_at String.eqb no_stats topic
                            (value_at Z.eqb [] m stats)).
  { unfold counted, is_mention_of.
    rewrite (value_at_update_at Z.eqb [] Z.eqb_eq).
    rewrite (Z.eqb_sym (st_module_id (snd p)) m).
    destruct (m =? st_module_id (snd p))%Z; simpl; [| reflexivity].
    rewrite (value_at_update_at String.eqb no_stats String.eqb_eq).
    rewrite (String.eqb_sym (st_topic (snd p)) topic).
    destruct (String.eqb topic (st_topic (snd p))); reflexivity. }
  rewrite Hval. destruct (is_mention_of m topic p); reflexivity.
Qed.

Lemma count_fold l :
  forall s,
    frequency (fold_left (fun s p => count (marks_or_zero (snd p)) (fst p) s)
                         l s)
    = (frequency s + List.length l)%nat /\
    questions (fold_left (fun s p => count (marks_or_zero (snd p)) (fst p) s)
                         l s)
    = (questions s ++ map fst l)%list /\
    total_marks (fold_left (fun s p => count (marks_or_zero (snd p)) (fst p) s)
                           l s)
    = fold_left (fun acc p => acc + marks_or_zero (snd p)) l (total_marks s).
Proof.
  induction l as [| p l IH]; intros s; simpl.
  - rewrite Nat.add_0_r, app_nil_r. auto.
  - destruct (IH (count (marks_or_zero (snd p)) (fst p) s)) as (-> & -> & ->).
    simpl. rewrite <- app_assoc. repeat split; try reflexivity. lia.
Qed.

Lemma filter_filter_implied {A} (f g : A -> bool) l :
  (forall x, f x = true -> g x = true) ->
  filter f (filter g l) = filter f l.
Proof.
  intros Himp. induction l as [| x l IH]; simpl; [reflexivity |].
  destruct (g x) eqn:Eg; simpl; [now rewrite IH |].
  destruct (f x) eqn:Ef; [| exact IH].
  apply Himp in Ef. congruence.
Qed.

Lemma mentions_of_counted m topic mapped :
  topic <> FALLBACK_TOPIC ->
  filter (is_mention_of m topic) (counted_mentions mapped)
  = mentions_of m topic mapped.
Proof.
  intros Hfb. unfold counted_mentions.
  rewrite filter_filter_implied; [reflexivity |].
  intros p Hp. unfold is_mention_of in Hp. apply andb_true_iff in Hp.
  destruct Hp as [_ Hp]. apply String.eqb_eq in Hp.
  unfold is_counted. apply negb_true_iff.
  destruct (String.eqb_spec (st_topic (snd p)) FALLBACK_TOPIC);
    [congruence | reflexivity].
Qed.

(** An entry of the statistics holds the count, the labels and the marks
    of the mappings to its topic. *)
Lemma counted_entry mapped m topics topic s :
  In (m, topics) (fold_left counted (counted_mentions mapped) []) ->
  In (topic, s) topics ->
  topic <> FALLBACK_TOPIC /\
  (1 <= frequency s)%nat /\
  frequency s = List.length (mentions_of m topic mapped) /\
  questions s = map fst (mentions_of m topic mapped) /\
  total_marks s = marks_of (mentions_of m topic mapped).
Proof.
  intros Hm Ht.
  assert (Hwf : well_formed_stats
                  (fold_left counted (counted_mentions mapped) [])).
  { apply counted_well_formed.
    - apply Forall_forall. intros p Hp. unfold counted_mentions in Hp.
      apply filter_In in Hp. tauto.
    - split; constructor. }
  destruct Hwf as [Hnd Hall]. rewrite Forall_forall in Hall.
  destruct (Hall _ Hm) as (_ & Hnd' & Hts). cbn [snd] in Hnd', Hts.
  rewrite Forall_forall in Hts. destruct (Hts _ Ht) as [Hfb Hfreq].
  cbn [fst snd] in Hfb, Hfreq.
  split; [exact Hfb |]. split; [exact Hfreq |].
  pose proof (counted_value_at m topic (counted_mentions mapped) []) as Hval.
  rewrite (value_at_In Z.eqb [] Z.eqb_eq _ _ _ Hnd Hm) in Hval.
  rewrite (value_at_In String.eqb no_stats String.eqb_eq _ _ _ Hnd' Ht)
    in Hval.
  rewrite (mentions_of_counted _ _ _ Hfb) in Hval.
  assert (Hs : s = fold_left
                     (fun s p => count (marks_or_zero (snd p)) (fst p) s)
                     (mentions_of m topic mapped) no_stats)
    by exact Hval.
  destruct (count_fold (mentions_of m topic mapped) no_stats)
    as (Hf & Hq & Hmarks).
  rewrite <- Hs in Hf, Hq, Hmarks. auto.
Qed.

(** *** The second loop *)

Lemma for_all_inv {A B} (f : A -> error + B) l :
  forall out, for_all f l = inr out -> Forall2 (fun a b => f a = inr b) l out.
Proof.
  induction l as [| a l IH]; simpl; intros out H.
  - inversion H. constructor.
  - destruct (f a) as [e | b] eqn:Ea; [discriminate |].
    destruct (for_all f l) as [e | bs]; [discriminate |].
    inversion H; subst. constructor; [exact Ea | now apply IH].
Qed.

Lemma for_all_total {A B} (f : A -> error + B) l :
  (forall a, In a l -> exists b, f a = inr b) ->
  exists out, for_all f l = inr out.
Proof.
  induction l as [| a l IH]; simpl; intros Hf; [eauto |].
  destruct (Hf a (or_introl eq_refl)) as [b ->].
  destruct IH as [bs ->]; [intros a' Ha'; apply Hf; now right |].
  eauto.
Qed.

Lemma max_of_nat_spec l x :
  max_of Nat.ltb l = inr x -> In x l /\ forall y, In y l -> (y <= x)%nat.
Proof.
  destruct l as [| x0 l]; simpl; [discriminate |].
  intros H. inversion H; subst; clear H. revert x0.
  induction l as [| z l IH]; intros x0; simpl.
  - split; [now left |]. intros y [<- | []]. lia.
  - destruct (IH (if (x0 <? z)%nat then z else x0)) as [Hin Hmax].
    split.
    + destruct Hin as [Hin | Hin]; [| now right; right].
      rewrite <- Hin. destruct (x0 <? z)%nat; auto.
    + intros y [<- | [<- | Hy]].
      * specialize (Hmax _ (or_introl eq_refl)).
        destruct (Nat.ltb_spec x0 z); lia.
      * specialize (Hmax _ (or_introl eq_refl)).
        destruct (Nat.ltb_spec x0 z); lia.
      * apply Hmax. now right.
Qed.

Lemma q_less_false x y : q_less x y = false <-> y <= x.
Proof.
  unfold q_less. rewrite negb_false_iff. apply Qle_bool_iff.
Qed.

Lemma q_less_true x y : q_less x y = true <-> x < y.
Proof.
  unfold q_less. rewrite negb_true_iff. split.
  - intros H. apply Qnot_le_lt. intros Hle.
    apply Qle_bool_iff in Hle. congruence.
  - intros H. destruct (Qle_bool y x) eqn:E; [| reflexivity].
    apply Qle_bool_iff in E. exfalso. eapply Qlt_not_le; eauto.
Qed.

Lemma max_of_q_spec l x :
  max_of q_less l = inr x -> In x l /\ forall y, In y l -> y <= x.
Proof.
  destruct l as [| x0 l]; simpl; [discriminate |].
  intros H. inversion H; subst; clear H. revert x0.
  induction l as [| z l IH]; intros x0; simpl.
  - split; [now left |]. intros y [<- | []]. apply Qle_refl.
  - destruct (IH (if q_less x0 z then z else x0)) as [Hin Hmax].
    split.
    + destruct Hin as [Hin | Hin]; [| now right; right].
      rewrite <- Hin. destruct (q_less x0 z); auto.
    + intros y [<- | [<- | Hy]].
      * specialize (Hmax _ (or_introl eq_refl)).
        destruct (q_less x0 z) eqn:E; [| exact Hmax].
        apply q_less_true in E. eapply Qle_trans; [| exact Hmax].
        now apply Qlt_le_weak.
      * specialize (Hmax _ (or_introl eq_refl)).
        destruct (q_less x0 z) eqn:E; [exact Hmax |].
        apply q_less_false in E. eapply Qle_trans; eauto.
      * apply Hmax. now right.
Qed.

Lemma rank_module_inv m topics m' ranked :
  rank_module (m, topics) = inr (m', ranked) ->
  m' = m /\
  exists max_freq max_marks,
    max_of Nat.ltb (map (fun e => frequency (snd e)) topics) = inr max_freq /\
    max_of q_less (map (fun e => total_marks (snd e)) topics)
    = inr max_marks /\
    ranked = sort_stable more_important
                         (map (rank_topic max_freq max_marks) topics).
Proof.
  unfold rank_module. cbn [fst snd].
  destruct (max_of Nat.ltb _) as [e | mf]; [discriminate |].
  destruct (max_of q_less _) as [e | mm]; [discriminate |].
  intros H. inversion H; subst. split; [reflexivity |]. eauto.
Qed.

Lemma rank_module_total m topics :
  topics <> [] -> exists ranked, rank_module (m, topics) = inr (m, ranked).
Proof.
  intros Hne. unfold rank_module. cbn [fst snd].
  destruct topics as [| t topics]; [now elim Hne |]. simpl. eauto.
Qed.

Lemma more_important_asym x y :
  more_important y x = true -> more_important x y = false.
Proof.
  unfold more_important. rewrite q_less_true, q_less_false.
  apply Qlt_le_weak.
Qed.

Lemma more_important_trans a b c :
  more_important b a = false -> more_important c b = false ->
  more_important c a = false.
Proof.
  unfold more_important. rewrite !q_less_false. intros H1 H2.
  eapply Qle_trans; eauto.
Qed.

Lemma ranked_sorted l :
  StronglySorted importance_descends (sort_stable more_important l).
Proof.
  eapply StronglySorted_weaken;
    [| apply (sort_stable_sorted more_important more_important_asym
                                 more_important_trans)].
  intros a b H. unfold more_important in H. now apply q_less_false in H.
Qed.

(** What a returned output is made of. *)
Lemma importance_output_inv mapped out :
  compute_topic_importance mapped = inr out ->
  Forall (fun p => allocated_marks (snd p) <> None)
         (counted_mentions mapped) /\
  Forall2 (fun e o => rank_module e = inr o)
          (fold_left counted (counted_mentions mapped) []) out.
Proof.
  unfold compute_topic_importance, aggregate. intros H.
  pose proof (aggregate_loop mapped []) as Hagg.
  destruct (fold_until _ mapped []) as [e | stats]; [discriminate |].
  destruct Hagg as [-> Hall]. split; [exact Hall |].
  now apply for_all_inv.
Qed.

Lemma Forall2_In_right {A B} (R : A -> B -> Prop) l l' b :
  Forall2 R l l' -> In b l' -> exists a, In a l /\ R a b.
Proof.
  induction 1 as [| a0 b0 l l' HR _ IH]; simpl; intros Hin.
  - contradiction.
  - destruct Hin as [<- | Hin].
    + exists a0. auto.
    + destruct (IH Hin) as (a & Ha & HRa). exists a. auto.
Qed.

(** An entry of the output is the ranking of one module's statistics. *)
Lemma importance_output_entry mapped out m ranked :
  compute_topic_importance mapped = inr out ->
  In (m, ranked) out ->
  exists topics max_freq max_marks,
    In (m, topics) (fold_left counted (counted_mentions mapped) []) /\
    topics <> [] /\ NoDup (map fst topics) /\
    max_of Nat.ltb (map (fun e => frequency (snd e)) topics) = inr max_freq /\
    max_of q_less (map (fun e => total_marks (snd e)) topics)
    = inr max_marks /\
    ranked = sort_stable more_important
                         (map (rank_topic max_freq max_marks) topics).
Proof.
  intros H Hin. apply importance_output_inv in H. destruct H as [_ HF].
  destruct (Forall2_In_right _ _ _ _ HF Hin) as ([m0 topics] & He & Hrank).
  apply rank_module_inv in Hrank.
  destruct Hrank as (-> & mf & mm & Hmf & Hmm & ->).
  assert (Hwf : well_formed_stats
                  (fold_left counted (counted_mentions mapped) [])).
  { apply counted_well_formed.
    - apply Forall_forall. intros p Hp. unfold counted_mentions in Hp.
      apply filter_In in Hp. tauto.
    - split; constructor. }
  destruct Hwf as [_ Hall]. rewrite Forall_forall in Hall.
  destruct (Hall _ He) as (Hne & Hnd & _).
  exists topics, mf, mm. auto 10.
Qed.

(** X20.  In the output of [compute_topic_importance] no module is a
    key twice; the list of a module is not empty, names no topic twice
    and never the fallback topic, and is in descending order of
    importance score; an entry's evidence is the list of the labels of
    the questions mapped to its topic in its module, in the order of the
    mapped results, its frequency is their number, and its total is the
    sum of their allocated marks, rounded to two decimals. *)
Theorem importance_counts_the_mappings mapped out :
  compute_topic_importance mapped = inr out ->
  NoDup (map fst out) /\
  forall m ranked,
    In (m, ranked) out ->
    ranked <> [] /\
    NoDup (map rt_topic ranked) /\
    StronglySorted importance_descends ranked /\
    forall r,
      In r ranked ->
      rt_topic r <> FALLBACK_TOPIC /\
      evidence r = map fst (mentions_of m (rt_topic r) mapped) /\
      rt_frequency r = List.length (evidence r) /\
      (1 <= rt_frequency r)%nat /\
      rt_total_marks r
      = round2 (marks_of (mentions_of m (rt_topic r) mapped)).
Proof.
  intros H. split.
  - destruct (importance_output_inv _ _ H) as [_ HF].
    assert (Hkeys : map fst out
                    = map fst (fold_left counted (counted_mentions mapped) [])).
    { clear H. induction HF as [| [m topics] [m' ranked] l l' Hr _ IH];
        [reflexivity |].
      apply rank_module_inv in Hr. destruct Hr as [-> _].
      simpl. now rewrite IH. }
    rewrite Hkeys.
    apply (counted_well_formed (counted_mentions mapped) []).
    + apply Forall_forall. intros p Hp. unfold counted_mentions in Hp.
      apply filter_In in Hp. tauto.
    + split; constructor.
  - intros m ranked Hin.
    destruct (importance_output_entry _ _ _ _ H Hin)
      as (topics & mf & mm & Hm & Hne & Hnd & _ & _ & ->).
    pose proof (sort_stable_perm more_important
                                 (map (rank_topic mf mm) topics)) as Hperm.
    split; [| split; [| split]].
    + intros E. rewrite E in Hperm. apply Permutation_nil in Hperm.
      destruct topics; [now elim Hne | discriminate].
    + eapply Permutation_NoDup;
        [symmetry; apply Permutation_map; exact Hperm |].
      rewrite map_map. exact Hnd.
    + apply ranked_sorted.
    + intros r Hr. apply (Permutation_in _ Hperm) in Hr.
      apply in_map_iff in Hr. destruct Hr as ([topic s] & <- & Hts).
      destruct (counted_entry _ _ _ _ _ Hm Hts)
        as (Hfb & Hfreq & Hlen & Hq & Hmarks).
      cbn [rank_topic rt_topic evidence rt_frequency rt_total_marks fst snd].
      split; [exact Hfb |]. split; [exact Hq |].
      split; [now rewrite Hq, length_map |]. split; [exact Hfreq |].
      now rewrite Hmarks.
Qed.

(** *** The scores *)

Lemma marks_of_nonneg l :
  Forall (fun p => 0 <= marks_or_zero (snd p)) l -> 0 <= marks_of l.
Proof.
  unfold marks_of. intros Hall.
  assert (Hgen : forall acc, 0 <= acc ->
                   0 <= fold_left (fun acc p => acc + marks_or_zero (snd p))
                                  l acc).
  { induction Hall as [| p l Hp _ IH]; intros acc Hacc; simpl; [exact Hacc |].
    apply IH. lra. }
  apply Hgen. lra.
Qed.

Lemma mentions_In m topic mapped p :
  In p (mentions_of m topic mapped) ->
  st_module_id (snd p) = m /\ st_topic (snd p) = topic /\
  exists q, In q mapped /\ In (snd p) (mapped_topics q) /\ fst p = q_id q.
Proof.
  unfold mentions_of, all_mentions. intros H.
  apply filter_In in H. destruct H as [H Hmatch].
  apply andb_true_iff in Hmatch. destruct Hmatch as [Hm Ht].
  apply Z.eqb_eq in Hm. apply String.eqb_eq in Ht.
  split; [exact Hm |]. split; [exact Ht |].
  apply in_flat_map in H. destruct H as (q & Hq & H).
  apply in_map_iff in H. destruct H as (t & <- & Hin).
  exists q. auto.
Qed.

(** The unrounded score of an entry that was counted, in a module whose
    greatest frequency and marks are [max_freq] and [max_marks]. *)
Lemma rank_topic_between max_freq max_marks topic s :
  (1 <= frequency s <= max_freq)%nat ->
  0 <= total_marks s -> total_marks s <= max_marks ->
  0 <= importance_score (rank_topic max_freq max_marks (topic, s)) /\
  importance_score (rank_topic max_freq max_marks (topic, s)) <= 1 /\
  (frequency s = max_freq ->
   6 # 10 <= importance_score (rank_topic max_freq max_marks (topic, s))).
Proof.
  intros [Hf1 Hf2] Hm0 Hm1.
  cbn [rank_topic importance_score fst snd].
  assert (Hpos : (0 <? max_freq)%nat = true) by (apply Nat.ltb_lt; lia).
  rewrite Hpos.
  assert (Hmf : 0 < of_nat max_freq) by (apply of_nat_pos; lia).
  assert (Hle : of_nat (frequency s) <= of_nat max_freq)
    by (now apply TopicMapperMore.of_nat_le).
  assert (Hge : 1 <= of_nat (frequency s))
    by (apply (TopicMapperMore.of_nat_le 1); lia).
  set (nf := of_nat (frequency s) / of_nat max_freq).
  assert (Hnf : 0 <= nf /\ nf <= 1).
  { unfold nf. split.
    - apply Qle_shift_div_l; [exact Hmf | lra].
    - apply Qle_shift_div_r; [exact Hmf | lra]. }
  set (nm := if q_less 0 max_marks then total_marks s / max_marks else 0).
  assert (Hnm : 0 <= nm /\ nm <= 1).
  { unfold nm. destruct (q_less 0 max_marks) eqn:E; [| lra].
    apply q_less_true in E. split.
    - apply Qle_shift_div_l; [exact E | lra].
    - apply Qle_shift_div_r; [exact E | lra]. }
  unfold FREQ_WEIGHT, MARK_WEIGHT.
  destruct Hnf as [Hnf0 Hnf1], Hnm as [Hnm0 Hnm1].
  split; [| split].
  - eapply Qle_trans;
      [| apply (TopicMapperMore.round4_between 0 10000); lra].
    unfold Qle. simpl. lia.
  - eapply Qle_trans;
      [apply (TopicMapperMore.round4_between 0 10000); lra |].
    unfold Qle. simpl. lia.
  - intros Heq.
    assert (Hone : nf == 1).
    { unfold nf. rewrite Heq. field. intros E. rewrite E in Hmf. lra. }
    eapply Qle_trans;
      [| apply (TopicMapperMore.round4_between 6000 10000); lra].
    unfold Qle. simpl. lia.
Qed.

(** X21.  When no allocated mark is negative, every importance score
    lies between 0 and 1, and a topic that is mapped at least as often
    as every other topic of its module scores 0.6 or more. *)
Theorem importance_scores_are_bounded mapped out :
  compute_topic_importance mapped = inr out ->
  (forall q t a,
      In q mapped -> In t (mapped_topics q) ->
      allocated_marks t = Some a -> 0 <= a) ->
  forall m ranked r,
    In (m, ranked) out -> In r ranked ->
    0 <= importance_score r /\ importance_score r <= 1 /\
    ((forall r', In r' ranked -> (rt_frequency r' <= rt_frequency r)%nat) ->
     6 # 10 <= importance_score r).
Proof.
  intros H Hmarks m ranked r Hin Hr.
  destruct (importance_output_entry _ _ _ _ H Hin)
    as (topics & mf & mm & Hm & Hne & Hnd & Hmf & Hmm & ->).
  pose proof (sort_stable_perm more_important
                               (map (rank_topic mf mm) topics)) as Hperm.
  apply (Permutation_in _ Hperm) in Hr.
  apply in_map_iff in Hr. destruct Hr as ([topic s] & <- & Hts).
  destruct (counted_entry _ _ _ _ _ Hm Hts) as (_ & Hfreq & _ & _ & Htotal).
  apply max_of_nat_spec in Hmf. destruct Hmf as [Hmf_in Hmf].
  apply max_of_q_spec in Hmm. destruct Hmm as [_ Hmm].
  assert (Hf : (frequency s <= mf)%nat).
  { apply Hmf. apply in_map_iff. now exists (topic, s). }
  assert (Hm1 : total_marks s <= mm).
  { apply Hmm. apply in_map_iff. now exists (topic, s). }
  assert (Hm0 : 0 <= total_marks s).
  { rewrite Htotal. apply marks_of_nonneg. apply Forall_forall.
    intros p Hp. apply mentions_In in Hp.
    destruct Hp as (_ & _ & q & Hq & Ht & _).
    unfold marks_or_zero. destruct (allocated_marks (snd p)) as [a |] eqn:E;
      [eapply Hmarks; eauto | lra]. }
  destruct (rank_topic_between mf mm topic s (conj Hfreq Hf) Hm0 Hm1)
    as (H0 & H1 & Hlead).
  split; [exact H0 |]. split; [exact H1 |].
  intros Hmost. apply Hlead.
  apply in_map_iff in Hmf_in. destruct Hmf_in as ([topic' s'] & Hs' & Hin').
  simpl in Hs'.
  assert (Hr' : In (rank_topic mf mm (topic', s'))
                   (sort_stable more_important
                                (map (rank_topic mf mm) topics))).
  { eapply Permutation_in; [symmetry; exact Hperm |]. now apply in_map. }
  specialize (Hmost _ Hr'). cbn [rank_topic rt_frequency snd] in Hmost. lia.
Qed.

Section AfterTheMapping.

Variable model_encode : string -> list Q.
Variable token_set_ratio : string -> string -> Q.

(** Every topic of a record of the mapping stage carries its share of
    the marks. *)
Lemma run_topics_have_marks questions mods title log log' mapped :
  map_questions_to_topics model_encode token_set_ratio questions mods title log
  = (log', inr mapped) ->
  forall r t, In r mapped -> In t (mapped_topics r) ->
              allocated_marks t <> None.
Proof.
  unfold map_questions_to_topics. intros H r t Hr Ht.
  apply bind_inv in H. destruct H as (l1 & ms & _ & H).
  apply bind_inv in H. destruct H as (l2 & ts & _ & H).
  apply for_each_inv in H.
  destruct (Forall2_In_right _ _ _ _ H Hr) as (q & _ & la & lb & Hq).
  apply TopicMapperFacts.map_question_inv in Hq.
  destruct Hq as (_ & topics & Heq). rewrite Heq in Ht.
  destruct topics as [| t0 topics]; [contradiction |].
  unfold allocate_marks in Ht. apply in_map_iff in Ht.
  destruct Ht as (t1 & <- & _). discriminate.
Qed.

(** X22.  On the records of the mapping stage the importance engine
    returns: no mapped topic lacks its marks.  Every module of its
    output is a module of the selected syllabus and every ranked topic
    is a main topic of that module. *)
Theorem importance_after_mapping_returns
  questions mods title log log' mapped :
  map_questions_to_topics model_encode token_set_ratio questions mods title log
  = (log', inr mapped) ->
  exists out,
    compute_topic_importance mapped = inr out /\
    forall m ranked r,
      In (m, ranked) out -> In r ranked ->
      exists module main,
        In module mods /\ module_id module = m /\
        In main (main_topics module) /\ main_topic main = rt_topic r.
Proof.
  intros Hrun.
  assert (Hout : exists out, compute_topic_importance mapped = inr out).
  { unfold compute_topic_importance, aggregate.
    pose proof (aggregate_loop mapped []) as Hagg.
    destruct (fold_until _ mapped []) as [e | stats].
    - destruct Hagg as (q & t & Hq & Ht & _ & Hnone).
      now elim (run_topics_have_marks _ _ _ _ _ _ Hrun q t Hq Ht).
    - destruct Hagg as [-> _]. apply for_all_total. intros [m topics] He.
      assert (Hwf : well_formed_stats
                      (fold_left counted (counted_mentions mapped) [])).
      { apply counted_well_formed.
        - apply Forall_forall. intros p Hp. unfold counted_mentions in Hp.
          apply filter_In in Hp. tauto.
        - split; constructor. }
      destruct Hwf as [_ Hall]. rewrite Forall_forall in Hall.
      destruct (Hall _ He) as (Hne & _).
      destruct (rank_module_total m topics Hne) as [ranked Hranked]. eauto. }
  destruct Hout as [out Hout]. exists out. split; [exact Hout |].
  intros m ranked r Hin Hr.
  destruct (importance_output_entry _ _ _ _ Hout Hin)
    as (topics & mf & mm & Hm & _ & _ & _ & _ & ->).
  apply (Permutation_in _ (sort_stable_perm more_important _)) in Hr.
  apply in_map_iff in Hr. destruct Hr as ([topic s] & <- & Hts).
  destruct (counted_entry _ _ _ _ _ Hm Hts) as (Hfb & Hfreq & Hlen & _).
  cbn [rank_topic rt_topic fst].
  destruct (mentions_of m topic mapped) as [| p ps] eqn:E;
    [simpl in Hlen; lia |].
  assert (Hp : In p (mentions_of m topic mapped)) by (rewrite E; now left).
  apply mentions_In in Hp. destruct Hp as (Hmod & Htopic & q & Hq & Ht & _).
  destruct (PipelineMore.mapped_topics_are_main_topics
              model_encode token_set_ratio _ _ _ _ _ _ Hrun q (snd p) Hq Ht)
    as [Hfall | (module & main & Hmodule & Hmain & Hname & Hid)].
  - congruence.
  - exists module, main. repeat split; congruence.
Qed.

End AfterTheMapping.

(** ** The statements at concrete inputs *)

Import Fixtures MoreFixtures.
Local Open Scope string_scope.

(** X20 on the two questions on adders. *)
Lemma importance_counts_the_mappings_witness :
  exists out,
    compute_topic_importance adder_questions = inr out /\
    out <> [] /\
    NoDup (map fst out) /\
    forall m ranked,
      In (m, ranked) out ->
      ranked <> [] /\
      NoDup (map rt_topic ranked) /\
      StronglySorted importance_descends ranked /\
      forall r,
        In r ranked ->
        rt_topic r <> FALLBACK_TOPIC /\
        evidence r = map fst (mentions_of m (rt_topic r) adder_questions) /\
        rt_frequency r = List.length (evidence r) /\
        (1 <= rt_frequency r)%nat /\
        rt_total_marks r
        = round2 (marks_of (mentions_of m (rt_topic r) adder_questions)).
Proof.
  eexists.
  assert (Hrun : compute_topic_importance adder_questions = inr (_ :: _))
    by (vm_compute; reflexivity).
  split; [exact Hrun |]. split; [discriminate |].
  exact (importance_counts_the_mappings _ _ Hrun).
Defined.

(** X21 on the same input. *)
Lemma importance_scores_are_bounded_witness :
  exists out,
    compute_topic_importance adder_questions = inr out /\
    (forall q t a,
        In q adder_questions -> In t (mapped_topics q) ->
        allocated_marks t = Some a -> 0 <= a) /\
    forall m ranked r,
      In (m, ranked) out -> In r ranked ->
      0 <= importance_score r /\ importance_score r <= 1 /\
      ((forall r', In r' ranked -> (rt_frequency r' <= rt_frequency r)%nat) ->
       6 # 10 <= importance_score r).
Proof.
  eexists.
  assert (Hrun : compute_topic_importance adder_questions = inr _)
    by (vm_compute; reflexivity).
  assert (Hmarks : forall q t a,
             In q adder_questions -> In t (mapped_topics q) ->
             allocated_marks t = Some a -> 0 <= a).
  { intros q t a [<- | [<- | []]] [<- | []] Ha;
      inversion Ha; subst; discriminate. }
  split; [exact Hrun |]. split; [exact Hmarks |].
  exact (importance_scores_are_bounded _ _ Hrun Hmarks).
Defined.

(** X22 on one question printed by two papers. *)
Lemma importance_after_mapping_returns_witness :
  exists log' mapped,
    map_questions_to_topics rounding_oracle ratio_stub
                            [pipelining; pipelining_again] [systems] "CS101" []
    = (log', inr mapped) /\
    exists out,
      compute_topic_importance mapped = inr out /\
      forall m ranked r,
        In (m, ranked) out -> In r ranked ->
        exists module main,
          In module [systems] /\ module_id module = m /\
          In main (main_topics module) /\ main_topic main = rt_topic r.
Proof.
  eexists. eexists.
  assert (Hrun : map_questions_to_topics rounding_oracle ratio_stub
                   [pipelining; pipelining_again] [systems] "CS101" []
                 = (_, inr _)) by (vm_compute; reflexivity).
  split; [exact Hrun |].
  exact (importance_after_mapping_returns rounding_oracle ratio_stub
           _ _ _ _ _ _ Hrun).
Defined.

End ImportanceMore.
